(** * deep-deep: request queues and link intake

    A shallow embedding of [deepdeep/queues.py] (the per-domain
    [RequestsPriorityQueue] and the balancing [BalancedPriorityQueue]) and of
    the link intake of [deepdeep/links.py], with the properties of the
    specification stated over it.

    Conventions of the embedding.
    - Python [int] is [Z] (unbounded, no wrap-around).  The floats that are
      only compared or truncated ([eps], the value of [random.random()], the
      score given to [score_to_priority]) are rationals.  [softmax] computes
      with float64 arrays: its floats are the primitive binary64 floats, and
      [numpy.exp], [numpy.max] and the [sum] of an array are taken as a
      record.
    - A queue entry is the mutable list [[neg_priority, count, request]].  The
      heap of a queue and the callers that kept the value returned by [push]
      share the entry by reference, so a queue carries an object store
      ([arena]) and the heap list [entries] holds references (handles) into
      it: a mutation through a handle is seen by the heap.  In this store
      an entry carries its request as a value, which is the queue into which
      no Request object is pushed twice.  A Request object that two entries
      hold is written through one and read through the other: the module
      [shared] embeds the queue once more with the Request objects in a
      store of their own, and the statements on keys and priorities after
      [change_priority] are made there.
    - [heapq] (CPython, [Lib/heapq.py]) is transcribed loop by loop; a loop is
      a [Fixpoint] over a bound that is large enough for it to finish.
    - The random module is an oracle: two streams, read through a cursor
      that every draw advances.  Properties quantify over the streams, that
      is over every outcome of the draws; the probabilities that
      [_pop_many] computes only weight the draws.
    - [urljoin], [url_has_any_extension] and [IGNORED_EXTENSIONS] belong to
      [urllib] and [scrapy]; the link intake takes them as a record.
    - A Python [str] that is searched, compared or joined only (a URL, an
      attribute) is a [string]; the text of an element, which [strip] reads
      character by character, is the list of its Unicode code points. *)

From Stdlib Require Import ZArith QArith String Ascii List Floats.
From stdpp Require Import base list gmap strings sorting.

Close Scope Q_scope.
Open Scope Z_scope.

(** ** Python values that occur in [request.meta] *)

Inductive pyval :=
| PStr (s : string)
| PBool (b : bool).

(** [scrapy.Request], reduced to the attributes the queues read and write. *)
Record Request := mkRequest {
  url : string;
  priority : Z;
  meta : gmap string pyval
}.

Definition set_priority (r : Request) (p : Z) : Request :=
  {| url := url r; priority := p; meta := meta r |}.

Definition set_meta (r : Request) (k : string) (v : pyval) : Request :=
  {| url := url r; priority := priority r; meta := <[k := v]> (meta r) |}.

(** ** heapq *)

Module heapq.
Section Heapq.
Context {A : Type} (lt : A -> A -> bool).

(** [_siftdown(heap, startpos, pos)]: [newitem] bubbles towards [startpos]
    while it is smaller than its parent.  [pos] decreases at every turn, so
    [pos] turns are enough. *)
Fixpoint siftdown_loop (fuel : nat) (heap : list A) (newitem : A)
    (startpos pos : nat) : list A :=
  match fuel with
  | O => <[pos := newitem]> heap
  | S fuel' =>
      if decide (startpos < pos)%nat then
        let parentpos := ((pos - 1) / 2)%nat in
        match heap !! parentpos with
        | Some parent =>
            if lt newitem parent
            then siftdown_loop fuel' (<[pos := parent]> heap) newitem startpos parentpos
            else <[pos := newitem]> heap
        | None => <[pos := newitem]> heap
        end
      else <[pos := newitem]> heap
  end.

Definition _siftdown (heap : list A) (startpos pos : nat) : list A :=
  match heap !! pos with
  | Some newitem => siftdown_loop pos heap newitem startpos pos
  | None => heap
  end.

(** The first loop of [_siftup(heap, pos)]: the smaller child moves up until
    a leaf is reached; the result is the list and the position of the leaf.
    [pos] grows at every turn, so [endpos - pos] turns are enough. *)
Fixpoint siftup_loop (fuel : nat) (heap : list A) (pos : nat) : list A * nat :=
  match fuel with
  | O => (heap, pos)
  | S fuel' =>
      let endpos := length heap in
      let childpos := (2 * pos + 1)%nat in
      if decide (childpos < endpos)%nat then
        let rightpos := (childpos + 1)%nat in
        let childpos :=
          match heap !! childpos, heap !! rightpos with
          | Some l, Some r => if negb (lt l r) then rightpos else childpos
          | _, _ => childpos
          end in
        match heap !! childpos with
        | Some c => siftup_loop fuel' (<[pos := c]> heap) childpos
        | None => (heap, pos)
        end
      else (heap, pos)
  end.

Definition _siftup (heap : list A) (pos : nat) : list A :=
  match heap !! pos with
  | Some newitem =>
      let '(heap', leaf) := siftup_loop (length heap - pos) heap pos in
      _siftdown (<[leaf := newitem]> heap') pos leaf
  | None => heap
  end.

Definition heappush (heap : list A) (item : A) : list A :=
  _siftdown (heap ++ [item]) 0 (length heap).

(** [heappop]: [None] stands for the [IndexError] of an empty heap. *)
Definition heappop (heap : list A) : option (A * list A) :=
  match last heap with
  | None => None
  | Some lastelt =>
      let heap' := removelast heap in
      match heap' with
      | [] => Some (lastelt, heap')
      | returnitem :: _ => Some (returnitem, _siftup (<[0%nat := lastelt]> heap') 0)
      end
  end.

(** [for i in reversed(range(n//2)): _siftup(x, i)] *)
Fixpoint heapify_loop (i : nat) (x : list A) : list A :=
  match i with
  | O => x
  | S i' => heapify_loop i' (_siftup x i')
  end.

Definition heapify (x : list A) : list A :=
  heapify_loop (length x / 2)%nat x.

End Heapq.
End heapq.

(** ** Priorities *)

Definition FLOAT_PRIORITY_MULTIPLIER : Z := 10000.

(** [int(score * FLOAT_PRIORITY_MULTIPLIER)]: the score is a rational, [int]
    truncates towards zero. *)
Definition score_to_priority (score : Q) : Z :=
  Z.quot (Qnum score * FLOAT_PRIORITY_MULTIPLIER) (Zpos (Qden score)).

(** ** RequestsPriorityQueue *)

Inductive payload :=
| REMOVED
| Live (r : Request).

Record Entry := mkEntry {
  neg_priority : Z;
  count : Z;
  item : payload
}.

(** Entries are compared as Python lists, element by element; the counts of
    the entries of one queue differ, so the third element is never reached. *)
Definition entry_lt (a b : Entry) : bool :=
  (neg_priority a <? neg_priority b)
  || ((neg_priority a =? neg_priority b) && (count a <? count b)).

Abbreviation handle := nat (only parsing).

Record RequestsPriorityQueue := mkQueue {
  arena : list Entry;
  entries : list handle;
  counter : Z;
  step : Z
}.

Module RequestsPriorityQueue.

Definition REMOVED_PRIORITY : Z := score_to_priority (10000 # 1).
Definition EMPTY_PRIORITY : Z := score_to_priority (-10000 # 1).

Definition __init__ (fifo : bool) : RequestsPriorityQueue :=
  {| arena := []; entries := []; counter := 0; step := if fifo then 1 else -1 |}.

(** The entry a handle refers to.  Every handle of a heap is a handle of its
    store; one outside the store would read as a tombstone with key 0. *)
Definition deref (ar : list Entry) (h : handle) : Entry :=
  default (mkEntry 0 0 REMOVED) (ar !! h).

(** The order of two handles is the order of the entries they refer to. *)
Definition handle_lt (ar : list Entry) (h1 h2 : handle) : bool :=
  entry_lt (deref ar h1) (deref ar h2).

Definition with_entries (q : RequestsPriorityQueue) (es : list handle) :=
  {| arena := arena q; entries := es; counter := counter q; step := step q |}.

Definition with_arena (q : RequestsPriorityQueue) (ar : list Entry) :=
  {| arena := ar; entries := entries q; counter := counter q; step := step q |}.

Definition push (q : RequestsPriorityQueue) (request : Request)
    : handle * RequestsPriorityQueue :=
  let count := counter q in
  let entry := mkEntry (- priority request) count (Live request) in
  let h := length (arena q) in
  let ar := arena q ++ [entry] in
  (h, {| arena := ar;
         entries := heapq.heappush (handle_lt ar) (entries q) h;
         counter := counter q + step q;
         step := step q |}).

(** [while self.entries]: every turn takes one entry off the heap. *)
Fixpoint pop_loop (fuel : nat) (q : RequestsPriorityQueue)
    : option Request * RequestsPriorityQueue :=
  match fuel with
  | O => (None, q)
  | S fuel' =>
      match heapq.heappop (handle_lt (arena q)) (entries q) with
      | None => (None, q)
      | Some (h, es) =>
          let q' := with_entries q es in
          match item (deref (arena q) h) with
          | Live request => (Some request, q')
          | REMOVED => pop_loop fuel' q'
          end
      end
  end.

Definition pop (q : RequestsPriorityQueue) : option Request * RequestsPriorityQueue :=
  pop_loop (length (entries q)) q.

Definition entry_is_active (e : Entry) : bool :=
  match item e with
  | REMOVED => false
  | Live _ => true
  end.

Definition change_priority_entry (e : Entry) (new_priority : Z) : Entry :=
  {| neg_priority := - new_priority;
     count := count e;
     item := match item e with
             | Live r => Live (set_priority r new_priority)
             | REMOVED => REMOVED
             end |}.

Definition change_priority (q : RequestsPriorityQueue) (h : handle) (new_priority : Z)
    : RequestsPriorityQueue :=
  with_arena q (alter (fun e => change_priority_entry e new_priority) h (arena q)).

Definition handle_is_active (ar : list Entry) (h : handle) : bool :=
  entry_is_active (deref ar h).

Definition iter_active_entries (q : RequestsPriorityQueue) : list handle :=
  filter (fun h => handle_is_active (arena q) h = true) (entries q).

Definition iter_requests (q : RequestsPriorityQueue) : list Request :=
  omap (fun h => match item (deref (arena q) h) with
                 | Live r => Some r
                 | REMOVED => None
                 end) (iter_active_entries q).

Definition next_request (q : RequestsPriorityQueue) : option payload :=
  match entries q with
  | [] => None
  | h :: _ => Some (item (deref (arena q) h))
  end.

(** [while self.entries and self.next_request is self.REMOVED: heappop] *)
Fixpoint _pop_empty_loop (fuel : nat) (q : RequestsPriorityQueue) : RequestsPriorityQueue :=
  match fuel with
  | O => q
  | S fuel' =>
      match next_request q with
      | Some REMOVED =>
          match heapq.heappop (handle_lt (arena q)) (entries q) with
          | Some (_, es) => _pop_empty_loop fuel' (with_entries q es)
          | None => q
          end
      | _ => q
      end
  end.

Definition _pop_empty (q : RequestsPriorityQueue) : RequestsPriorityQueue :=
  _pop_empty_loop (length (entries q)) q.

Definition heapify (q : RequestsPriorityQueue) : RequestsPriorityQueue :=
  _pop_empty (with_entries q (heapq.heapify (handle_lt (arena q)) (entries q))).

Definition update_all_priorities (q : RequestsPriorityQueue)
    (compute_priority_func : list Request -> list Z) : RequestsPriorityQueue :=
  let requests := iter_requests q in
  let new_priorities := compute_priority_func requests in
  heapify
    (fold_left (fun q' '(entry, priority) => change_priority q' entry priority)
       (zip (iter_active_entries q) new_priorities) q).

(** The key of the heap root, as [remove_entry] and [max_priority] read it. *)
Definition root_key (q : RequestsPriorityQueue) : option Z :=
  match entries q with
  | [] => None
  | h :: _ => Some (neg_priority (deref (arena q) h))
  end.

(** [remove_entry(entry)].  A handle that is no entry of this queue's store
    is outside the model: the queue is returned as it is. *)
Definition remove_entry (q : RequestsPriorityQueue) (h : handle)
    : payload * RequestsPriorityQueue :=
  match arena q !! h with
  | None => (REMOVED, q)
  | Some e =>
      let request := item e in
      let max_prio := match root_key q with
                      | None => 0
                      | Some k => - k
                      end in
      (request,
       with_arena q
         (<[h := mkEntry (- (max_prio + REMOVED_PRIORITY)) (count e) REMOVED]> (arena q)))
  end.

Definition max_priority (q : RequestsPriorityQueue) : Z :=
  match entries q with
  | [] => EMPTY_PRIORITY
  | h :: _ => - neg_priority (deref (arena q) h)
  end.

Definition __len__ (q : RequestsPriorityQueue) : nat := length (entries q).

End RequestsPriorityQueue.

(** ** The random module *)

(** [random.random()] and the index that [random.choice] and
    [numpy.random.choice] pick are read from two streams at a cursor; every
    draw moves the cursor on by one. *)
Record Random := mkRandom {
  random : nat -> Q;
  randindex : nat -> nat
}.

(** [random.random()] lies in [[0, 1)]. *)
Definition unit_interval (rnd : Random) : Prop :=
  forall k : nat, (0 <= random rnd k)%Q /\ (random rnd k < 1)%Q.

(** [random.choice(seq)]: an element of [seq] ([None] for the [IndexError] on
    an empty sequence). *)
Definition random_choice {A} (rnd : Random) (k : nat) (seq : list A) : option A :=
  seq !! (randindex rnd k mod length seq)%nat.

Definition Qlt_bool (x y : Q) : bool := negb (Qle_bool y x).

Module RequestsPriorityQueue_random.
Import RequestsPriorityQueue.

(** [for i in range(n_attempts)] of [pop_random]. *)
Fixpoint pop_random_loop (rnd : Random) (n_attempts : nat)
    (q : RequestsPriorityQueue) (k : nat)
    : option Request * RequestsPriorityQueue * nat :=
  match n_attempts with
  | O => (None, q, k)
  | S n' =>
      match random_choice rnd k (entries q) with
      | None => (None, q, S k)
      | Some h =>
          if handle_is_active (arena q) h then
            let '(request, q') := remove_entry q h in
            (match request with
             | Live r => Some r
             | REMOVED => None
             end, q', S k)
          else pop_random_loop rnd n' q (S k)
      end
  end.

Definition pop_random (rnd : Random) (n_attempts : nat)
    (q : RequestsPriorityQueue) (k : nat)
    : option Request * RequestsPriorityQueue * nat :=
  let q := _pop_empty q in
  match entries q with
  | [] => (None, q, k)
  | _ => pop_random_loop rnd n_attempts q k
  end.

End RequestsPriorityQueue_random.

(** ** BalancedPriorityQueue *)

(** The value of [request.meta.get('scheduler_slot')]: [None] when the key is
    absent. *)
Abbreviation slot := (option pyval) (only parsing).

#[global] Instance pyval_eq_dec : EqDecision pyval.
Proof. solve_decision. Defined.

#[global] Instance pyval_countable : Countable pyval.
Proof.
  refine (inj_countable'
    (fun v => match v with PStr s => inl s | PBool b => inr b end)
    (fun x => match x with inl s => PStr s | inr b => PBool b end) _).
  intros []; reflexivity.
Defined.

Inductive exn := QueueClosed.

Inductive result (A : Type) :=
| Ok (a : A)
| Raise (e : exn).
Arguments Ok {A} a.
Arguments Raise {A} e.

(** [closed_slots] is filled by [close_queue(slot: str)] alone, so it is a set
    of strings; [queues] is keyed by whatever [push] read from [meta]. *)
Record BalancedPriorityQueue := mkBalanced {
  queues : gmap slot RequestsPriorityQueue;
  closed_slots : gset string;
  eps : Q;
  queue_factory : slot -> RequestsPriorityQueue;
  balancing_temperature : Q;
  _batch_size : option nat;
  _buffer : list Request
}.

Module BalancedPriorityQueue.

Definition __init__ (queue_factory : slot -> RequestsPriorityQueue) (eps : Q)
    (balancing_temperature : Q) (batch_size : option nat) : BalancedPriorityQueue :=
  {| queues := ∅; closed_slots := ∅; eps := eps; queue_factory := queue_factory;
     balancing_temperature := balancing_temperature; _batch_size := batch_size;
     _buffer := [] |}.

Definition with_queues (s : BalancedPriorityQueue) (qs : gmap slot RequestsPriorityQueue) :=
  {| queues := qs; closed_slots := closed_slots s; eps := eps s;
     queue_factory := queue_factory s;
     balancing_temperature := balancing_temperature s;
     _batch_size := _batch_size s; _buffer := _buffer s |}.

Definition with_buffer (s : BalancedPriorityQueue) (b : list Request) :=
  {| queues := queues s; closed_slots := closed_slots s; eps := eps s;
     queue_factory := queue_factory s;
     balancing_temperature := balancing_temperature s;
     _batch_size := _batch_size s; _buffer := b |}.

Definition scheduler_slot (request : Request) : slot :=
  meta request !! "scheduler_slot"%string.

(** [slot in self.closed_slots] *)
Definition slot_closed (s : BalancedPriorityQueue) (sl : slot) : bool :=
  match sl with
  | Some (PStr d) => bool_decide (d ∈ closed_slots s)
  | _ => false
  end.

(** [push]: the state after the call and whether it raised. *)
Definition push (s : BalancedPriorityQueue) (request : Request)
    : BalancedPriorityQueue * result unit :=
  let sl := scheduler_slot request in
  if slot_closed s sl then (s, Raise QueueClosed)
  else
    let queue := default (queue_factory s sl) (queues s !! sl) in
    (with_queues s (<[sl := (RequestsPriorityQueue.push queue request).2]> (queues s)),
     Ok tt).

Definition batch_size (s : BalancedPriorityQueue) : nat :=
  match _batch_size s with
  | Some n => n
  | None => Nat.min 1000 (Nat.max 1 (size (queues s) / 1000))
  end.

Definition all_slots (s : BalancedPriorityQueue) : list slot :=
  (map_to_list (queues s)).*1.

(** [[q.max_priority() for q in self.queues.values()]]: the weights enter the
    probabilities of the draw only. *)
Definition weights (s : BalancedPriorityQueue) : list Z :=
  RequestsPriorityQueue.max_priority <$> (map_to_list (queues s)).*2.

(** [self.eps or 0.0] *)
Definition eps_or_zero (s : BalancedPriorityQueue) : Q :=
  if Qeq_bool (eps s) 0 then 0%Q else eps s.

(** [numpy.random.choice(all_slots, size=n, replace=True, p=p)]: [n] draws. *)
Definition np_random_choice (rnd : Random) (k : nat) (slots : list slot) (n : nat)
    : list slot :=
  omap (fun i => random_choice rnd (k + i) slots) (seq 0 n).

(** The first loop of [_pop_many]: whether the random policy is taken for a
    sample, and the slot it then reads from. *)
Fixpoint policy_loop (rnd : Random) (eps' : Q) (slots : list slot)
    (chosen : list slot) (k : nat) : list (bool * slot) * nat :=
  match chosen with
  | [] => ([], k)
  | sl :: chosen' =>
      if Qlt_bool (random rnd k) eps' then
        match random_choice rnd (S k) slots with
        | Some sl' =>
            let '(rest, k') := policy_loop rnd eps' slots chosen' (S (S k)) in
            ((true, sl') :: rest, k')
        | None =>
            let '(rest, k') := policy_loop rnd eps' slots chosen' (S (S k)) in
            ((true, sl) :: rest, k')
        end
      else
        let '(rest, k') := policy_loop rnd eps' slots chosen' (S k) in
        ((false, sl) :: rest, k')
  end.

(** The second loop of [_pop_many]: the queues are shared objects, so each
    turn reads the queue of its slot as the turns before left it. *)
Fixpoint fetch_loop (rnd : Random) (plan : list (bool * slot))
    (qs : gmap slot RequestsPriorityQueue) (k : nat)
    : list Request * gmap slot RequestsPriorityQueue * nat :=
  match plan with
  | [] => ([], qs, k)
  | (random_policy, sl) :: plan' =>
      match qs !! sl with
      | None => fetch_loop rnd plan' qs k
      | Some queue =>
          let '(request, queue', k') :=
            if random_policy
            then RequestsPriorityQueue_random.pop_random rnd 10 queue k
            else let '(r, q') := RequestsPriorityQueue.pop queue in (r, q', k) in
          let '(requests, qs', k'') := fetch_loop rnd plan' (<[sl := queue']> qs) k' in
          match request with
          | Some r =>
              (set_meta r "from_random_policy" (PBool random_policy) :: requests, qs', k'')
          | None => (requests, qs', k'')
          end
      end
  end.

Definition _pop_many (rnd : Random) (s : BalancedPriorityQueue) (n : nat) (k : nat)
    : list Request * BalancedPriorityQueue * nat :=
  match all_slots s with
  | [] => ([], s, k)
  | slots =>
      let chosen_slots := np_random_choice rnd k slots n in
      let '(plan, k1) := policy_loop rnd (eps_or_zero s) slots chosen_slots (k + n) in
      let '(requests, qs, k2) := fetch_loop rnd plan (queues s) k1 in
      (requests, with_queues s qs, k2)
  end.

(** [pop]: the buffer is refilled when it is empty and read from its end. *)
Definition pop (rnd : Random) (s : BalancedPriorityQueue) (k : nat)
    : option Request * BalancedPriorityQueue * nat :=
  let '(s1, k1) :=
    match _buffer s with
    | [] => let '(requests, s', k') := _pop_many rnd s (batch_size s) k in
            (with_buffer s' (_buffer s' ++ requests), k')
    | _ => (s, k)
    end in
  match last (_buffer s1) with
  | Some r => (Some r, with_buffer s1 (removelast (_buffer s1)), k1)
  | None => (None, s1, k1)
  end.

Definition get_active_slots (s : BalancedPriorityQueue) : list slot :=
  (filter (fun kq => RequestsPriorityQueue.__len__ kq.2 ≠ 0%nat) (map_to_list (queues s))).*1.

Definition get_queue (s : BalancedPriorityQueue) (sl : slot) : option RequestsPriorityQueue :=
  queues s !! sl.

(** [close_queue(slot: str)]: the new state and the number it returns. *)
Definition close_queue (s : BalancedPriorityQueue) (d : string)
    : BalancedPriorityQueue * nat :=
  let n := match queues s !! Some (PStr d) with
           | Some queue => RequestsPriorityQueue.__len__ queue
           | None => 0%nat
           end in
  ({| queues := delete (Some (PStr d)) (queues s);
      closed_slots := {[d]} ∪ closed_slots s;
      eps := eps s; queue_factory := queue_factory s;
      balancing_temperature := balancing_temperature s;
      _batch_size := _batch_size s; _buffer := _buffer s |}, n).

Definition __len__ (s : BalancedPriorityQueue) : nat :=
  (sum_list (RequestsPriorityQueue.__len__ <$> (map_to_list (queues s)).*2)
   + length (_buffer s))%nat.

End BalancedPriorityQueue.

(** ** Link intake ([deepdeep/links.py]) *)

Module links.

Definition _NEW_IGNORED : list string :=
  ["7z"; "7zip"; "xz"; "gz"; "tar"; "bz2"; "cdr"; "apk"]%string.

(** What the module imports from [urllib] and [scrapy]: [urljoin],
    [url_has_any_extension] and the list [IGNORED_EXTENSIONS].  [url_path]
    is the path of a URL, [parse_url(url).path], which scrapy reads inside
    [url_has_any_extension]; the code of this module does not call it, the
    statements about the path of a URL do. *)
Record Library := mkLibrary {
  urljoin : string -> string -> string;
  url_has_any_extension : string -> gset string -> bool;
  IGNORED_EXTENSIONS : list string;
  url_path : string -> string
}.

Definition _IGNORED (lib : Library) : gset string :=
  set_map (String.append ".")
    (list_to_set (IGNORED_EXTENSIONS lib) ∪ list_to_set _NEW_IGNORED : gset string).

Definition squote : ascii := "'"%char.
Definition dquote : ascii := ascii_of_nat 34.
Definition newline : ascii := ascii_of_nat 10.

Definition is_quote (c : ascii) : bool :=
  Ascii.eqb c squote || Ascii.eqb c dquote.

Fixpoint strip_prefix (p s : string) : option string :=
  match p, s with
  | EmptyString, _ => Some s
  | String a p', String b s' => if Ascii.eqb a b then strip_prefix p' s' else None
  | String _ _, EmptyString => None
  end.

(** The greatest [n] with no newline in the first [n] characters of [s] and a
    quote at index [n]: where the greedy [.+] followed by a quote ends up. *)
Fixpoint last_quote (s : string) : option nat :=
  match s with
  | EmptyString => None
  | String c s' =>
      if Ascii.eqb c newline then None
      else match last_quote s' with
           | Some n => Some (S n)
           | None => if is_quote c then Some 0%nat else None
           end
  end.

(** The group [url], that is [.+], and the quote after it, read at the head
    of [s]. *)
Definition dot_plus_quote (s : string) : option string :=
  match s with
  | EmptyString => None
  | String c s' =>
      if Ascii.eqb c newline then None
      else match last_quote s' with
           | Some n => Some (String c (substring 0 n s'))
           | None => None
           end
  end.

(** [location.href=], a quote, the group [url] and a quote, read at the head
    of [s]. *)
Definition match_location (s : string) : option string :=
  match strip_prefix "location.href=" s with
  | Some (String q t) => if is_quote q then dot_plus_quote t else None
  | _ => None
  end.

(** The whole pattern read at the head of [s]: the optional group is tried
    first, and given up when the rest does not match after it. *)
Definition match_here (s : string) : option string :=
  match strip_prefix "javascript:" s with
  | Some t =>
      match match_location t with
      | Some u => Some u
      | None => match_location s
      end
  | None => match_location s
  end.

(** [js_link_search]: the leftmost position where the pattern matches. *)
Fixpoint js_link_search (s : string) : option string :=
  match match_here s with
  | Some u => Some u
  | None =>
      match s with
      | EmptyString => None
      | String _ s' => js_link_search s'
      end
  end.

Definition extract_js_link (href : string) : option string :=
  js_link_search href.

(** [needle in hay] *)
Fixpoint contains (needle hay : string) : bool :=
  if String.prefix needle hay then true
  else match hay with
       | EmptyString => false
       | String _ hay' => contains needle hay'
       end.

(** A text: a Python [str] as the list of its code points. *)
Abbreviation text := (list N) (only parsing).

(** The text of a string of ASCII characters. *)
Definition text_of (s : string) : text :=
  N_of_ascii <$> list_ascii_of_string s.

(** [str.isspace] of one character, the white space of [str.strip()]: the
    code points U+0009 to U+000D, U+001C to U+0020, U+0085, U+00A0, U+1680,
    U+2000 to U+200A, U+2028, U+2029, U+202F, U+205F and U+3000. *)
Definition isspace (c : N) : bool :=
  ((0x09 <=? c) && (c <=? 0x0D) || (0x1C <=? c) && (c <=? 0x20)
   || (c =? 0x85) || (c =? 0xA0) || (c =? 0x1680)
   || (0x2000 <=? c) && (c <=? 0x200A)
   || (c =? 0x2028) || (c =? 0x2029) || (c =? 0x202F) || (c =? 0x205F)
   || (c =? 0x3000))%N.

Fixpoint lstrip (s : text) : text :=
  match s with
  | c :: s' => if isspace c then lstrip s' else s
  | [] => []
  end.

Fixpoint rstrip (s : text) : text :=
  match s with
  | [] => []
  | c :: s' =>
      match rstrip s' with
      | [] => if isspace c then [] else [c]
      | t => c :: t
      end
  end.

(** [str.strip()] *)
Definition strip (s : text) : text := rstrip (lstrip s).

(** An [<a>] element as the selector shows it: its attributes, the value of
    [normalize-space()] and the values of [./img/@alt]. *)
Record Anchor := mkAnchor {
  attrib : gmap string string;
  normalize_space : text;
  img_alt : list text
}.

(** The link dict; [js] is [None] when the key is absent. *)
Record Link := mkLink {
  js : option bool;
  link_url : string;
  attrs : gmap string string;
  inside_text : text
}.

(** One turn of the loop of [extract_link_dicts]: [None] when the turn ends
    in [continue]. *)
Definition extract_link (lib : Library) (base_url : string) (a : Anchor) : option Link :=
  match attrib a !! "href"%string with
  | None => None
  | Some href =>
      if contains "mailto:" href then None
      else
        let '(href, js) :=
          match extract_js_link href with
          | Some (String c u) => (String c u, Some true)
          | _ => (href, None)
          end in
        let url := urljoin lib base_url href in
        if url_has_any_extension lib url (_IGNORED lib) then None
        else
          let link_text := normalize_space a in
          let img_link_text := hd [] (img_alt a) in
          Some {| js := js; link_url := url; attrs := attrib a;
                  inside_text := strip (link_text ++ text_of " " ++ img_link_text) |}
  end.

Definition extract_link_dicts (lib : Library) (selector : list Anchor) (base_url : string)
    : list Link :=
  omap (extract_link lib base_url) selector.

End links.

(** ** Observations used by the properties *)

Module observe.
Import RequestsPriorityQueue.

(** Repeated [pop] until it returns [None]: the requests in the order
    returned.  [pop] takes at least one entry off the heap when it returns a
    request, so one turn more than there are entries is enough. *)
Fixpoint drain_loop (fuel : nat) (q : RequestsPriorityQueue) : list Request :=
  match fuel with
  | O => []
  | S fuel' =>
      match pop q with
      | (Some r, q') => r :: drain_loop fuel' q'
      | (None, _) => []
      end
  end.

Definition drain (q : RequestsPriorityQueue) : list Request :=
  drain_loop (S (length (entries q))) q.

(** A request with no metadata. *)
Definition request (u : string) (p : Z) : Request :=
  {| url := u; priority := p; meta := ∅ |}.

(** [queue.push(r)] for each [r] of a list, in order. *)
Definition push_all (q : RequestsPriorityQueue) (rs : list Request) : RequestsPriorityQueue :=
  fold_left (fun q' r => (push q' r).2) rs q.

(** [meta['from_random_policy']] is [True]. *)
Definition from_random_policy (r : Request) : Prop :=
  meta r !! "from_random_policy"%string = Some (PBool true).

End observe.

(** ** Predicates used by the statements *)

Module links_props.
Import links.

Fixpoint all_chars (f : ascii -> bool) (s : string) : bool :=
  match s with
  | EmptyString => true
  | String c s' => f c && all_chars f s'
  end.

Definition not_newline (c : ascii) : bool := negb (Ascii.eqb c newline).
Definition not_quote (c : ascii) : bool := negb (is_quote c).

(** The optional head of the pattern. *)
Definition js_prefix (P : string) : Prop :=
  P = ""%string \/ P = "javascript:"%string.

(** The anchor [a] gives a link to [target] with the [js] key as [flag],
    unless the joined URL has an ignored extension. *)
Definition yields (lib : Library) (base_url : string) (a : Anchor)
    (target : string) (flag : option bool) : Prop :=
  let url := urljoin lib base_url target in
  (url_has_any_extension lib url (_IGNORED lib) = true ->
   extract_link lib base_url a = None) /\
  (url_has_any_extension lib url (_IGNORED lib) = false ->
   exists link, extract_link lib base_url a = Some link /\
     js link = flag /\ link_url link = url /\ attrs link = attrib a).

(** The reference that is joined with the base URL: the group [url] when
    the pattern of [extract_js_link] is found in the href, the href itself
    otherwise. *)
Definition target_of (href : string) : string :=
  match extract_js_link href with
  | Some (String c u) => String c u
  | _ => href
  end.

(** [str.lower()] on ASCII characters. *)
Definition lower_char (c : ascii) : ascii :=
  let n := nat_of_ascii c in
  if ((65 <=? n) && (n <=? 90))%nat then ascii_of_nat (n + 32) else c.

Fixpoint lower (s : string) : string :=
  match s with
  | EmptyString => EmptyString
  | String c s' => String (lower_char c) (lower s')
  end.

(** A character of a file extension: an ASCII character that is neither a
    dot nor a slash. *)
Definition extension_char (c : ascii) : bool :=
  (nat_of_ascii c <? 128)%nat && negb (Ascii.eqb c ".") && negb (Ascii.eqb c "/").

(** What [url_has_any_extension] of scrapy does for a URL whose path ends in
    a file name with an extension: the path is a stem that ends in a
    character [c] of the file name, a dot and the extension [e].  Up to
    scrapy 1.x the function is
    [posixpath.splitext(parse_url(url).path)[1].lower() in extensions], and
    [splitext] splits such a path at this dot; from scrapy 2 on it is
    [any(parse_url(url).path.lower().endswith(ext) for ext in extensions)].
    Both hold when the extension in lower case, behind its dot, is one of
    [extensions]. *)
Definition drops_by_extension (lib : Library) : Prop :=
  forall (url : string) (extensions : gset string) (stem : string) (c : ascii) (e : string),
    url_path lib url = (stem ++ String c ("." ++ e))%string ->
    c <> "/"%char -> c <> "."%char ->
    all_chars extension_char e = true ->
    ("." ++ lower e)%string ∈ extensions ->
    url_has_any_extension lib url extensions = true.

Definition no_slash (c : ascii) : bool := negb (Ascii.eqb c "/").
Definition no_dot (c : ascii) : bool := negb (Ascii.eqb c ".").

(** The two forms of the test in scrapy, on the path of the URL.
    [posixpath.splitext(p)[1]]: the part of the last component of the path
    from its last dot on, when a character other than a dot comes before
    that dot in the component, and the empty string otherwise. *)
Fixpoint after_last_slash (p : string) : option string :=
  match p with
  | EmptyString => None
  | String c p' =>
      match after_last_slash p' with
      | Some t => Some t
      | None => if Ascii.eqb c "/" then Some p' else None
      end
  end.

Fixpoint skip_dots (s : string) : string :=
  match s with
  | String c s' => if Ascii.eqb c "." then skip_dots s' else s
  | EmptyString => EmptyString
  end.

Fixpoint from_last_dot (s : string) : option string :=
  match s with
  | EmptyString => None
  | String c s' =>
      match from_last_dot s' with
      | Some t => Some t
      | None => if Ascii.eqb c "." then Some s else None
      end
  end.

Definition splitext_ext (p : string) : string :=
  match skip_dots (default p (after_last_slash p)) with
  | EmptyString => EmptyString
  | String _ rest => default EmptyString (from_last_dot rest)
  end.

Fixpoint ends_with (suffix s : string) : bool :=
  if String.eqb suffix s then true
  else match s with
       | EmptyString => false
       | String _ s' => ends_with suffix s'
       end.

(** [posixpath.splitext(path)[1].lower() in extensions] *)
Definition has_any_extension_1 (path : string) (extensions : gset string) : bool :=
  bool_decide (lower (splitext_ext path) ∈ extensions).

(** [any(path.lower().endswith(ext) for ext in extensions)] *)
Definition has_any_extension_2 (path : string) (extensions : gset string) : bool :=
  existsb (fun ext => ends_with ext (lower path)) (elements extensions).

(** Stand-ins for the library on URLs that carry a scheme of their own.
    For a reference with a scheme other than that of the base, or with the
    same scheme and a host, [urljoin] gives the reference back; the path is
    what follows the host, or the scheme when there is no [//], up to a [?]
    or [#]; the extension test is that of scrapy 2. *)
Fixpoint after_colon (s : string) : option string :=
  match s with
  | EmptyString => None
  | String c s' => if Ascii.eqb c ":" then Some s' else after_colon s'
  end.

Fixpoint from_slash (s : string) : string :=
  match s with
  | EmptyString => EmptyString
  | String c s' => if Ascii.eqb c "/" then s else from_slash s'
  end.

Fixpoint before_query (s : string) : string :=
  match s with
  | EmptyString => EmptyString
  | String c s' =>
      if Ascii.eqb c "?" || Ascii.eqb c "#" then EmptyString
      else String c (before_query s')
  end.

Definition path_of_absolute (url : string) : string :=
  match after_colon url with
  | Some (String "/" (String "/" rest)) => before_query (from_slash rest)
  | Some rest => before_query rest
  | None => before_query url
  end.

Definition lib_absolute : Library :=
  {| urljoin := fun _ u => u;
     url_has_any_extension := fun u exts => has_any_extension_2 (path_of_absolute u) exts;
     IGNORED_EXTENSIONS := ["zip"; "rar"; "pdf"; "exe"; "jpg"; "png"; "gif"; "mp3"]%string;
     url_path := path_of_absolute |}.

End links_props.

Module scheduler_props.

(** [sum(len(q) for q in self.queues.values())] *)
Definition total_len (qs : gmap slot RequestsPriorityQueue) : nat :=
  sum_list (RequestsPriorityQueue.__len__ <$> (map_to_list qs).*2).

(** A factory of empty first-in-first-out queues. *)
Definition fifo_factory (_ : slot) : RequestsPriorityQueue :=
  RequestsPriorityQueue.__init__ true.

(** A request for the slot [d]. *)
Definition request_for (d u : string) (p : Z) : Request :=
  {| url := u; priority := p; meta := {["scheduler_slot"%string := PStr d]} |}.

(** A source of draws: [random.random()] is always [1/2], the index drawn at
    cursor [k] is [k]. *)
Definition rnd_half : Random :=
  {| random := fun _ => (1 # 2)%Q; randindex := fun k => k |}.

(** What the owner of a scheduler does with it: [push], [pop],
    [close_queue], and any change to the queue that [get_queue] hands out. *)
Inductive sched_op :=
| SPush (r : Request)
| SPop
| SCloseQueue (d : string)
| SQueue (sl : slot) (f : RequestsPriorityQueue -> RequestsPriorityQueue).

(** One operation on the scheduler, the cursor of the draws and the list
    of the requests that [pop] has returned so far. *)
Definition sched_step (rnd : Random)
    (st : BalancedPriorityQueue * nat * list Request) (o : sched_op)
    : BalancedPriorityQueue * nat * list Request :=
  let '(s, k, popped) := st in
  match o with
  | SPush r => ((BalancedPriorityQueue.push s r).1, k, popped)
  | SPop =>
      let '(r, s', k') := BalancedPriorityQueue.pop rnd s k in
      (s', k', popped ++ option_list r)
  | SCloseQueue d => ((BalancedPriorityQueue.close_queue s d).1, k, popped)
  | SQueue sl f =>
      (BalancedPriorityQueue.with_queues s (alter f sl (queues s)), k, popped)
  end.

Definition sched_run (rnd : Random) (ops : list sched_op)
    (s : BalancedPriorityQueue) (k : nat)
    : BalancedPriorityQueue * nat * list Request :=
  fold_left (sched_step rnd) ops (s, k, []).

End scheduler_props.

(** ** The heap invariant of heapq *)

Module heap_props.
Section Props.
Context {A : Type} (lt : A -> A -> bool).

Definition parent (c : nat) : nat := ((c - 1) / 2)%nat.

(** The item at [c] is not smaller than the item at the parent of [c]. *)
Definition edge_ok (l : list A) (c : nat) : Prop :=
  forall x p, l !! c = Some x -> l !! parent c = Some p -> lt x p = false.

(** The heap invariant on the positions whose parent is at [s] or after it;
    [heap_from 0] is the invariant of the whole list. *)
Definition heap_from (s : nat) (l : list A) : Prop :=
  forall c, (0 < c)%nat -> (s <= parent c)%nat -> edge_ok l c.

Definition is_heap (l : list A) : Prop := heap_from 0 l.

(** [pos] lies in the subtree rooted at [s]. *)
Inductive descendant (s : nat) : nat -> Prop :=
| descendant_refl : descendant s s
| descendant_child c : (0 < c)%nat -> descendant s (parent c) -> descendant s c.

(** [heappop] until the heap is empty: the items in the order popped. *)
Fixpoint heap_sort_loop (fuel : nat) (l : list A) : list A :=
  match fuel with
  | O => []
  | S fuel' =>
      match heapq.heappop lt l with
      | None => []
      | Some (x, l') => x :: heap_sort_loop fuel' l'
      end
  end.

Definition heap_sort (l : list A) : list A := heap_sort_loop (length l) l.

(** The comparison is a strict weak order. *)
Record strict_weak_order : Prop := {
  lt_irrefl : forall a, lt a a = false;
  lt_asym : forall a b, lt a b = true -> lt b a = false;
  le_trans : forall a b c, lt b a = false -> lt c b = false -> lt c a = false
}.

End Props.
End heap_props.

(** ** Queue states and runs of operations *)

Module queue_props.
Import RequestsPriorityQueue.

(** The request a handle stands for, if its entry is not a tombstone. *)
Definition live_request (ar : list Entry) (h : handle) : option Request :=
  match item (deref ar h) with
  | Live r => Some r
  | REMOVED => None
  end.

(** Every live entry carries the negated priority of its request. *)
Definition keys_consistent (ar : list Entry) : Prop :=
  forall h e r, ar !! h = Some e -> item e = Live r -> neg_priority e = - priority r.

(** The entries form a heap for the order their store gives them. *)
Definition heap_ordered (q : RequestsPriorityQueue) : Prop :=
  heap_props.is_heap (handle_lt (arena q)) (entries q).

(** The operations of a queue in which [heapify] follows every change that
    is made to an entry through its handle. *)
Inductive op :=
| Push (r : Request)
| Pop
| Heapify
| RemoveEntryHeapify (h : handle)
| ChangePriorityHeapify (h : handle) (new_priority : Z)
| UpdateAllPriorities (compute_priority_func : list Request -> list Z).

Definition step_op (q : RequestsPriorityQueue) (o : op) : RequestsPriorityQueue :=
  match o with
  | Push r => (push q r).2
  | Pop => (pop q).2
  | Heapify => heapify q
  | RemoveEntryHeapify h => heapify (remove_entry q h).2
  | ChangePriorityHeapify h p => heapify (change_priority q h p)
  | UpdateAllPriorities f => update_all_priorities q f
  end.

Definition run (ops : list op) (q : RequestsPriorityQueue) : RequestsPriorityQueue :=
  fold_left step_op ops q.

End queue_props.

Module fifo_props.
Import RequestsPriorityQueue.

(** The state of a first-in-first-out queue into which the requests [rs],
    all of priority [p], were pushed and nothing else was done: the store
    holds one live entry per request, numbered in the order of the pushes. *)
Definition fifo_state (p : Z) (rs : list Request) (q : RequestsPriorityQueue) : Prop :=
  arena q = imap (fun i r => mkEntry (- p) (Z.of_nat i) (Live r)) rs /\
  entries q ≡ₚ seq 0 (length rs) /\
  queue_props.heap_ordered q /\
  counter q = Z.of_nat (length rs) /\
  step q = 1.

(** The entries of the store are numbered in the order of the pushes: the
    entry that the push number [h] made has the handle [h] and the sequence
    number [h], and the counter stands at the next number. *)
Definition numbered (q : RequestsPriorityQueue) : Prop :=
  step q = 1 /\
  counter q = Z.of_nat (length (arena q)) /\
  forall h e, arena q !! h = Some e -> count e = Z.of_nat h.

(** Of two live entries, [h1] leaves the queue before [h2]: its request has
    the greater priority, or the same priority and it was pushed first. *)
Definition first_in_first_out (ar : list Entry) (h1 h2 : handle) : Prop :=
  forall r1 r2,
    queue_props.live_request ar h1 = Some r1 ->
    queue_props.live_request ar h2 = Some r2 ->
    priority r2 < priority r1 \/ (priority r1 = priority r2 /\ (h1 < h2)%nat).

End fifo_props.

Module run_props.
Import RequestsPriorityQueue queue_props.

(** The handles of the heap are handles of the store, and the keys of the
    store agree with the requests. *)
Definition well_formed (q : RequestsPriorityQueue) : Prop :=
  (forall h, h ∈ entries q -> (h < length (arena q))%nat) /\
  keys_consistent (arena q).

(** Priorities that do not increase along the list. *)
Definition non_increasing (ps : list Z) : Prop :=
  StronglySorted (fun x y => y <= x) ps.

End run_props.

(** ** Softmax ([deepdeep/utils.py]) *)

Module float_utils.

(** The functions of numpy that [softmax] calls, on float64 arrays:
    [numpy.exp] of one component, [numpy.max] and the [sum] method. *)
Record Numpy := mkNumpy {
  np_exp : float -> float;
  np_max : list float -> float;
  np_sum : list float -> float
}.

(** [softmax(z, t)].  The division of an array by [t] and of an array by
    its sum, and the subtraction of the maximum, are the IEEE 754 operations
    on each component. *)
Definition softmax (np : Numpy) (z : list float) (t : float) : list float :=
  if decide (length z = 0%nat) then []
  else
    let z := (fun x => x / t)%float <$> z in
    let z_exp := (fun x => np_exp np (x - np_max np z)%float) <$> z in
    let s := np_sum np z_exp in
    (fun x => x / s)%float <$> z_exp.








End float_utils.

(** * Further definitions: reachable queue states, the rest of the link
    intake, [deepdeep/utils.py] and [deepdeep/goals.py] *)

(** ** Queue states reached by any operations *)

Module queue_more.
Import RequestsPriorityQueue RequestsPriorityQueue_random queue_props.

(** The handles of the heap are handles of the store and none occurs
    twice; the keys of the store agree with the requests. *)
Definition sound (q : RequestsPriorityQueue) : Prop :=
  (forall h, h ∈ entries q -> (h < length (arena q))%nat) /\
  NoDup (entries q) /\
  keys_consistent (arena q).

(** Every operation of a queue, [heapify] called or not. *)
Inductive any_op :=
| APush (r : Request)
| APop
| AHeapify
| ARemoveEntry (h : handle)
| AChangePriority (h : handle) (new_priority : Z)
| AUpdateAllPriorities (compute_priority_func : list Request -> list Z)
| APopRandom (rnd : Random) (n_attempts : nat) (k : nat).

Definition step_any (q : RequestsPriorityQueue) (o : any_op) : RequestsPriorityQueue :=
  match o with
  | APush r => (push q r).2
  | APop => (pop q).2
  | AHeapify => heapify q
  | ARemoveEntry h => (remove_entry q h).2
  | AChangePriority h p => change_priority q h p
  | AUpdateAllPriorities f => update_all_priorities q f
  | APopRandom rnd n k => (pop_random rnd n q k).1.2
  end.

Definition run_any (ops : list any_op) (q : RequestsPriorityQueue) : RequestsPriorityQueue :=
  fold_left step_any ops q.

(** The number that the counter of a queue has given to the push number
    [i]: [0, 1, 2, ...] for [fifo=True], [0, -1, -2, ...] otherwise. *)
Definition count_of (fifo : bool) (i : nat) : Z :=
  if fifo then Z.of_nat i else - Z.of_nat i.

(** The state of a queue into which the requests [rs] were pushed and
    nothing else was done: the store holds one live entry per request, in
    the order of the pushes. *)
Definition pushed_state (fifo : bool) (rs : list Request) (q : RequestsPriorityQueue)
    : Prop :=
  arena q = imap (fun i r => mkEntry (- priority r) (count_of fifo i) (Live r)) rs /\
  entries q ≡ₚ seq 0 (length rs) /\
  heap_ordered q /\
  counter q = count_of fifo (length rs) /\
  step q = (if fifo then 1 else -1).

(** The order in which two pushed requests, each with the number of its
    push, leave the queue: the greater priority first, and of two equal
    priorities the earlier push first for [fifo=True], the later otherwise. *)
Definition leaves_before (fifo : bool) (a b : nat * Request) : Prop :=
  priority b.2 < priority a.2 \/
  (priority a.2 = priority b.2 /\
   if fifo then (a.1 < b.1)%nat else (b.1 < a.1)%nat).

(** All the changes of [update_all_priorities], made to the store. *)
Definition change_all (ar : list Entry) (changes : list (handle * Z)) : list Entry :=
  fold_left (fun ar' '(h, p) => alter (fun e => change_priority_entry e p) h ar')
    changes ar.

End queue_more.

(** ** The balancing queue as its owner uses it *)

Module scheduler_more.
Import BalancedPriorityQueue scheduler_props.

(** The live requests of all the queues, queue by queue, as [debug_dump]
    walks them. *)
Definition queued (qs : gmap slot RequestsPriorityQueue) : list Request :=
  (map_to_list qs).*2 ≫= RequestsPriorityQueue.iter_requests.

(** A request without the mark that [_pop_many] writes into [meta]. *)
Definition unstamped (r : Request) : Request :=
  {| url := url r; priority := priority r;
     meta := delete "from_random_policy"%string (meta r) |}.

(** [meta['from_random_policy']] is [False]. *)
Definition not_from_random_policy (r : Request) : Prop :=
  meta r !! "from_random_policy"%string = Some (PBool false).

(** One turn of the second loop of [_pop_many]:
    [queue.pop_random() if random_policy else queue.pop()]. *)
Definition fetch_one (rnd : Random) (random_policy : bool)
    (queue : RequestsPriorityQueue) (k : nat)
    : option Request * RequestsPriorityQueue * nat :=
  if random_policy
  then RequestsPriorityQueue_random.pop_random rnd 10 queue k
  else let '(r, q') := RequestsPriorityQueue.pop queue in (r, q', k).

(** The calls of an owner that reaches the queues through the scheduler
    only. *)
Inductive owner_op :=
| OPush (r : Request)
| OPop
| OCloseQueue (d : string).

Definition to_sched (o : owner_op) : sched_op :=
  match o with
  | OPush r => SPush r
  | OPop => SPop
  | OCloseQueue d => SCloseQueue d
  end.

(** The requests given to [push], in order. *)
Definition pushed (ops : list owner_op) : list Request :=
  omap (fun o => match o with OPush r => Some r | _ => None end) ops.

Definition closes (o : owner_op) : bool :=
  match o with OCloseQueue _ => true | _ => false end.

(** A factory of empty queues, first-in-first-out or not by the slot. *)
Definition factory_of (fifo_of : slot -> bool) (sl : slot) : RequestsPriorityQueue :=
  RequestsPriorityQueue.__init__ (fifo_of sl).

End scheduler_more.

Module conservation.
Import BalancedPriorityQueue scheduler_props scheduler_more.

(** What a run of the calls [ops] keeps: the queues are those of the
    factory and sound, and the requests that were pushed are the ones popped
    so far, those in the buffer, those in the queues, and those lost to
    [close_queue] and [QueueClosed]; none is lost while no queue is
    closed. *)
Definition conserved (fifo_of : slot -> bool) (ops : list owner_op)
    (st : BalancedPriorityQueue * nat * list Request) : Prop :=
  queue_factory st.1.1 = factory_of fifo_of /\
  map_Forall (fun _ q => queue_more.sound q) (queues st.1.1) /\
  exists lost : list Request,
    (unstamped <$> (st.2 ++ _buffer st.1.1 ++ queued (queues st.1.1))) ++ lost
      ≡ₚ unstamped <$> pushed ops /\
    (Forall (fun o => closes o = false) ops ->
       lost = [] /\ closed_slots st.1.1 = ∅).

End conservation.

(** ** The rest of the link intake ([deepdeep/links.py]) *)

Module links_more.
Import links.


(** A link dict that [iter_response_link_dicts] yields: the dict of
    [extract_link_dicts] with the keys [domain_to] and [domain_from]. *)
Record DomainLink := mkDomainLink {
  link : Link;
  domain_to : string;
  domain_from : string
}.

(** [link['url']] *)
Definition url (l : DomainLink) : string := link_url (link l).

(** [DictLinkExtractor]: its state is the set [seen_urls]. *)
Record DictLinkExtractor := mkDictLinkExtractor {
  seen_urls : gset string
}.

Definition __init__ : DictLinkExtractor := {| seen_urls := ∅ |}.

(** The generators are run to their end: a function returns the list of
    what its generator yields, and the sets as the run leaves them. *)
Section Intake.
Context (lib : Library).
(** [formasaurus.utils.get_domain] and [scrapy]'s [canonicalize_url]. *)
Context (get_domain : string -> string) (canonicalize_url : string -> string).


(** [for idx, link in enumerate(links)] of [deduplicate_links_enumerated],
    from the index [idx] on. *)
Fixpoint dedup_loop {L} (url_of : L -> string) (seen_urls : gset string) (idx : nat)
    (links : list L) : list (nat * L) * gset string :=
  match links with
  | [] => ([], seen_urls)
  | link :: links' =>
      let canonical := canonicalize_url (url_of link) in
      if decide (canonical ∈ seen_urls) then dedup_loop url_of seen_urls (S idx) links'
      else
        let '(rest, seen') := dedup_loop url_of ({[canonical]} ∪ seen_urls) (S idx) links' in
        ((idx, link) :: rest, seen')
  end.

(** [deduplicate_links_enumerated]: what it yields, the extractor, and the
    set that was passed as [seen_urls] ([None] when none was), both as the
    run leaves them. *)
Definition deduplicate_links_enumerated {L} (url_of : L -> string)
    (self : DictLinkExtractor) (links : list L) (seen_urls_arg : option (gset string))
    : list (nat * L) * DictLinkExtractor * option (gset string) :=
  match seen_urls_arg with
  | None =>
      let '(out, seen') := dedup_loop url_of (seen_urls self) 0 links in
      (out, {| seen_urls := seen' |}, None)
  | Some seen =>
      let '(out, seen') := dedup_loop url_of seen 0 links in
      (out, self, Some seen')
  end.



End Intake.

(** The first and the last character of a text are not white space. *)
Definition trimmed (s : text) : Prop :=
  match s with
  | [] => True
  | c :: s' => isspace c = false /\ isspace (List.last s' c) = false
  end.

End links_more.

(** ** Helpers ([deepdeep/utils.py]) *)

Module utils.

(** [dict_aggregate_max], given the dicts as a list, for integer values.  The
    result does not depend on the order in which [dct.items()] walks a dict. *)
Definition dict_aggregate_max `{Countable K} (dicts : list (gmap K Z)) : gmap K Z :=
  fold_left
    (fun res dct =>
       fold_left
         (fun res '(key, value) => <[key := Z.max (default value (res !! key)) value]> res)
         (map_to_list dct) res)
    dicts ∅.

(** [decreasing_priority_iter(N)]: the value it yields at the turn [idx],
    [None] for the [ZeroDivisionError] of [idx // 0]. *)
Definition decreasing_priority_iter (N : Z) (idx : nat) : option Z :=
  if N =? 0 then None else Some (- (Z.of_nat idx / N)).

(** [max(a, b)] on floats, which are compared only: [b] when [a < b]. *)
Definition max (a b : Q) : Q := if Qlt_bool a b then b else a.

(** [MaxScores]: [scores] is a [defaultdict] whose missing keys read as
    [default]. *)
Record MaxScores (K : Type) `{Countable K} := mkMaxScores {
  default_score : Q;
  scores : gmap K Q
}.
Arguments mkMaxScores {K _ _} _ _.
Arguments default_score {K _ _} _.
Arguments scores {K _ _} _.

Module MaxScores.
Section MaxScores.
Context `{Countable K}.

Definition __init__ (default : Q) : MaxScores K :=
  {| default_score := default; scores := ∅ |}.

(** [self.scores[key] = max(self.scores[key], value)]: reading a missing key
    of the [defaultdict] gives [default]. *)
Definition update (s : MaxScores K) (key : K) (value : Q) : MaxScores K :=
  {| default_score := default_score s;
     scores := <[key := max (default (default_score s) (scores s !! key)) value]> (scores s) |}.

Definition __getitem__ (s : MaxScores K) (key : K) : Q :=
  match scores s !! key with
  | None => default_score s
  | Some v => v
  end.

Definition __len__ (s : MaxScores K) : nat := size (scores s).

End MaxScores.
End MaxScores.

End utils.

(** ** Crawl objectives ([deepdeep/goals.py]) *)

Module goals.

(** A response, as the goals read it: [get_response_domain(response)] and
    the values that the scoring functions give for it. *)
Section Goals.
Context {Response : Type} `{Countable Response}.
Context (get_response_domain : Response -> string).

(** *** RelevancyGoal *)

Record RelevancyGoal := mkRelevancyGoal {
  relevancy : Response -> Q;
  relevancy_threshold : Q;
  max_requests_per_domain : option Z;
  max_relevant_pages_per_domain : option Q;
  request_count : gmap string Z;
  relevant_pages_found : gmap string Z
}.

Definition RelevancyGoal__init__ (relevancy : Response -> Q)
    (max_requests_per_domain : option Z) (max_relevant_pages_per_domain : option Q)
    (relevancy_threshold : Q) : RelevancyGoal :=
  {| relevancy := relevancy; relevancy_threshold := relevancy_threshold;
     max_requests_per_domain := max_requests_per_domain;
     max_relevant_pages_per_domain := max_relevant_pages_per_domain;
     request_count := ∅; relevant_pages_found := ∅ |}.

Definition with_request_count (g : RelevancyGoal) (m : gmap string Z) : RelevancyGoal :=
  {| relevancy := relevancy g; relevancy_threshold := relevancy_threshold g;
     max_requests_per_domain := max_requests_per_domain g;
     max_relevant_pages_per_domain := max_relevant_pages_per_domain g;
     request_count := m; relevant_pages_found := relevant_pages_found g |}.

Definition with_relevant_pages_found (g : RelevancyGoal) (m : gmap string Z)
    : RelevancyGoal :=
  {| relevancy := relevancy g; relevancy_threshold := relevancy_threshold g;
     max_requests_per_domain := max_requests_per_domain g;
     max_relevant_pages_per_domain := max_relevant_pages_per_domain g;
     request_count := request_count g; relevant_pages_found := m |}.

Definition RelevancyGoal_get_reward (g : RelevancyGoal) (response : Response) : Q :=
  relevancy g response.

(** [d[key] += 1] on a [defaultdict(int)]. *)
Definition incr (m : gmap string Z) (key : string) : gmap string Z :=
  <[key := default 0 (m !! key) + 1]> m.

(** [d[key]] on a [defaultdict(int)]: a missing key is set to 0 by the
    read. *)
Definition read (m : gmap string Z) (key : string) : Z * gmap string Z :=
  match m !! key with
  | Some v => (v, m)
  | None => (0, <[key := 0]> m)
  end.

Definition RelevancyGoal_response_observed (g : RelevancyGoal) (response : Response)
    : RelevancyGoal :=
  let domain := get_response_domain response in
  let g := with_request_count g (incr (request_count g) domain) in
  if Qle_bool (relevancy_threshold g) (relevancy g response)
  then with_relevant_pages_found g (incr (relevant_pages_found g) domain)
  else g.

Definition _max_requests_reached (g : RelevancyGoal) (domain : string)
    : bool * RelevancyGoal :=
  match max_requests_per_domain g with
  | None => (false, g)
  | Some limit =>
      let '(n, m) := read (request_count g) domain in
      (limit <=? n, with_request_count g m)
  end.

Definition _max_relevant_pages_reached (g : RelevancyGoal) (domain : string)
    : bool * RelevancyGoal :=
  match max_relevant_pages_per_domain g with
  | None => (false, g)
  | Some limit =>
      let '(n, m) := read (relevant_pages_found g) domain in
      (Qle_bool limit (inject_Z n), with_relevant_pages_found g m)
  end.

(** [a or b]: [b] is evaluated when [a] is false. *)
Definition RelevancyGoal_is_acheived_for (g : RelevancyGoal) (domain : string)
    : bool * RelevancyGoal :=
  let '(a, g) := _max_requests_reached g domain in
  if a then (true, g) else _max_relevant_pages_reached g domain.

(** What the spider does with a goal. *)
Inductive goal_op :=
| Observe (response : Response)
| Ask (domain : string).

Definition observed (ops : list goal_op) : list Response :=
  omap (fun o => match o with Observe r => Some r | Ask _ => None end) ops.

Definition RelevancyGoal_step (g : RelevancyGoal) (o : goal_op) : RelevancyGoal :=
  match o with
  | Observe r => RelevancyGoal_response_observed g r
  | Ask d => (RelevancyGoal_is_acheived_for g d).2
  end.

(** The number of the responses of a domain that satisfy [P]. *)
Definition count_for (P : Response -> bool) (domain : string) (rs : list Response) : Z :=
  Z.of_nat (length (filter (fun r => get_response_domain r = domain /\ P r = true) rs)).

(** *** FormasaurusGoal *)

(** [response_max_scores(response)] and [hasattr(response, 'text')] are
    given with the goal; [_cache] is keyed by the response. *)
Record FormasaurusGoal := mkFormasaurusGoal {
  response_max_scores : Response -> gmap string Q;
  has_text : Response -> bool;
  formtype : string;
  threshold : Q;
  _cache : gmap Response Q;
  _domain_scores : utils.MaxScores string
}.

Definition FormasaurusGoal__init__ (response_max_scores : Response -> gmap string Q)
    (has_text : Response -> bool) (formtype : string) (threshold : Q) : FormasaurusGoal :=
  {| response_max_scores := response_max_scores; has_text := has_text;
     formtype := formtype; threshold := threshold;
     _cache := ∅; _domain_scores := utils.MaxScores.__init__ 0 |}.

(** The score that [get_reward] computes when the cache has none. *)
Definition score_of (g : FormasaurusGoal) (response : Response) : Q :=
  if has_text g response
  then default 0%Q (response_max_scores g response !! formtype g)
  else 0%Q.

Definition FormasaurusGoal_get_reward (g : FormasaurusGoal) (response : Response)
    : Q * FormasaurusGoal :=
  match _cache g !! response with
  | Some score => (score, g)
  | None =>
      let score := score_of g response in
      (score,
       {| response_max_scores := response_max_scores g; has_text := has_text g;
          formtype := formtype g; threshold := threshold g;
          _cache := <[response := score]> (_cache g);
          _domain_scores := _domain_scores g |})
  end.

Definition FormasaurusGoal_response_observed (g : FormasaurusGoal) (response : Response)
    : FormasaurusGoal :=
  let '(reward, g) := FormasaurusGoal_get_reward g response in
  let domain := get_response_domain response in
  {| response_max_scores := response_max_scores g; has_text := has_text g;
     formtype := formtype g; threshold := threshold g;
     _cache := _cache g;
     _domain_scores := utils.MaxScores.update (_domain_scores g) domain reward |}.

Definition FormasaurusGoal_is_acheived_for (g : FormasaurusGoal) (domain : string) : bool :=
  let score := utils.MaxScores.__getitem__ (_domain_scores g) domain in
  Qlt_bool (threshold g) score.

(** [get_reward] may be called at any time; it fills the cache. *)
Inductive formasaurus_op :=
| FObserve (response : Response)
| FReward (response : Response).

Definition FormasaurusGoal_step (g : FormasaurusGoal) (o : formasaurus_op)
    : FormasaurusGoal :=
  match o with
  | FObserve r => FormasaurusGoal_response_observed g r
  | FReward r => (FormasaurusGoal_get_reward g r).2
  end.

Definition fobserved (ops : list formasaurus_op) : list Response :=
  omap (fun o => match o with FObserve r => Some r | FReward _ => None end) ops.

End Goals.

Arguments RelevancyGoal Response : clear implicits.
Arguments goal_op Response : clear implicits.
Arguments FormasaurusGoal Response {_ _}.
Arguments formasaurus_op Response : clear implicits.

End goals.

(** * Request objects that several entries share

    [push] stores the Request object it is given, not a copy of it, and
    [change_priority] writes [entry[2].priority] on that object.  When one
    Request object was pushed twice, two entries hold it, and what is
    written through one of them is read through the other.  Here the queue
    is embedded with the Request objects in a store of their own: an entry
    holds a reference to a Request object, and every method is transcribed
    over the two stores.  The embedding above, in which an entry carries its
    request, is the [view] of this one that puts the state of the object in
    the place of every reference.  The priority of a Request object is
    written by [change_priority] only: a caller that assigns
    [request.priority] itself is outside the model. *)

Module shared.

(** A reference to a Request object. *)
Abbreviation ref := nat (only parsing).

(** An entry [[neg_priority, count, request]]: the third item refers to a
    Request object, or is [None] for [REMOVED]. *)
Record RefEntry := mkRefEntry {
  ref_neg_priority : Z;
  ref_count : Z;
  ref_item : option ref
}.

(** The Request objects of the program, each with its state, and a queue. *)
Record SharedQueue := mkSharedQueue {
  objects : ref -> Request;
  ref_arena : list RefEntry;
  ref_entries : list handle;
  ref_counter : Z;
  ref_step : Z
}.

Definition entry_lt (a b : RefEntry) : bool :=
  (ref_neg_priority a <? ref_neg_priority b)
  || ((ref_neg_priority a =? ref_neg_priority b) && (ref_count a <? ref_count b)).

Definition __init__ (objs : ref -> Request) (fifo : bool) : SharedQueue :=
  {| objects := objs; ref_arena := []; ref_entries := []; ref_counter := 0;
     ref_step := if fifo then 1 else -1 |}.

Definition deref (ar : list RefEntry) (h : handle) : RefEntry :=
  default (mkRefEntry 0 0 None) (ar !! h).

Definition handle_lt (ar : list RefEntry) (h1 h2 : handle) : bool :=
  entry_lt (deref ar h1) (deref ar h2).

Definition with_entries (x : SharedQueue) (es : list handle) : SharedQueue :=
  {| objects := objects x; ref_arena := ref_arena x; ref_entries := es;
     ref_counter := ref_counter x; ref_step := ref_step x |}.

(** [push(request)], where [request] refers to a Request object: the key is
    read from the object, the reference is stored. *)
Definition push (x : SharedQueue) (request : ref) : handle * SharedQueue :=
  let count := ref_counter x in
  let entry := mkRefEntry (- priority (objects x request)) count (Some request) in
  let h := length (ref_arena x) in
  let ar := ref_arena x ++ [entry] in
  (h, {| objects := objects x;
         ref_arena := ar;
         ref_entries := heapq.heappush (handle_lt ar) (ref_entries x) h;
         ref_counter := ref_counter x + ref_step x;
         ref_step := ref_step x |}).

Fixpoint pop_loop (fuel : nat) (x : SharedQueue) : option ref * SharedQueue :=
  match fuel with
  | O => (None, x)
  | S fuel' =>
      match heapq.heappop (handle_lt (ref_arena x)) (ref_entries x) with
      | None => (None, x)
      | Some (h, es) =>
          let x' := with_entries x es in
          match ref_item (deref (ref_arena x) h) with
          | Some request => (Some request, x')
          | None => pop_loop fuel' x'
          end
      end
  end.

Definition pop (x : SharedQueue) : option ref * SharedQueue :=
  pop_loop (length (ref_entries x)) x.

(** The objects after a write to the object [o]. *)
Definition written (objs : ref -> Request) (o : ref) (r : Request) : ref -> Request :=
  fun o' => if decide (o' = o) then r else objs o'.

Definition entry_is_active (e : RefEntry) : bool :=
  match ref_item e with
  | None => false
  | Some _ => true
  end.

(** [change_priority(entry, new_priority)]: [entry[0] = -new_priority], and
    [entry[2].priority = new_priority] on the Request object that the entry
    holds.  An entry that is none of this queue is outside the model. *)
Definition change_priority (x : SharedQueue) (h : handle) (new_priority : Z)
    : SharedQueue :=
  match ref_arena x !! h with
  | None => x
  | Some e =>
      {| objects :=
           match ref_item e with
           | Some o => written (objects x) o (set_priority (objects x o) new_priority)
           | None => objects x
           end;
         ref_arena :=
           <[h := mkRefEntry (- new_priority) (ref_count e) (ref_item e)]> (ref_arena x);
         ref_entries := ref_entries x;
         ref_counter := ref_counter x;
         ref_step := ref_step x |}
  end.

Definition handle_is_active (ar : list RefEntry) (h : handle) : bool :=
  entry_is_active (deref ar h).

Definition iter_active_entries (x : SharedQueue) : list handle :=
  filter (fun h => handle_is_active (ref_arena x) h = true) (ref_entries x).

(** [iter_requests]: the Request objects, as references. *)
Definition iter_requests (x : SharedQueue) : list ref :=
  omap (fun h => ref_item (deref (ref_arena x) h)) (iter_active_entries x).

Definition next_request (x : SharedQueue) : option (option ref) :=
  match ref_entries x with
  | [] => None
  | h :: _ => Some (ref_item (deref (ref_arena x) h))
  end.

Fixpoint _pop_empty_loop (fuel : nat) (x : SharedQueue) : SharedQueue :=
  match fuel with
  | O => x
  | S fuel' =>
      match next_request x with
      | Some None =>
          match heapq.heappop (handle_lt (ref_arena x)) (ref_entries x) with
          | Some (_, es) => _pop_empty_loop fuel' (with_entries x es)
          | None => x
          end
      | _ => x
      end
  end.

Definition _pop_empty (x : SharedQueue) : SharedQueue :=
  _pop_empty_loop (length (ref_entries x)) x.

Definition heapify (x : SharedQueue) : SharedQueue :=
  _pop_empty (with_entries x (heapq.heapify (handle_lt (ref_arena x)) (ref_entries x))).

(** [update_all_priorities]: the function is given the Request objects, which
    it reads in their present state. *)
Definition update_all_priorities (x : SharedQueue)
    (compute_priority_func : list Request -> list Z) : SharedQueue :=
  let requests := iter_requests x in
  let new_priorities := compute_priority_func (objects x <$> requests) in
  heapify
    (fold_left (fun x' '(entry, priority) => change_priority x' entry priority)
       (zip (iter_active_entries x) new_priorities) x).

Definition root_key (x : SharedQueue) : option Z :=
  match ref_entries x with
  | [] => None
  | h :: _ => Some (ref_neg_priority (deref (ref_arena x) h))
  end.

Definition remove_entry (x : SharedQueue) (h : handle) : option ref * SharedQueue :=
  match ref_arena x !! h with
  | None => (None, x)
  | Some e =>
      let request := ref_item e in
      let max_prio := match root_key x with
                      | None => 0
                      | Some k => - k
                      end in
      (request,
       {| objects := objects x;
          ref_arena :=
            <[h := mkRefEntry (- (max_prio + RequestsPriorityQueue.REMOVED_PRIORITY))
                     (ref_count e) None]> (ref_arena x);
          ref_entries := ref_entries x;
          ref_counter := ref_counter x;
          ref_step := ref_step x |})
  end.

Fixpoint pop_random_loop (rnd : Random) (n_attempts : nat) (x : SharedQueue) (k : nat)
    : option ref * SharedQueue * nat :=
  match n_attempts with
  | O => (None, x, k)
  | S n' =>
      match random_choice rnd k (ref_entries x) with
      | None => (None, x, S k)
      | Some h =>
          if handle_is_active (ref_arena x) h then
            let '(request, x') := remove_entry x h in (request, x', S k)
          else pop_random_loop rnd n' x (S k)
      end
  end.

Definition pop_random (rnd : Random) (n_attempts : nat) (x : SharedQueue) (k : nat)
    : option ref * SharedQueue * nat :=
  let x := _pop_empty x in
  match ref_entries x with
  | [] => (None, x, k)
  | _ => pop_random_loop rnd n_attempts x k
  end.

Definition max_priority (x : SharedQueue) : Z :=
  match ref_entries x with
  | [] => RequestsPriorityQueue.EMPTY_PRIORITY
  | h :: _ => - ref_neg_priority (deref (ref_arena x) h)
  end.

Definition __len__ (x : SharedQueue) : nat := length (ref_entries x).

(** Every operation of a queue, [heapify] called or not. *)
Inductive any_op :=
| RPush (request : ref)
| RPop
| RHeapify
| RRemoveEntry (h : handle)
| RChangePriority (h : handle) (new_priority : Z)
| RUpdateAllPriorities (compute_priority_func : list Request -> list Z)
| RPopRandom (rnd : Random) (n_attempts : nat) (k : nat).

Definition step_any (x : SharedQueue) (o : any_op) : SharedQueue :=
  match o with
  | RPush r => (push x r).2
  | RPop => (pop x).2
  | RHeapify => heapify x
  | RRemoveEntry h => (remove_entry x h).2
  | RChangePriority h p => change_priority x h p
  | RUpdateAllPriorities f => update_all_priorities x f
  | RPopRandom rnd n k => (pop_random rnd n x k).1.2
  end.

Definition run_any (ops : list any_op) (x : SharedQueue) : SharedQueue :=
  fold_left step_any ops x.

(** The operations in which [heapify] follows every change that is made to
    an entry through its handle. *)
Inductive op :=
| KPush (request : ref)
| KPop
| KHeapify
| KRemoveEntryHeapify (h : handle)
| KChangePriorityHeapify (h : handle) (new_priority : Z)
| KUpdateAllPriorities (compute_priority_func : list Request -> list Z).

Definition step_op (x : SharedQueue) (o : op) : SharedQueue :=
  match o with
  | KPush r => (push x r).2
  | KPop => (pop x).2
  | KHeapify => heapify x
  | KRemoveEntryHeapify h => heapify (remove_entry x h).2
  | KChangePriorityHeapify h p => heapify (change_priority x h p)
  | KUpdateAllPriorities f => update_all_priorities x f
  end.

Definition run (ops : list op) (x : SharedQueue) : SharedQueue :=
  fold_left step_op ops x.

(** The Request objects that a run pushes, in the order of the pushes. *)
Definition pushed (ops : list any_op) : list ref :=
  omap (fun o => match o with RPush r => Some r | _ => None end) ops.

Definition pushes (ops : list op) : list ref :=
  omap (fun o => match o with KPush r => Some r | _ => None end) ops.

(** The queue with the state of the object in the place of every
    reference. *)
Definition view_entry (objs : ref -> Request) (e : RefEntry) : Entry :=
  mkEntry (ref_neg_priority e) (ref_count e)
    match ref_item e with
    | Some o => Live (objs o)
    | None => REMOVED
    end.

Definition view (x : SharedQueue) : RequestsPriorityQueue :=
  {| arena := view_entry (objects x) <$> ref_arena x;
     entries := ref_entries x;
     counter := ref_counter x;
     step := ref_step x |}.

(** No Request object is held by two entries. *)
Definition unshared (x : SharedQueue) : Prop :=
  forall h h' e e' o,
    ref_arena x !! h = Some e -> ref_arena x !! h' = Some e' ->
    ref_item e = Some o -> ref_item e' = Some o -> h = h'.

(** Every entry that holds a Request object has the negated priority of
    the object as its key. *)
Definition keys_consistent (x : SharedQueue) : Prop :=
  forall h e o,
    ref_arena x !! h = Some e -> ref_item e = Some o ->
    ref_neg_priority e = - priority (objects x o).

(** The Request objects of the examples: the object [o] has the URL [u]
    and the priority [p] when [(u, p)] is at the place [o] of the list. *)
Definition objects_of (l : list (string * Z)) (o : ref) : Request :=
  match l !! o with
  | Some (u, p) => observe.request u p
  | None => observe.request "" 0
  end.

End shared.

(** ** Predicates on queues of Request objects *)

Module shared_props.
Import queue_props queue_more shared.

(** Every entry of [x'] holds what it holds in [x], or nothing. *)
Definition holds_less (x x' : SharedQueue) : Prop :=
  length (ref_arena x') = length (ref_arena x) /\
  forall h e', ref_arena x' !! h = Some e' ->
    ref_item e' = None \/
    exists e, ref_arena x !! h = Some e /\ ref_item e' = ref_item e.

(** The Request object that an entry holds. *)
Definition held (x : SharedQueue) (h : nat) : option nat :=
  ref_item (deref (ref_arena x) h).

(** The entries hold objects of [P] only. *)
Definition held_in (x : SharedQueue) (P : list nat) : Prop :=
  forall h e o, ref_arena x !! h = Some e -> ref_item e = Some o -> o ∈ P.

(** The handles of the heap are handles of the store and none occurs
    twice. *)
Definition structural (x : SharedQueue) : Prop :=
  (forall h, h ∈ ref_entries x -> (h < length (ref_arena x))%nat) /\
  NoDup (ref_entries x).

(** The operation on requests that an operation on Request objects is, in
    the present state of the objects. *)
Definition as_any_op (x : SharedQueue) (o : any_op) : queue_more.any_op :=
  match o with
  | RPush r => APush (objects x r)
  | RPop => APop
  | RHeapify => AHeapify
  | RRemoveEntry h => ARemoveEntry h
  | RChangePriority h p => AChangePriority h p
  | RUpdateAllPriorities f => AUpdateAllPriorities f
  | RPopRandom rnd n k => APopRandom rnd n k
  end.

(** The same for the operations in which [heapify] follows every change. *)
Definition as_op (x : SharedQueue) (o : op) : queue_props.op :=
  match o with
  | KPush r => Push (objects x r)
  | KPop => Pop
  | KHeapify => Heapify
  | KRemoveEntryHeapify h => RemoveEntryHeapify h
  | KChangePriorityHeapify h p => ChangePriorityHeapify h p
  | KUpdateAllPriorities f => UpdateAllPriorities f
  end.

End shared_props.

(** * Properties *)

(** ** heapq keeps the length *)

Module heapq_length.
Section Facts.
Context {A : Type} (lt : A -> A -> bool).

Lemma siftdown_loop_length fuel heap x sp pos :
  length (heapq.siftdown_loop lt fuel heap x sp pos) = length heap.
Proof.
  revert heap pos. induction fuel as [|fuel IH]; intros heap pos; simpl.
  - by rewrite length_insert.
  - repeat case_match; rewrite ?IH, ?length_insert; done.
Qed.

Lemma _siftdown_length heap sp pos :
  length (heapq._siftdown lt heap sp pos) = length heap.
Proof. unfold heapq._siftdown. case_match; [apply siftdown_loop_length | done]. Qed.

Lemma heappush_length heap x :
  length (heapq.heappush lt heap x) = S (length heap).
Proof.
  unfold heapq.heappush. rewrite _siftdown_length, length_app. simpl. lia.
Qed.

Lemma siftup_loop_length fuel heap pos :
  length (heapq.siftup_loop lt fuel heap pos).1 = length heap.
Proof.
  revert heap pos. induction fuel as [|fuel IH]; intros heap pos; [done|].
  cbn [heapq.siftup_loop]. repeat case_match; rewrite ?IH, ?length_insert; done.
Qed.

Lemma _siftup_length heap pos : length (heapq._siftup lt heap pos) = length heap.
Proof.
  unfold heapq._siftup. destruct (heap !! pos); [|done].
  pose proof (siftup_loop_length (length heap - pos) heap pos) as H.
  destruct (heapq.siftup_loop lt (length heap - pos) heap pos) as [h' leaf].
  simpl in H. rewrite _siftdown_length, length_insert. done.
Qed.

Lemma heappop_length heap x heap' :
  heapq.heappop lt heap = Some (x, heap') -> length heap = S (length heap').
Proof.
  unfold heapq.heappop. destruct (last heap) as [lastelt|] eqn:El; [|done].
  apply last_Some in El as [l' ->]. rewrite removelast_last, length_app. simpl.
  destruct l' as [|r t]; intros [= <- <-].
  - done.
  - rewrite _siftup_length. simpl. lia.
Qed.

Lemma heappop_nil : heapq.heappop lt [] = None.
Proof. done. Qed.

End Facts.
End heapq_length.


(** ** heapq keeps the heap invariant *)

Module heap_facts.
Import heap_props.

Lemma parent_lt c : (0 < c)%nat -> (parent c < c)%nat.
Proof. unfold parent. intros. apply Nat.Div0.div_lt_upper_bound. lia. Qed.

Lemma parent_left p : parent (2 * p + 1) = p.
Proof. unfold parent. replace (2 * p + 1 - 1)%nat with (p * 2)%nat by lia. by apply Nat.div_mul. Qed.

Lemma parent_right p : parent (2 * p + 1 + 1) = p.
Proof.
  unfold parent. replace (2 * p + 1 + 1 - 1)%nat with (1 + p * 2)%nat by lia.
  rewrite Nat.div_add by done. done.
Qed.

Lemma parent_children c p : (0 < c)%nat -> parent c = p -> c = (2 * p + 1)%nat \/ c = (2 * p + 1 + 1)%nat.
Proof.
  unfold parent. intros Hc <-.
  pose proof (Nat.div_mod_eq (c - 1) 2) as H.
  pose proof (Nat.mod_upper_bound (c - 1) 2). lia.
Qed.


Lemma descendant_le s pos : descendant s pos -> (s <= pos)%nat.
Proof.
  induction 1 as [|c Hc _ IH]; [done|]. pose proof (parent_lt c Hc). lia.
Qed.

Lemma descendant_parent s pos :
  descendant s pos -> (s < pos)%nat -> descendant s (parent pos) /\ (s <= parent pos)%nat.
Proof.
  intros H Hlt. destruct H as [|c Hc H]; [lia|].
  split; [done | by apply descendant_le].
Qed.

Lemma descendant_root pos : descendant 0 pos.
Proof.
  induction (lt_wf pos) as [pos _ IH].
  destruct pos as [|pos]; [constructor|].
  constructor; [lia|]. apply IH, parent_lt. lia.
Qed.

Ltac lookup_insert :=
  repeat first
    [ rewrite list_lookup_insert_eq by (rewrite ?length_insert; lia)
    | rewrite list_lookup_insert_ne by lia ].

Ltac lookup_insert_in H :=
  repeat first
    [ rewrite list_lookup_insert_eq in H by (rewrite ?length_insert; lia)
    | rewrite list_lookup_insert_ne in H by lia ].

Section Order.
Context {A : Type} (lt : A -> A -> bool) (Hlt : strict_weak_order lt).

Lemma siftdown_loop_perm fuel heap x s pos :
  (pos < length heap)%nat ->
  heapq.siftdown_loop lt fuel heap x s pos ≡ₚ <[pos := x]> heap.
Proof.
  revert heap pos. induction fuel as [|fuel IH]; intros heap pos Hpos;
    cbn [heapq.siftdown_loop]; [done|].
  destruct (decide (s < pos)%nat) as [Hs|Hs]; [|done].
  fold (parent pos). pose proof (parent_lt pos ltac:(lia)) as Hp.
  destruct (heap !! parent pos) as [p|] eqn:Ep; [|done].
  destruct (lt x p); [|done].
  rewrite IH by (rewrite length_insert; lia).
  rewrite <- (list_insert_insert_eq heap pos p x).
  apply Permutation_insert_swap; by lookup_insert.
Qed.

Lemma siftdown_loop_heap fuel heap x s pos :
  (pos <= fuel)%nat -> (pos < length heap)%nat -> descendant s pos ->
  (forall c, (0 < c)%nat -> (s <= parent c)%nat -> c <> pos ->
     edge_ok lt (<[pos := x]> heap) c) ->
  (forall c y g, (0 < pos)%nat -> (s <= parent pos)%nat ->
     (0 < c)%nat -> parent c = pos ->
     <[pos := x]> heap !! c = Some y ->
     <[pos := x]> heap !! parent pos = Some g -> lt y g = false) ->
  heap_from lt s (heapq.siftdown_loop lt fuel heap x s pos).
Proof.
  revert heap pos. induction fuel as [|fuel IH]; intros heap pos Hfuel Hpos Hdesc Hedges Hgrand.
  { cbn [heapq.siftdown_loop]. intros c Hc Hsc. apply Hedges; lia. }
  cbn [heapq.siftdown_loop]. fold (parent pos).
  destruct (decide (s < pos)%nat) as [Hs|Hs]; cycle 1.
  { intros c Hc Hsc. apply Hedges; [done..|]. intros ->. pose proof (parent_lt pos Hc). lia. }
  pose proof (parent_lt pos ltac:(lia)) as Hp.
  destruct (descendant_parent s pos Hdesc Hs) as [Hdesc' Hsp].
  destruct (heap !! parent pos) as [p|] eqn:Ep; cycle 1.
  { apply lookup_ge_None in Ep. lia. }
  destruct (lt x p) eqn:Exp; cycle 1.
  { intros c Hc Hsc. destruct (decide (c = pos)) as [->|Hne]; [|by apply Hedges].
    intros x0 p0 Hx0 Hp0. lookup_insert_in Hx0. lookup_insert_in Hp0. by simplify_eq. }
  assert (Hpx : lt p x = false) by (by apply (lt_asym lt Hlt)).
  apply IH; [lia | rewrite length_insert; lia | done | |].
  - intros c Hc Hsc Hcp x0 p0 Hx0 Hp0.
    destruct (decide (c = pos)) as [->|Hne].
    + lookup_insert_in Hx0. lookup_insert_in Hp0. by simplify_eq.
    + lookup_insert_in Hx0.
      destruct (decide (parent c = pos)) as [Hpc|Hpc].
      * rewrite Hpc in Hp0. lookup_insert_in Hp0. simplify_eq.
        apply (Hgrand c x0 p0); [lia | done | done | done | by lookup_insert | by lookup_insert].
      * destruct (decide (parent c = parent pos)) as [Hpp|Hpp].
        -- rewrite Hpp in Hp0. lookup_insert_in Hp0. simplify_eq.
           apply (le_trans lt Hlt _ p); [done|].
           apply (Hedges c Hc Hsc Hne); [by lookup_insert | rewrite Hpp; by lookup_insert].
        -- lookup_insert_in Hp0.
           apply (Hedges c Hc Hsc Hne); by lookup_insert.
  - intros c y g Hpp0 Hspp Hc Hpc Hy Hg.
    pose proof (parent_lt (parent pos) Hpp0) as Hppp.
    lookup_insert_in Hg.
    assert (Hpg : lt p g = false).
    { apply (Hedges (parent pos) Hpp0 Hspp ltac:(lia)); by lookup_insert. }
    destruct (decide (c = pos)) as [->|Hne].
    + lookup_insert_in Hy. by simplify_eq.
    + assert (c <> parent pos) by (pose proof (parent_lt c Hc); lia).
      lookup_insert_in Hy.
      apply (le_trans lt Hlt _ p); [done|].
      apply (Hedges c Hc ltac:(lia) Hne); [by lookup_insert | rewrite Hpc; by lookup_insert].
Qed.


Lemma heap_from_mono s s' l : (s <= s')%nat -> heap_from lt s l -> heap_from lt s' l.
Proof. intros Hs H c Hc Hsc. apply H; lia. Qed.

Lemma _siftdown_perm heap s pos : heapq._siftdown lt heap s pos ≡ₚ heap.
Proof.
  unfold heapq._siftdown. destruct (heap !! pos) as [x|] eqn:E; [|done].
  rewrite siftdown_loop_perm by (by eapply lookup_lt_Some).
  by rewrite list_insert_id.
Qed.

Lemma _siftdown_heap heap s pos :
  (pos < length heap)%nat -> descendant s pos ->
  (forall c, (0 < c)%nat -> (s <= parent c)%nat -> c <> pos -> edge_ok lt heap c) ->
  (forall c y g, (0 < pos)%nat -> (s <= parent pos)%nat ->
     (0 < c)%nat -> parent c = pos ->
     heap !! c = Some y -> heap !! parent pos = Some g -> lt y g = false) ->
  heap_from lt s (heapq._siftdown lt heap s pos).
Proof.
  intros Hpos Hdesc Hedges Hgrand. unfold heapq._siftdown.
  destruct (heap !! pos) as [x|] eqn:E; cycle 1.
  { apply lookup_ge_None in E. lia. }
  apply siftdown_loop_heap; rewrite ?(list_insert_id heap pos x E); done.
Qed.

Lemma heappush_perm heap x : heapq.heappush lt heap x ≡ₚ x :: heap.
Proof.
  unfold heapq.heappush. rewrite _siftdown_perm. by rewrite Permutation_app_comm.
Qed.

Lemma heappush_heap heap x : is_heap lt heap -> is_heap lt (heapq.heappush lt heap x).
Proof.
  intros Hheap. unfold heapq.heappush, is_heap.
  apply _siftdown_heap.
  - rewrite length_app. simpl. lia.
  - apply descendant_root.
  - intros c Hc _ Hne y p Hy Hp.
    destruct (decide (c < length heap)%nat) as [Hlt'|Hge].
    + pose proof (parent_lt c Hc).
      rewrite lookup_app_l in Hy by lia. rewrite lookup_app_l in Hp by lia.
      by apply (Hheap c Hc ltac:(lia)).
    + apply lookup_lt_Some in Hy. rewrite length_app in Hy. simpl in Hy. lia.
  - intros c y g _ _ Hc Hpc Hy _.
    apply lookup_lt_Some in Hy. rewrite length_app in Hy. simpl in Hy.
    destruct (parent_children c _ Hc Hpc); lia.
Qed.

Lemma siftup_loop_spec fuel heap pos s :
  (length heap - pos <= fuel)%nat -> (pos < length heap)%nat -> descendant s pos ->
  heap_from lt (S s) heap -> (pos <> s -> heap_from lt s heap) ->
  exists h' leaf,
    heapq.siftup_loop lt fuel heap pos = (h', leaf) /\
    length h' = length heap /\ (leaf < length heap)%nat /\
    (length heap <= 2 * leaf + 1)%nat /\ descendant s leaf /\
    (forall c, (0 < c)%nat -> (s <= parent c)%nat -> c <> leaf -> edge_ok lt h' c) /\
    (forall x, <[leaf := x]> h' ≡ₚ <[pos := x]> heap).
Proof.
  revert heap pos.
  induction fuel as [|fuel IH]; intros heap pos Hfuel Hpos Hdesc Hfrom Hfull; [lia|].
  cbn [heapq.siftup_loop].
  destruct (decide (2 * pos + 1 < length heap)%nat) as [Hchild|Hleaf]; cycle 1.
  { exists heap, pos. repeat split; [done | lia | done | | done].
    intros c Hc Hsc Hne. destruct (decide (pos = s)) as [->|Hps]; [|by apply Hfull].
    destruct (decide (parent c = s)) as [Hpc|Hpc]; [|apply Hfrom; lia].
    intros y p Hy _. apply lookup_lt_Some in Hy.
    destruct (parent_children c _ Hc Hpc); lia. }
  destruct (heap !! (2 * pos + 1)%nat) as [vl|] eqn:El; cycle 1.
  { apply lookup_ge_None in El. lia. }
  set (cp := match heap !! (2 * pos + 1 + 1)%nat with
             | Some r => if negb (lt vl r) then (2 * pos + 1 + 1)%nat else (2 * pos + 1)%nat
             | None => (2 * pos + 1)%nat
             end).
  assert (Hcp : (cp = 2 * pos + 1 \/ cp = 2 * pos + 1 + 1)%nat /\ (cp < length heap)%nat).
  { subst cp. destruct (heap !! (2 * pos + 1 + 1)%nat) as [vr|] eqn:Er; [|lia].
    apply lookup_lt_Some in Er. destruct (negb (lt vl vr)); lia. }
  destruct Hcp as [Hcp Hcplen].
  assert (Hpcp : parent cp = pos).
  { destruct Hcp as [-> | ->]; [apply parent_left | apply parent_right]. }
  destruct (heap !! cp) as [vc|] eqn:Ec; cycle 1.
  { apply lookup_ge_None in Ec. lia. }
  (* the smaller child is not greater than any child *)
  assert (Hmin : forall c y, (0 < c)%nat -> parent c = pos -> heap !! c = Some y ->
                             lt y vc = false).
  { intros c y Hc Hpc Hy.
    destruct (parent_children c _ Hc Hpc) as [-> | ->]; subst cp.
    - rewrite El in Hy. simplify_eq.
      destruct (heap !! (2 * pos + 1 + 1)%nat) as [vr|] eqn:Er.
      + destruct (lt y vr) eqn:Elr; cbn [negb] in Ec.
        * rewrite El in Ec. simplify_eq. apply (lt_irrefl lt Hlt).
        * rewrite Er in Ec. by simplify_eq.
      + rewrite El in Ec. simplify_eq. apply (lt_irrefl lt Hlt).
    - rewrite Hy in Ec. destruct (lt vl y) eqn:Elr; cbn [negb] in Ec.
      + rewrite El in Ec. simplify_eq. by apply (lt_asym lt Hlt).
      + rewrite Hy in Ec. simplify_eq. apply (lt_irrefl lt Hlt). }
  assert (Hheap' : heap_from lt s (<[pos := vc]> heap)).
  { intros c Hc Hsc y p Hy Hp.
    pose proof (parent_lt c Hc) as Hpl.
    destruct (decide (parent c = pos)) as [Hpc|Hpc].
    - rewrite Hpc in Hp. lookup_insert_in Hp. lookup_insert_in Hy. simplify_eq.
      by apply (Hmin c).
    - lookup_insert_in Hp.
      destruct (decide (c = pos)) as [->|Hne].
      + lookup_insert_in Hy. simplify_eq.
        assert (Hps : pos <> s) by lia.
        destruct (heap !! pos) as [v|] eqn:Ev; cycle 1.
        { apply lookup_ge_None in Ev. lia. }
        apply (le_trans lt Hlt _ v).
        * by apply (Hfull Hps pos Hc Hsc).
        * apply (Hfull Hps cp ltac:(lia) ltac:(lia)); [done | by rewrite Hpcp].
      + lookup_insert_in Hy.
        destruct (decide (pos = s)) as [->|Hps].
        * by apply (Hfrom c Hc ltac:(lia)).
        * by apply (Hfull Hps c Hc Hsc). }
  destruct (IH (<[pos := vc]> heap) cp) as (h' & leaf & Hrun & Hlen & Hleaf & Hbot & Hd & He & Hperm).
  - rewrite length_insert. lia.
  - rewrite length_insert. lia.
  - apply descendant_child; [lia | by rewrite Hpcp].
  - apply (heap_from_mono s); [lia | done].
  - done.
  - exists h', leaf. rewrite length_insert in *. repeat split; try done.
    intros x. rewrite Hperm.
    rewrite <- (list_insert_insert_eq heap pos vc x).
    apply Permutation_insert_swap; [by lookup_insert|].
    rewrite list_lookup_insert_ne by lia. done.
Qed.


Lemma _siftup_spec heap s :
  (s < length heap)%nat -> heap_from lt (S s) heap ->
  heap_from lt s (heapq._siftup lt heap s) /\ heapq._siftup lt heap s ≡ₚ heap.
Proof.
  intros Hs Hfrom. unfold heapq._siftup.
  destruct (heap !! s) as [newitem|] eqn:E; cycle 1.
  { apply lookup_ge_None in E. lia. }
  destruct (siftup_loop_spec (length heap - s) heap s s)
    as (h' & leaf & -> & Hlen & Hleaf & Hbot & Hd & He & Hperm);
    [done | done | constructor | done | done |].
  split.
  - apply _siftdown_heap.
    + rewrite length_insert. lia.
    + done.
    + intros c Hc Hsc Hne y p Hy Hp.
      lookup_insert_in Hy.
      destruct (decide (parent c = leaf)) as [Hpc|Hpc].
      * apply lookup_lt_Some in Hy. destruct (parent_children c _ Hc Hpc); lia.
      * lookup_insert_in Hp. by apply (He c Hc Hsc Hne).
    + intros c y g _ _ Hc Hpc Hy _. apply lookup_lt_Some in Hy.
      rewrite length_insert in Hy. destruct (parent_children c _ Hc Hpc); lia.
  - rewrite _siftdown_perm, Hperm. by rewrite list_insert_id.
Qed.


Lemma heap_from_removelast s l : heap_from lt s l -> heap_from lt s (removelast l).
Proof.
  intros H c Hc Hsc y p Hy Hp.
  destruct l as [|a l] using rev_ind; [done|].
  rewrite removelast_last in Hy, Hp.
  apply (H c Hc Hsc).
  - rewrite lookup_app_l; [done | by eapply lookup_lt_Some].
  - rewrite lookup_app_l; [done | by eapply lookup_lt_Some].
Qed.

Lemma last_removelast (l : list A) x : last l = Some x -> l = removelast l ++ [x].
Proof.
  intros H. apply last_Some in H as [l' ->]. by rewrite removelast_last.
Qed.

Lemma heappop_spec heap x heap' :
  is_heap lt heap -> heapq.heappop lt heap = Some (x, heap') ->
  is_heap lt heap' /\ x :: heap' ≡ₚ heap /\ heap !! 0%nat = Some x.
Proof.
  intros Hheap. unfold heapq.heappop.
  destruct (last heap) as [lastelt|] eqn:El; [|done].
  pose proof (last_removelast heap lastelt El) as Hsplit.
  pose proof (heap_from_removelast 0 heap Hheap) as Hheap'.
  destruct (removelast heap) as [|root t] eqn:Er.
  { intros [= <- <-]. rewrite Hsplit. repeat split; done. }
  intros [= <- <-].
  destruct (_siftup_spec (<[0%nat := lastelt]> (root :: t)) 0) as [H1 H2].
  { simpl. lia. }
  { intros c Hc Hsc y p Hy Hp. pose proof (parent_lt c Hc).
    rewrite list_lookup_insert_ne in Hy by lia.
    rewrite list_lookup_insert_ne in Hp by lia.
    by apply (Hheap' c Hc ltac:(lia)). }
  repeat split; [done | | by rewrite Hsplit].
  rewrite H2, Hsplit. simpl. apply Permutation_skip.
  by rewrite (Permutation_app_comm t [lastelt]).
Qed.

Lemma heappop_None heap : heapq.heappop lt heap = None -> heap = [].
Proof.
  unfold heapq.heappop. destruct (last heap) eqn:E.
  - by destruct (removelast heap).
  - intros _. by apply last_None.
Qed.

Lemma heapify_loop_spec i x :
  (i <= length x)%nat -> heap_from lt i x ->
  is_heap lt (heapq.heapify_loop lt i x) /\ heapq.heapify_loop lt i x ≡ₚ x.
Proof.
  revert x. induction i as [|i IH]; intros x Hi Hfrom; simpl; [done|].
  destruct (_siftup_spec x i) as [H1 H2]; [lia | done |].
  destruct (IH (heapq._siftup lt x i)) as [H3 H4]; [|done|].
  - rewrite (Permutation_length H2). lia.
  - split; [done | by rewrite H4].
Qed.

Lemma heapify_spec x :
  is_heap lt (heapq.heapify lt x) /\ heapq.heapify lt x ≡ₚ x.
Proof.
  unfold heapq.heapify. apply heapify_loop_spec.
  - apply Nat.Div0.div_le_upper_bound. lia.
  - intros c Hc Hsc y p Hy _. apply lookup_lt_Some in Hy.
    unfold parent in Hsc.
    pose proof (Nat.div_mod_eq (length x) 2). pose proof (Nat.mod_upper_bound (length x) 2).
    pose proof (Nat.div_mod_eq (c - 1) 2). pose proof (Nat.mod_upper_bound (c - 1) 2).
    lia.
Qed.

(** The root of a heap is not greater than any item. *)
Lemma heap_root_min heap r :
  is_heap lt heap -> heap !! 0%nat = Some r ->
  forall i y, heap !! i = Some y -> lt y r = false.
Proof.
  intros Hheap Hr i. induction (lt_wf i) as [i _ IH]. intros y Hy.
  destruct (decide (i = 0)%nat) as [->|Hi].
  { simplify_eq. apply (lt_irrefl lt Hlt). }
  pose proof (parent_lt i ltac:(lia)) as Hp.
  destruct (heap !! parent i) as [p|] eqn:Ep; cycle 1.
  { apply lookup_ge_None in Ep. apply lookup_lt_Some in Hy. lia. }
  apply (le_trans lt Hlt _ p).
  - by apply (IH (parent i)).
  - by apply (Hheap i ltac:(lia) ltac:(lia)).
Qed.

Lemma heap_sort_loop_spec fuel heap :
  (length heap <= fuel)%nat -> is_heap lt heap ->
  heap_sort_loop lt fuel heap ≡ₚ heap /\
  StronglySorted (fun a b => lt b a = false) (heap_sort_loop lt fuel heap).
Proof.
  revert heap. induction fuel as [|fuel IH]; intros heap Hfuel Hheap; simpl.
  { destruct heap; [|simpl in Hfuel; lia]. split; [done | constructor]. }
  destruct (heapq.heappop lt heap) as [[x heap']|] eqn:E; cycle 1.
  { apply heappop_None in E as ->. split; [done | constructor]. }
  destruct (heappop_spec heap x heap' Hheap E) as (Hheap' & Hperm & Hroot).
  destruct (IH heap') as [Hp Hs]; [|done|].
  { apply Permutation_length in Hperm. simpl in Hperm. lia. }
  split; [by rewrite Hp|].
  constructor; [done|].
  apply Forall_forall. intros y Hy.
  rewrite Hp in Hy.
  assert (Hy' : y ∈ heap) by (rewrite <- Hperm; by right).
  apply list_elem_of_lookup in Hy' as [i Hi].
  by apply (heap_root_min heap x Hheap Hroot i).
Qed.

Lemma heap_sort_spec heap :
  is_heap lt heap ->
  heap_sort lt heap ≡ₚ heap /\
  StronglySorted (fun a b => lt b a = false) (heap_sort lt heap).
Proof. intros. by apply heap_sort_loop_spec. Qed.

End Order.
End heap_facts.

(** ** Link intake *)

Module links_facts.
Import links links_props.
Open Scope string_scope.

Lemma is_quote_not_newline q : is_quote q = true -> Ascii.eqb q newline = false.
Proof.
  unfold is_quote. intros [H|H]%orb_true_iff; apply Ascii.eqb_eq in H; subst; reflexivity.
Qed.

Lemma last_quote_none T : all_chars not_quote T = true -> last_quote T = None.
Proof.
  induction T as [|c T IH]; simpl; [done|].
  intros [Hc HT]%andb_true_iff. rewrite (IH HT).
  unfold not_quote in Hc. apply negb_true_iff in Hc. rewrite Hc.
  by destruct (Ascii.eqb c newline).
Qed.

(** The greedy [.+] runs to the last quote of the line. *)
Lemma last_quote_app X q T :
  all_chars not_newline X = true -> is_quote q = true -> all_chars not_quote T = true ->
  last_quote (X ++ String q T) = Some (String.length X).
Proof.
  intros HX Hq HT. induction X as [|c X IH]; simpl in *.
  - rewrite (is_quote_not_newline _ Hq), (last_quote_none _ HT), Hq. done.
  - apply andb_true_iff in HX as [Hc HX]. apply negb_true_iff in Hc.
    rewrite Hc, (IH HX). done.
Qed.

Lemma substring_app_l X Y : substring 0 (String.length X) (X ++ Y) = X.
Proof. induction X as [|c X IH]; simpl; [by destruct Y | by rewrite IH]. Qed.

Lemma dot_plus_quote_app X q T :
  X <> "" ->
  all_chars not_newline X = true -> is_quote q = true -> all_chars not_quote T = true ->
  dot_plus_quote (X ++ String q T) = Some X.
Proof.
  intros HX Hnl Hq HT. destruct X as [|c X]; [done|]. simpl in *.
  apply andb_true_iff in Hnl as [Hc Hnl]. apply negb_true_iff in Hc.
  rewrite Hc, (last_quote_app _ _ _ Hnl Hq HT), substring_app_l. done.
Qed.

Lemma js_link_search_here s u : match_here s = Some u -> js_link_search s = Some u.
Proof. intros H. destruct s; [by vm_compute in H | simpl; by rewrite H]. Qed.

(** An href of the form [[javascript:]location.href='X'], with any tail that
    has no quote, gives [X]. *)
Lemma extract_js_link_form P q1 X q2 T :
  js_prefix P -> is_quote q1 = true -> is_quote q2 = true ->
  X <> "" -> all_chars not_newline X = true -> all_chars not_quote T = true ->
  extract_js_link (P ++ "location.href=" ++ String q1 (X ++ String q2 T)) = Some X.
Proof.
  intros HP Hq1 Hq2 HX Hnl HT. unfold extract_js_link.
  apply js_link_search_here.
  assert (Hloc : match_location ("location.href=" ++ String q1 (X ++ String q2 T)) = Some X).
  { unfold match_location. simpl. rewrite Hq1. by apply dot_plus_quote_app. }
  destruct HP as [-> | ->].
  - unfold match_here. simpl strip_prefix. exact Hloc.
  - unfold match_here.
    replace (strip_prefix "javascript:"
               ("javascript:" ++ "location.href=" ++ String q1 (X ++ String q2 T)))
      with (Some ("location.href=" ++ String q1 (X ++ String q2 T))) by reflexivity.
    by rewrite Hloc.
Qed.

Lemma dot_plus_quote_nonempty s u : dot_plus_quote s = Some u -> u <> "".
Proof. destruct s; simpl; [done|]. repeat case_match; congruence. Qed.

Lemma match_here_nonempty s u : match_here s = Some u -> u <> "".
Proof.
  assert (Hl : forall t v, match_location t = Some v -> v <> "").
  { intros t v. unfold match_location. repeat case_match; try done.
    apply dot_plus_quote_nonempty. }
  unfold match_here. repeat case_match; try done; intros; simplify_eq; eauto.
Qed.

(** The group [url] is never empty, so [if js_link] holds whenever the
    pattern matched. *)
Lemma extract_js_link_nonempty s u : extract_js_link s = Some u -> u <> "".
Proof.
  unfold extract_js_link. induction s as [|c s IH]; simpl; [done|].
  destruct (match_here (String c s)) eqn:E; [|done].
  intros; simplify_eq. eapply match_here_nonempty; eauto.
Qed.

Lemma _IGNORED_new (lib : Library) (e : string) :
  e ∈ _NEW_IGNORED -> "." ++ e ∈ _IGNORED lib.
Proof.
  intros He. unfold _IGNORED. apply elem_of_map. exists e. split; [done|].
  apply elem_of_union_r, elem_of_list_to_set, He.
Qed.

Lemma _IGNORED_standard (lib : Library) (e : string) :
  e ∈ IGNORED_EXTENSIONS lib -> "." ++ e ∈ _IGNORED lib.
Proof.
  intros He. unfold _IGNORED. apply elem_of_map. exists e. split; [done|].
  apply elem_of_union_l, elem_of_list_to_set, He.
Qed.

Lemma extract_link_yields lib base_url a href target flag :
  attrib a !! "href" = Some href ->
  contains "mailto:" href = false ->
  match extract_js_link href with
  | Some (String c u) => (String c u, Some true)
  | _ => (href, None)
  end = (target, flag) ->
  yields lib base_url a target flag.
Proof.
  intros Hhref Hmail Hsettle. unfold yields, extract_link.
  rewrite Hhref, Hmail, Hsettle.
  split; intros ->; [done|]. eauto.
Qed.

Lemma lower_app s1 s2 : lower (s1 ++ s2) = lower s1 ++ lower s2.
Proof. induction s1 as [|c s1 IH]; simpl; [done | by rewrite IH]. Qed.

Lemma ends_with_refl s : ends_with s s = true.
Proof. destruct s; simpl; [done|]. by rewrite Ascii.eqb_refl, String.eqb_refl. Qed.

Lemma ends_with_app suffix s t :
  ends_with suffix t = true -> ends_with suffix (s ++ t) = true.
Proof.
  intros Ht. induction s as [|c s IH]; simpl; [done|].
  by destruct (String.eqb suffix (String c (s ++ t))).
Qed.

Lemma all_chars_app f s1 s2 :
  all_chars f (s1 ++ s2) = all_chars f s1 && all_chars f s2.
Proof. induction s1 as [|c s1 IH]; simpl; [done | by rewrite IH, andb_assoc]. Qed.

Lemma after_last_slash_none t : all_chars no_slash t = true -> after_last_slash t = None.
Proof.
  induction t as [|c t IH]; simpl; [done|].
  intros [Hc Ht]%andb_true_iff. rewrite (IH Ht).
  unfold no_slash in Hc. apply negb_true_iff in Hc. by rewrite Hc.
Qed.

(** The last component of a path that ends in a text without a slash. *)
Lemma after_last_slash_app s t :
  all_chars no_slash t = true ->
  exists n, default (s ++ t) (after_last_slash (s ++ t)) = n ++ t.
Proof.
  intros Ht. induction s as [|c s [n IH]].
  - exists "". change ("" ++ t) with t. by rewrite (after_last_slash_none t Ht).
  - change (String c s ++ t) with (String c (s ++ t)). cbn [after_last_slash].
    destruct (after_last_slash (s ++ t)) as [u|] eqn:E.
    + by exists n.
    + destruct (Ascii.eqb c "/"); [by exists s | by exists (String c s)].
Qed.

Lemma from_last_dot_none e : all_chars no_dot e = true -> from_last_dot e = None.
Proof.
  induction e as [|c e IH]; simpl; [done|].
  intros [Hc He]%andb_true_iff. rewrite (IH He).
  unfold no_dot in Hc. apply negb_true_iff in Hc. by rewrite Hc.
Qed.

Lemma from_last_dot_app m e :
  all_chars no_dot e = true -> from_last_dot (m ++ "." ++ e) = Some ("." ++ e).
Proof.
  intros He. change ("." ++ e) with (String "." e).
  induction m as [|c m IH].
  - change ("" ++ String "." e) with (String "." e). cbn [from_last_dot].
    by rewrite (from_last_dot_none e He).
  - change (String c m ++ String "." e) with (String c (m ++ String "." e)).
    cbn [from_last_dot]. by rewrite IH.
Qed.

(** A file name with a character that is no dot before its last dot. *)
Lemma skip_dots_app n c t :
  c <> "."%char ->
  exists d m, skip_dots (n ++ String c t) = String d (m ++ t) /\
    (m = "" \/ exists m', m = m' ++ String c "").
Proof.
  intros Hc. induction n as [|x n IH].
  - change ("" ++ String c t) with (String c t). cbn [skip_dots].
    apply Ascii.eqb_neq in Hc. rewrite Hc. exists c, "". by split; [|left].
  - change (String x n ++ String c t) with (String x (n ++ String c t)).
    cbn [skip_dots].
    destruct (Ascii.eqb x ".") eqn:Ex; [exact IH|].
    exists x, (n ++ String c ""). split; [|right; by exists n].
    f_equal. clear. induction n as [|y n IH]; [done|].
    change (String y n ++ String c t) with (String y (n ++ String c t)).
    change ((String y n ++ String c "") ++ t) with (String y ((n ++ String c "") ++ t)).
    by rewrite IH.
Qed.

Lemma splitext_ext_app stem c e :
  c <> "/"%char -> c <> "."%char ->
  all_chars no_slash e = true -> all_chars no_dot e = true ->
  splitext_ext (stem ++ String c ("." ++ e)) = "." ++ e.
Proof.
  intros Hc1 Hc2 Hs Hd. unfold splitext_ext.
  destruct (after_last_slash_app stem (String c ("." ++ e))) as [n ->].
  { simpl. unfold no_slash at 1. apply Ascii.eqb_neq in Hc1. by rewrite Hc1. }
  destruct (skip_dots_app n c ("." ++ e) Hc2) as (d & m & -> & Hm).
  by rewrite from_last_dot_app.
Qed.

Lemma extension_chars e :
  all_chars extension_char e = true ->
  all_chars no_slash e = true /\ all_chars no_dot e = true.
Proof.
  induction e as [|c e IH]; simpl; [done|].
  intros [Hc He]%andb_true_iff. destruct (IH He) as [-> ->].
  unfold extension_char in Hc. apply andb_true_iff in Hc as [Hc Hslash].
  apply andb_true_iff in Hc as [_ Hdot].
  unfold no_slash, no_dot. by rewrite Hslash, Hdot.
Qed.

(** [posixpath.splitext] on some paths, as Python gives it. *)
Lemma splitext_ext_examples :
  splitext_ext "/files/archive.7z" = ".7z" /\
  splitext_ext "/foo.tar.gz" = ".gz" /\
  splitext_ext "/a.b/c" = "" /\
  splitext_ext "/a/.bashrc" = "" /\
  splitext_ext "..x.y" = ".y" /\
  splitext_ext "a." = ".".
Proof. by vm_compute. Qed.

(** The test of scrapy 1.x and the test of scrapy 2 both do what
    [drops_by_extension] says. *)
Lemma has_any_extension_1_drops lib :
  (forall url extensions,
     url_has_any_extension lib url extensions
     = has_any_extension_1 (url_path lib url) extensions) ->
  drops_by_extension lib.
Proof.
  intros Hlib url extensions stem c e Hpath Hc1 Hc2 He Hin.
  destruct (extension_chars e He) as [Hs Hd].
  rewrite Hlib, Hpath. unfold has_any_extension_1.
  apply bool_decide_eq_true. rewrite splitext_ext_app by done.
  by rewrite lower_app.
Qed.

Lemma has_any_extension_2_drops lib :
  (forall url extensions,
     url_has_any_extension lib url extensions
     = has_any_extension_2 (url_path lib url) extensions) ->
  drops_by_extension lib.
Proof.
  intros Hlib url extensions stem c e Hpath _ _ _ Hin.
  rewrite Hlib, Hpath. unfold has_any_extension_2.
  apply existsb_exists. exists ("." ++ lower e). split.
  - by apply list_elem_of_In, elem_of_elements.
  - change (stem ++ String c ("." ++ e)) with (stem ++ String c "" ++ "." ++ e).
    rewrite !lower_app. change (lower ".") with ".".
    do 2 apply ends_with_app. apply ends_with_refl.
Qed.

(** The stand-in library is such a library. *)
Lemma lib_absolute_drops_by_extension : drops_by_extension lib_absolute.
Proof. by apply has_any_extension_2_drops. Qed.

Lemma extract_link_ignored lib base_url a href :
  attrib a !! "href" = Some href ->
  url_has_any_extension lib (urljoin lib base_url (target_of href)) (_IGNORED lib) = true ->
  extract_link lib base_url a = None.
Proof.
  intros Hhref Hext. unfold extract_link. rewrite Hhref.
  destruct (contains "mailto:" href); [done|].
  unfold target_of in Hext.
  destruct (extract_js_link href) as [[|c u]|]; by rewrite Hext.
Qed.

(** C2, as the code has it: an href that contains [mailto:] gives no link;
    an href of the form [[javascript:]location.href='X'] is rewritten to [X]
    and its link carries [js]; every other href, also one that begins with
    [javascript:], is kept as it is and its link carries no [js]; and the
    link is dropped when the path of the joined URL ends in a file name with
    an ignored extension, in lower or upper case: the ignored extensions are
    the standard ones and [7z], [7zip], [xz], [gz], [tar], [bz2], [cdr],
    [apk], each behind a dot, and [url_has_any_extension] of scrapy holds of
    such a path. *)
Theorem extract_link_href (lib : Library) (base_url : string) (a : Anchor) (href : string) :
  attrib a !! "href" = Some href ->
  (contains "mailto:" href = true -> extract_link lib base_url a = None) /\
  (contains "mailto:" href = false ->
   forall X, extract_js_link href = Some X -> yields lib base_url a X (Some true)) /\
  (contains "mailto:" href = false ->
   extract_js_link href = None -> yields lib base_url a href None) /\
  (forall P q1 X q2 T,
   js_prefix P -> is_quote q1 = true -> is_quote q2 = true ->
   X <> "" -> all_chars not_newline X = true -> all_chars not_quote T = true ->
   href = P ++ "location.href=" ++ String q1 (X ++ String q2 T) ->
   extract_js_link href = Some X) /\
  (drops_by_extension lib ->
   forall stem c e,
   url_path lib (urljoin lib base_url (target_of href)) = stem ++ String c ("." ++ e) ->
   c <> "/"%char -> c <> "."%char -> all_chars extension_char e = true ->
   lower e ∈ _NEW_IGNORED \/ lower e ∈ IGNORED_EXTENSIONS lib ->
   extract_link lib base_url a = None) /\
  (forall e, e ∈ _NEW_IGNORED \/ e ∈ IGNORED_EXTENSIONS lib -> "." ++ e ∈ _IGNORED lib) /\
  _NEW_IGNORED = ["7z"; "7zip"; "xz"; "gz"; "tar"; "bz2"; "cdr"; "apk"].
Proof.
  intros Hhref.
  assert (Hign : forall e, e ∈ _NEW_IGNORED \/ e ∈ IGNORED_EXTENSIONS lib ->
                   "." ++ e ∈ _IGNORED lib).
  { intros e [He|He]; [by apply _IGNORED_new | by apply _IGNORED_standard]. }
  split; [by unfold extract_link; rewrite Hhref; intros ->|].
  split.
  { intros Hmail X HX. apply (extract_link_yields _ _ _ href); [done..|].
    rewrite HX. destruct X as [|c X]; [by apply extract_js_link_nonempty in HX | done]. }
  split.
  { intros Hmail Hnone. apply (extract_link_yields _ _ _ href); [done..|]. by rewrite Hnone. }
  split.
  { intros P q1 X q2 T HP Hq1 Hq2 HX Hnl HT ->. by apply extract_js_link_form. }
  split; [|by split].
  intros Hlib stem c e Hpath Hc1 Hc2 He Hin.
  apply (extract_link_ignored _ _ _ href Hhref).
  apply (Hlib _ _ stem c e); [done..|]. by apply Hign.
Qed.

Lemma extract_link_href_witness :
  let a := {| attrib := {["href" := "javascript:location.href='http://example.com/next';"]};
              normalize_space := text_of "next"; img_alt := [] |} in
  let b := {| attrib := {["href" := "http://example.com/files/archive.7Z"]};
              normalize_space := text_of "archive"; img_alt := [] |} in
  attrib a !! "href" = Some "javascript:location.href='http://example.com/next';" /\
  yields lib_absolute "http://example.com/" a "http://example.com/next" (Some true) /\
  attrib b !! "href" = Some "http://example.com/files/archive.7Z" /\
  extract_link lib_absolute "http://example.com/" b = None.
Proof.
  intros a b.
  assert (Ha : attrib a !! "href"
               = Some "javascript:location.href='http://example.com/next';") by reflexivity.
  assert (Hb : attrib b !! "href" = Some "http://example.com/files/archive.7Z")
    by reflexivity.
  split; [exact Ha|]. split; [|split; [exact Hb|]].
  - apply (extract_link_href lib_absolute "http://example.com/" a _ Ha); reflexivity.
  - destruct (extract_link_href lib_absolute "http://example.com/" b _ Hb)
      as (_ & _ & _ & _ & Hdrop & _).
    apply (Hdrop lib_absolute_drops_by_extension "/files/archiv" "e"%char "7Z");
      [reflexivity | discriminate | discriminate | reflexivity |].
    left. change (lower "7Z") with "7z". unfold _NEW_IGNORED. set_solver.
Defined.

(** C2 as stated fails: an href that begins with [javascript:] and is not of
    the [location.href] form is not dropped; its link is yielded with the
    href as URL. *)
Lemma javascript_href_is_kept :
  let a := {| attrib := {["href" := "javascript:void(0)"]};
              normalize_space := text_of "menu"; img_alt := [] |} in
  String.prefix "javascript:" "javascript:void(0)" = true /\
  extract_js_link "javascript:void(0)" = None /\
  extract_link lib_absolute "http://example.com/" a =
    Some {| js := None; link_url := "javascript:void(0)"; attrs := attrib a;
            inside_text := text_of "menu" |}.
Proof. vm_compute. done. Qed.

End links_facts.

(** ** The balancing queue *)

Module scheduler_facts.
Import BalancedPriorityQueue observe scheduler_props.
Open Scope string_scope.

(** C4: a push for a closed slot raises [QueueClosed] and leaves the
    scheduler as it was: the state after the call is the state before it,
    queues, closed slots and buffer included. *)
Theorem push_closed (s : BalancedPriorityQueue) (r : Request) (d : string) :
  scheduler_slot r = Some (PStr d) ->
  d ∈ closed_slots s ->
  push s r = (s, Raise QueueClosed).
Proof.
  intros Hslot Hd. unfold push, slot_closed. rewrite Hslot.
  by rewrite bool_decide_eq_true_2.
Qed.

Lemma push_closed_witness :
  let s := (close_queue (push (__init__ fifo_factory 0 1 None)
                           (request_for "d1" "http://d1/a" 3)).1 "d1").1 in
  let r := request_for "d1" "http://d1/b" 4 in
  scheduler_slot r = Some (PStr "d1") /\ "d1" ∈ closed_slots s /\
  push s r = (s, Raise QueueClosed).
Proof.
  intros s r.
  assert (H1 : scheduler_slot r = Some (PStr "d1")) by (vm_compute; reflexivity).
  assert (H2 : "d1" ∈ closed_slots s)
    by (apply elem_of_union_l, elem_of_singleton; reflexivity).
  split; [exact H1 | split; [exact H2 | exact (push_closed s r "d1" H1 H2)]].
Defined.

(** C5: the first [close_queue(d)] adds [d] to the closed slots, removes the
    queue of [d] and returns the number of its entries (0 when [d] has no
    queue); the second returns 0 and changes nothing. *)
Theorem close_queue_twice (s : BalancedPriorityQueue) (d : string) :
  let '(s1, n1) := close_queue s d in
  let '(s2, n2) := close_queue s1 d in
  closed_slots s1 = {[d]} ∪ closed_slots s /\
  queues s1 = delete (Some (PStr d)) (queues s) /\
  queues s1 !! Some (PStr d) = None /\
  n1 = match queues s !! Some (PStr d) with
       | Some queue => length (entries queue)
       | None => 0%nat
       end /\
  n2 = 0%nat /\ s2 = s1.
Proof.
  unfold close_queue; simpl.
  rewrite lookup_delete_eq.
  repeat split.
  f_equal.
  - apply delete_delete_eq.
  - by rewrite (assoc_L (∪)), (idemp_L (∪)).
Qed.

Lemma push_length q r :
  RequestsPriorityQueue.__len__ (RequestsPriorityQueue.push q r).2
  = S (RequestsPriorityQueue.__len__ q).
Proof.
  unfold RequestsPriorityQueue.__len__. simpl. apply heapq_length.heappush_length.
Qed.

Lemma total_len_insert_fresh qs sl q :
  qs !! sl = None ->
  total_len (<[sl := q]> qs) = (RequestsPriorityQueue.__len__ q + total_len qs)%nat.
Proof.
  intros H. unfold total_len.
  rewrite (map_to_list_insert qs sl q H). done.
Qed.

Lemma total_len_insert_over qs sl q q0 :
  qs !! sl = Some q0 ->
  (total_len (<[sl := q]> qs) + RequestsPriorityQueue.__len__ q0
   = RequestsPriorityQueue.__len__ q + total_len qs)%nat.
Proof.
  intros H.
  pose proof (total_len_insert_fresh (delete sl qs) sl q (lookup_delete_eq _ _)) as H1.
  pose proof (total_len_insert_fresh (delete sl qs) sl q0 (lookup_delete_eq _ _)) as H2.
  rewrite insert_delete_eq in H1. rewrite insert_delete_id in H2 by done. lia.
Qed.

(** C10: a request without [scheduler_slot] in its metadata is pushed without
    an error.  Its slot is [None]; the queue under [None] is made by the
    factory when there is none yet, and every such request goes into that
    queue.  The queue is one of the slots that are sampled, and the length of
    the scheduler grows by the push. *)
Theorem push_without_slot (s : BalancedPriorityQueue) (r : Request) :
  meta r !! "scheduler_slot" = None ->
  let q0 := default (queue_factory s None) (queues s !! None) in
  let s' := (push s r).1 in
  (push s r).2 = Ok tt /\
  queues s' = <[None := (RequestsPriorityQueue.push q0 r).2]> (queues s) /\
  closed_slots s' = closed_slots s /\
  _buffer s' = _buffer s /\
  None ∈ all_slots s' /\
  __len__ s' = (__len__ s + 1 +
                match queues s !! None with
                | Some _ => 0
                | None => RequestsPriorityQueue.__len__ (queue_factory s None)
                end)%nat /\
  (forall r2, meta r2 !! "scheduler_slot" = None ->
     (push s' r2).2 = Ok tt /\
     queues (push s' r2).1 =
       <[None := (RequestsPriorityQueue.push (RequestsPriorityQueue.push q0 r).2 r2).2]>
         (queues s)).
Proof.
  intros Hslot q0 s'. fold (scheduler_slot r) in Hslot.
  assert (Hq : queues s' = <[None := (RequestsPriorityQueue.push q0 r).2]> (queues s)).
  { subst s' q0. unfold push. rewrite Hslot. reflexivity. }
  assert (Hs' : (push s r).2 = Ok tt /\ closed_slots s' = closed_slots s
                /\ _buffer s' = _buffer s).
  { subst s'. unfold push. rewrite Hslot. simpl. done. }
  destruct Hs' as (Hok & Hc & Hb).
  repeat split; try done.
  - unfold all_slots. rewrite Hq. apply list_elem_of_fmap.
    exists (None, (RequestsPriorityQueue.push q0 r).2). split; [done|].
    apply elem_of_map_to_list, lookup_insert_eq.
  - unfold __len__. rewrite Hb. fold (total_len (queues s')). fold (total_len (queues s)).
    rewrite Hq. subst q0. destruct (queues s !! None) as [q|] eqn:E; cbn [from_option id].
    + pose proof (total_len_insert_over (queues s) None
                    (RequestsPriorityQueue.push q r).2 q E) as H.
      rewrite push_length in H. lia.
    + rewrite total_len_insert_fresh by done. rewrite push_length. lia.
  - fold (scheduler_slot r2) in H. unfold push. rewrite H. simpl. done.
  - fold (scheduler_slot r2) in H. unfold push. rewrite H. simpl.
    rewrite Hq, lookup_insert_eq. simpl. by rewrite insert_insert_eq.
Qed.

Lemma push_without_slot_witness :
  let s := __init__ fifo_factory 0 1 None in
  let r := request "http://example.com/" 3 in
  meta r !! "scheduler_slot" = None /\
  (push s r).2 = Ok tt /\
  queues (push s r).1 =
    <[None := (RequestsPriorityQueue.push (fifo_factory None) r).2]> (queues s).
Proof.
  intros s r.
  assert (H : meta r !! "scheduler_slot" = None) by reflexivity.
  split; [exact H|].
  split; apply (push_without_slot s r H).
Defined.


Lemma Qlt_bool_true (x y : Q) : (x < y)%Q -> Qlt_bool x y = true.
Proof.
  intros H. unfold Qlt_bool. apply negb_true_iff.
  destruct (Qle_bool y x) eqn:E; [|done].
  apply Qle_bool_iff in E. by apply Qlt_not_le in H.
Qed.

(** With [eps = 1] the test [random.random() < (self.eps or 0.0)] holds at
    every draw. *)
Lemma random_policy_always (rnd : Random) (s : BalancedPriorityQueue) (k : nat) :
  unit_interval rnd -> (eps s == 1)%Q ->
  Qlt_bool (random rnd k) (eps_or_zero s) = true.
Proof.
  intros Hrnd Heps. apply Qlt_bool_true. unfold eps_or_zero.
  destruct (Qeq_bool (eps s) 0) eqn:E.
  - apply Qeq_bool_iff in E. rewrite Heps in E. discriminate E.
  - rewrite Heps. apply Hrnd.
Qed.

Lemma policy_loop_all_random rnd e slots chosen k :
  (forall k', Qlt_bool (random rnd k') e = true) ->
  Forall (fun x => x.1 = true) (policy_loop rnd e slots chosen k).1.
Proof.
  intros He. revert k. induction chosen as [|sl chosen IH]; intros k; simpl; [done|].
  rewrite He.
  specialize (IH (S (S k))).
  destruct (policy_loop rnd e slots chosen (S (S k))) as [rest k'].
  destruct (random_choice rnd (S k) slots); simpl; by constructor.
Qed.

Lemma fetch_loop_stamped rnd plan qs k :
  Forall (fun x => x.1 = true) plan ->
  Forall from_random_policy (fetch_loop rnd plan qs k).1.1.
Proof.
  intros Hplan. revert qs k.
  induction Hplan as [|[b sl] plan Hb Hplan IH]; intros qs k; simpl; [done|].
  simpl in Hb. subst b.
  destruct (qs !! sl) as [queue|]; [|apply IH].
  destruct (RequestsPriorityQueue_random.pop_random rnd 10 queue k) as [[request queue'] k'].
  specialize (IH (<[sl := queue']> qs) k').
  destruct (fetch_loop rnd plan (<[sl := queue']> qs) k') as [[requests qs'] k''].
  destruct request as [r|]; simpl in *; [|done].
  constructor; [|done].
  unfold from_random_policy, set_meta. simpl. apply lookup_insert_eq.
Qed.

Lemma _pop_many_stamped rnd s n k :
  unit_interval rnd -> (eps s == 1)%Q ->
  Forall from_random_policy (_pop_many rnd s n k).1.1.
Proof.
  intros Hrnd Heps. unfold _pop_many.
  destruct (all_slots s) as [|sl0 slots] eqn:E; [done|].
  pose proof (policy_loop_all_random rnd (eps_or_zero s) (sl0 :: slots)
                (np_random_choice rnd k (sl0 :: slots) n) (k + n)
                (fun k' => random_policy_always rnd s k' Hrnd Heps)) as Hplan.
  destruct (policy_loop rnd (eps_or_zero s) (sl0 :: slots)
              (np_random_choice rnd k (sl0 :: slots) n) (k + n)) as [plan k1].
  pose proof (fetch_loop_stamped rnd plan (queues s) k1 Hplan) as Hreq.
  by destruct (fetch_loop rnd plan (queues s) k1) as [[requests qs] k2].
Qed.

Lemma _pop_many_eps rnd s n k : eps (_pop_many rnd s n k).1.2 = eps s.
Proof.
  unfold _pop_many. destruct (all_slots s); [done|].
  destruct (policy_loop _ _ _ _ _) as [plan k1].
  by destruct (fetch_loop _ _ _ _) as [[requests qs] k2].
Qed.

Lemma _pop_many_buffer rnd s n k : _buffer (_pop_many rnd s n k).1.2 = _buffer s.
Proof.
  unfold _pop_many. destruct (all_slots s); [done|].
  destruct (policy_loop _ _ _ _ _) as [plan k1].
  by destruct (fetch_loop _ _ _ _) as [[requests qs] k2].
Qed.

Lemma Forall_removelast {A} (P : A -> Prop) (l : list A) :
  Forall P l -> Forall P (removelast l).
Proof.
  induction 1 as [|x l Hx Hl IH]; simpl; [done|].
  destruct l; [done|]. by constructor.
Qed.

(** With [eps = 1] and a buffer that holds stamped requests, [pop] returns a
    stamped request and leaves such a buffer. *)
Lemma pop_stamped (rnd : Random) (s : BalancedPriorityQueue) (k : nat) :
  unit_interval rnd ->
  (eps s == 1)%Q ->
  Forall from_random_policy (_buffer s) ->
  (forall r, (pop rnd s k).1.1 = Some r -> from_random_policy r) /\
  Forall from_random_policy (_buffer (pop rnd s k).1.2) /\
  (eps (pop rnd s k).1.2 == 1)%Q.
Proof.
  intros Hrnd Heps Hbuf.
  unfold pop.
  set (filled := match _buffer s with
                 | [] => let '(requests, s', k') := _pop_many rnd s (batch_size s) k in
                         (with_buffer s' (_buffer s' ++ requests), k')
                 | _ => (s, k)
                 end).
  assert (Hfilled : Forall from_random_policy (_buffer filled.1) /\ (eps filled.1 == 1)%Q).
  { subst filled. destruct (_buffer s) eqn:E; [|simpl; by rewrite E].
    pose proof (_pop_many_stamped rnd s (batch_size s) k Hrnd Heps) as Hreq.
    pose proof (_pop_many_eps rnd s (batch_size s) k) as He.
    pose proof (_pop_many_buffer rnd s (batch_size s) k) as Hb.
    destruct (_pop_many rnd s (batch_size s) k) as [[requests s'] k']. simpl in *.
    rewrite Hb, E, He. done. }
  destruct filled as [s1 k1]. simpl in Hfilled. destruct Hfilled as [Hb1 He1].
  destruct (last (_buffer s1)) as [r|] eqn:El; simpl.
  - repeat split; [|by apply Forall_removelast|done].
    intros r' [= <-]. rewrite Forall_forall in Hb1. apply Hb1.
    apply last_Some in El as [l' ->]. set_solver.
  - repeat split; done.
Qed.

Lemma sched_step_stamped rnd st o :
  unit_interval rnd ->
  (eps st.1.1 == 1)%Q /\ Forall from_random_policy (_buffer st.1.1)
    /\ Forall from_random_policy st.2 ->
  let st' := sched_step rnd st o in
  (eps st'.1.1 == 1)%Q /\ Forall from_random_policy (_buffer st'.1.1)
    /\ Forall from_random_policy st'.2.
Proof.
  intros Hrnd. destruct st as [[s k] popped]. simpl. intros (Heps & Hbuf & Hpop).
  destruct o as [r| |d|sl f]; simpl.
  - unfold push. by destruct (slot_closed s (scheduler_slot r)).
  - destruct (pop_stamped rnd s k Hrnd Heps Hbuf) as (Hr & Hb & He).
    destruct (pop rnd s k) as [[r s'] k']. simpl in *.
    repeat split; [done..|].
    apply Forall_app. split; [done|].
    destruct r as [r|]; simpl; [|done]. constructor; [by apply Hr | done].
  - done.
  - done.
Qed.

Lemma sched_run_stamped rnd ops : forall st,
  unit_interval rnd ->
  (eps st.1.1 == 1)%Q /\ Forall from_random_policy (_buffer st.1.1)
    /\ Forall from_random_policy st.2 ->
  Forall from_random_policy (fold_left (sched_step rnd) ops st).2.
Proof.
  induction ops as [|o ops IH]; intros st Hrnd Hst; simpl; [apply Hst|].
  apply IH; [done|]. by apply sched_step_stamped.
Qed.

(** C9: with [eps = 1] every request that [_pop_many] produces carries
    [from_random_policy = True], whatever the queues hold and whatever is
    drawn; and in every run of a scheduler that was made with [eps = 1],
    pushes, pops, closed queues and changes to the queues in any order,
    every request that [pop] returns carries it. *)
Theorem eps_one_from_random_policy (rnd : Random) :
  unit_interval rnd ->
  (forall s n k, (eps s == 1)%Q ->
     Forall from_random_policy (_pop_many rnd s n k).1.1) /\
  (forall queue_factory e temperature batch ops k, (e == 1)%Q ->
     Forall from_random_policy
       (sched_run rnd ops (__init__ queue_factory e temperature batch) k).2).
Proof.
  intros Hrnd. split.
  - intros s n k Heps. by apply _pop_many_stamped.
  - intros queue_factory e temperature batch ops k He.
    apply sched_run_stamped; [done|]. simpl. repeat split; [done|constructor..].
Qed.

Lemma eps_one_from_random_policy_witness :
  unit_interval rnd_half /\
  Forall from_random_policy
    (sched_run rnd_half
       [SPush (request_for "d1" "http://d1/a" 3);
        SPush (request_for "d2" "http://d2/a" 5); SPop; SPop; SPop]
       (__init__ fifo_factory 1 1 None) 0).2.
Proof.
  assert (H : unit_interval rnd_half) by (intros k; unfold Qle, Qlt; simpl; lia).
  split; [exact H|].
  apply (eps_one_from_random_policy rnd_half H). reflexivity.
Defined.

End scheduler_facts.

(** ** The per-domain queue *)

Module queue_facts.
Import RequestsPriorityQueue observe.
Open Scope string_scope.
Import heap_props queue_props.

Lemma entry_lt_false a b :
  entry_lt a b = false <->
  (neg_priority b < neg_priority a \/
   (neg_priority b = neg_priority a /\ count b <= count a)).
Proof.
  unfold entry_lt. rewrite orb_false_iff, andb_false_iff.
  rewrite !Z.ltb_ge, Z.eqb_neq. lia.
Qed.

Lemma entry_lt_true a b :
  entry_lt a b = true <->
  (neg_priority a < neg_priority b \/
   (neg_priority a = neg_priority b /\ count a < count b)).
Proof.
  unfold entry_lt. rewrite orb_true_iff, andb_true_iff.
  rewrite !Z.ltb_lt, Z.eqb_eq. lia.
Qed.

(** The order of the handles is a strict weak order, whatever the store. *)
Lemma handle_lt_order ar : strict_weak_order (handle_lt ar).
Proof.
  unfold handle_lt. split.
  - intros a. apply entry_lt_false. lia.
  - intros a b. rewrite entry_lt_true, entry_lt_false. lia.
  - intros a b c. rewrite !entry_lt_false. lia.
Qed.

(** *** [pop] and [drain] read the heap as [heap_sort] does *)

Lemma pop_loop_S fuel q :
  pop_loop (S fuel) q =
  match heapq.heappop (handle_lt (arena q)) (entries q) with
  | None => (None, q)
  | Some (h, es) =>
      match live_request (arena q) h with
      | Some r => (Some r, with_entries q es)
      | None => pop_loop fuel (with_entries q es)
      end
  end.
Proof.
  cbn [pop_loop]. unfold live_request.
  destruct (heapq.heappop _ _) as [[h es]|]; [|done].
  by destruct (item (deref (arena q) h)).
Qed.

Lemma heap_sort_loop_S {A} (lt : A -> A -> bool) fuel l :
  heap_sort_loop lt (S fuel) l =
  match heapq.heappop lt l with
  | None => []
  | Some (x, l') => x :: heap_sort_loop lt fuel l'
  end.
Proof. done. Qed.

Lemma drain_loop_S fuel q :
  drain_loop (S fuel) q =
  match pop q with
  | (Some r, q') => r :: drain_loop fuel q'
  | (None, _) => []
  end.
Proof. done. Qed.

Lemma drain_pop_heap_sort n :
  forall q, (length (entries q) <= n)%nat ->
  let sorted := omap (live_request (arena q))
                  (heap_sort (handle_lt (arena q)) (entries q)) in
  (forall fp fd, (length (entries q) <= fp)%nat -> (length (entries q) <= fd)%nat ->
     match pop_loop fp q with
     | (Some r, q') => r :: drain_loop fd q'
     | (None, _) => []
     end = sorted) /\
  (forall fd, (length (entries q) < fd)%nat -> drain_loop fd q = sorted).
Proof.
  induction n as [|n IH]; intros q Hn sorted.
  - assert (E : entries q = []) by (destruct (entries q); [done | simpl in Hn; lia]).
    subst sorted. rewrite E. split.
    + intros [|fp] fd _ _; [done|]. rewrite pop_loop_S, E. done.
    + intros [|fd] Hfd; [lia|]. rewrite drain_loop_S. unfold pop. rewrite E. done.
  - assert (Hpop : forall fp fd, (length (entries q) <= fp)%nat ->
               (length (entries q) <= fd)%nat ->
               match pop_loop fp q with
               | (Some r, q') => r :: drain_loop fd q'
               | (None, _) => []
               end = sorted).
    { intros fp fd Hfp Hfd. subst sorted. unfold heap_sort.
      destruct (length (entries q)) as [|m] eqn:Em.
      { apply length_zero_iff_nil in Em.
        destruct fp as [|fp]; [by rewrite Em|]. rewrite pop_loop_S, Em. done. }
      destruct fp as [|fp]; [lia|].
      rewrite pop_loop_S, heap_sort_loop_S.
      destruct (heapq.heappop (handle_lt (arena q)) (entries q)) as [[h es]|] eqn:Eh; [|done].
      pose proof (heapq_length.heappop_length _ _ _ _ Eh) as Hlen.
      rewrite Em in Hlen. injection Hlen as Hlen.
      destruct (IH (with_entries q es)) as [IHpop IHdrain]; [simpl; lia|].
      simpl in IHpop, IHdrain. unfold heap_sort in IHpop, IHdrain.
      rewrite <- Hlen in IHpop, IHdrain.
      cbn [omap list_omap].
      destruct (live_request (arena q) h) as [r|].
      - f_equal. apply IHdrain. lia.
      - apply IHpop; lia. }
    split; [exact Hpop|].
    intros [|fd] Hfd; [lia|]. rewrite drain_loop_S. unfold pop.
    apply Hpop; lia.
Qed.

(** [drain] returns the live requests in the order in which [heappop] takes
    their entries off the heap. *)
Lemma drain_heap_sort q :
  drain q = omap (live_request (arena q))
              (heap_sort (handle_lt (arena q)) (entries q)).
Proof.
  unfold drain.
  apply (drain_pop_heap_sort (length (entries q)) q); lia.
Qed.

(** *** Pushes keep the heap *)

Lemma is_heap_ext {A} (lt1 lt2 : A -> A -> bool) (l : list A) :
  (forall a b, a ∈ l -> b ∈ l -> lt1 a b = lt2 a b) ->
  is_heap lt1 l -> is_heap lt2 l.
Proof.
  intros Hext Hheap c Hc Hsc x p Hx Hp.
  rewrite <- Hext by (eapply list_elem_of_lookup_2; eauto).
  by apply (Hheap c Hc Hsc).
Qed.

Lemma deref_app_l ar ar' h : (h < length ar)%nat -> deref (ar ++ ar') h = deref ar h.
Proof. intros H. unfold deref. by rewrite lookup_app_l. Qed.

Lemma push_heap_ordered q r :
  (forall h, h ∈ entries q -> (h < length (arena q))%nat) ->
  heap_ordered q -> heap_ordered (push q r).2.
Proof.
  intros Hvalid Hheap. unfold heap_ordered, push. cbn [snd arena entries].
  apply heap_facts.heappush_heap; [apply handle_lt_order|].
  apply (is_heap_ext (handle_lt (arena q))); [|done].
  intros a b Ha Hb. unfold handle_lt.
  by rewrite !deref_app_l by auto.
Qed.

Lemma push_entries_perm q r :
  entries (push q r).2 ≡ₚ length (arena q) :: entries q.
Proof. unfold push. cbn [snd entries]. apply heap_facts.heappush_perm. Qed.

(** *** First in, first out *)

Import fifo_props.

Lemma fifo_state_init p : fifo_state p [] (__init__ true).
Proof. repeat split; done. Qed.

Lemma fifo_state_push p rs q r :
  fifo_state p rs q -> priority r = p -> fifo_state p (rs ++ [r]) (push q r).2.
Proof.
  intros (Har & Hes & Hheap & Hc & Hs) Hp.
  assert (Hlen : length (arena q) = length rs) by (by rewrite Har, length_imap).
  repeat split.
  - unfold push. cbn [snd arena]. rewrite imap_app, Har, Hc, Hp. simpl.
    by rewrite Nat.add_0_r.
  - rewrite push_entries_perm, Hlen, Hes, length_app. simpl.
    rewrite Nat.add_1_r, seq_S. simpl. by rewrite Permutation_app_comm.
  - apply push_heap_ordered; [|done].
    intros h Hh. rewrite Hes in Hh. apply elem_of_seq in Hh. lia.
  - unfold push. cbn [snd counter]. rewrite Hc, Hs, length_app. simpl. lia.
  - done.
Qed.

Lemma fifo_state_push_all p rs' : forall rs q,
  fifo_state p rs q -> Forall (fun r => priority r = p) rs' ->
  fifo_state p (rs ++ rs') (push_all q rs').
Proof.
  unfold push_all.
  induction rs' as [|r rs' IH]; intros rs q Hq Hall; simpl.
  - by rewrite app_nil_r.
  - apply Forall_cons in Hall as [Hr Hall].
    replace (rs ++ r :: rs')%list with ((rs ++ [r]) ++ rs')%list
      by (by rewrite <- app_assoc).
    apply IH; [by apply fifo_state_push | done].
Qed.

Lemma StronglySorted_seq (R : nat -> nat -> Prop) len : forall start,
  (forall i j, (start <= i < j)%nat -> (j < start + len)%nat -> R i j) ->
  StronglySorted R (seq start len).
Proof.
  induction len as [|len IH]; intros start HR; simpl; [constructor|].
  constructor.
  - apply IH. intros i j Hij Hj. apply HR; lia.
  - apply Forall_forall. intros j Hj. apply elem_of_seq in Hj. apply HR; lia.
Qed.

Lemma omap_seq_lookup {B} (f : nat -> option B) (l : list B) :
  (forall i x, l !! i = Some x -> f i = Some x) ->
  omap f (seq 0 (length l)) = l.
Proof.
  induction l as [|x l IH] using rev_ind; intros Hf; [done|].
  rewrite length_app. simpl. rewrite Nat.add_1_r, seq_S, omap_app. simpl.
  rewrite IH.
  - rewrite (Hf (length l) x); [done|]. by rewrite lookup_app_r, Nat.sub_diag.
  - intros i y Hi. apply Hf. rewrite lookup_app_l; [done | by eapply lookup_lt_Some].
Qed.

Lemma fifo_state_deref p rs q i r :
  fifo_state p rs q -> rs !! i = Some r ->
  deref (arena q) i = mkEntry (- p) (Z.of_nat i) (Live r).
Proof.
  intros (Har & _) Hi. unfold deref. by rewrite Har, list_lookup_imap, Hi.
Qed.

Lemma fifo_state_handle_lt p rs q i j :
  fifo_state p rs q -> (i < length rs)%nat -> (j < length rs)%nat ->
  handle_lt (arena q) i j = false <-> (j <= i)%nat.
Proof.
  intros Hq Hi Hj.
  destruct (lookup_lt_is_Some_2 rs i Hi) as [ri Eri].
  destruct (lookup_lt_is_Some_2 rs j Hj) as [rj Erj].
  unfold handle_lt.
  rewrite (fifo_state_deref p rs q i ri Hq Eri), (fifo_state_deref p rs q j rj Hq Erj).
  rewrite entry_lt_false. simpl. lia.
Qed.

Lemma fifo_state_drain p rs q : fifo_state p rs q -> drain q = rs.
Proof.
  intros Hq. pose proof Hq as (Har & Hes & Hheap & _).
  rewrite drain_heap_sort.
  destruct (heap_facts.heap_sort_spec (handle_lt (arena q)) (handle_lt_order _)
              (entries q) Hheap) as [Hperm Hsorted].
  assert (Hhs : heap_sort (handle_lt (arena q)) (entries q) = seq 0 (length rs)).
  { apply (StronglySorted_unique_strong
             (fun a b => handle_lt (arena q) b a = false)).
    - intros x1 x2 Hx1 Hx2 H12 H21.
      rewrite Hperm, Hes in Hx1. apply elem_of_seq in Hx1. apply elem_of_seq in Hx2.
      apply (fifo_state_handle_lt p rs q) in H12; [|done|lia..].
      apply (fifo_state_handle_lt p rs q) in H21; [|done|lia..]. lia.
    - done.
    - apply StronglySorted_seq. intros i j Hij Hj.
      apply (fifo_state_handle_lt p rs q); [done|lia..].
    - by rewrite Hperm. }
  rewrite Hhs. apply omap_seq_lookup.
  intros i r Hi. unfold live_request.
  by rewrite (fifo_state_deref p rs q i r Hq Hi).
Qed.

(** The scenario of the tie-break.  Requests of one priority that are pushed
    into a new queue made with the default [fifo=True], with nothing else
    done to the queue, are popped in the order of the pushes, however many
    they are: the counter gives the entries the sequence numbers 0, 1, 2, ...
    (step +1) and the entry with the smaller number is popped first.  Three
    requests [a], [b], [c] come back as [a], [b], [c]. *)
Lemma fifo_tie_break (p : Z) (rs : list Request) :
  Forall (fun r => priority r = p) rs ->
  let q := push_all (__init__ true) rs in
  step q = 1 /\
  arena q = imap (fun i r => mkEntry (- p) (Z.of_nat i) (Live r)) rs /\
  drain q = rs.
Proof.
  intros Hall q.
  assert (Hq : fifo_state p rs q).
  { apply (fifo_state_push_all p rs [] (__init__ true)); [apply fifo_state_init | done]. }
  split; [apply Hq | split; [apply Hq | by apply (fifo_state_drain p)]].
Qed.

Lemma fifo_tie_break_witness :
  Forall (fun r => priority r = 7) [request "a" 7; request "b" 7; request "c" 7] /\
  drain (push_all (__init__ true) [request "a" 7; request "b" 7; request "c" 7])
  = [request "a" 7; request "b" 7; request "c" 7].
Proof.
  assert (H : Forall (fun r => priority r = 7)
                [request "a" 7; request "b" 7; request "c" 7])
    by (repeat constructor).
  split; [exact H | apply (fifo_tie_break 7 _ H)].
Defined.

(** *** The order of the pops when the heap is kept *)

Import run_props.

Lemma well_formed_init fifo : well_formed (__init__ fifo) /\ heap_ordered (__init__ fifo).
Proof.
  split; [split|].
  - intros h Hh. by apply elem_of_nil in Hh.
  - intros h e r Hh. done.
  - intros c ? ? x p Hx. done.
Qed.

Lemma push_well_formed q r : well_formed q -> well_formed (push q r).2.
Proof.
  intros [Hvalid Hkeys]. split.
  - intros h Hh. rewrite push_entries_perm in Hh.
    unfold push. cbn [snd arena]. rewrite length_app. simpl.
    apply elem_of_cons in Hh as [-> | Hh]; [lia|]. apply Hvalid in Hh. lia.
  - unfold push. cbn [snd arena]. intros h e r' Hh He.
    apply lookup_app_Some in Hh as [Hh | [_ Hh]]; [by eapply Hkeys|].
    apply list_lookup_singleton_Some in Hh as [_ <-]. simpl in *. by simplify_eq.
Qed.

Lemma heappop_well_formed q h es :
  well_formed q -> heap_ordered q ->
  heapq.heappop (handle_lt (arena q)) (entries q) = Some (h, es) ->
  well_formed (with_entries q es) /\ heap_ordered (with_entries q es).
Proof.
  intros [Hvalid Hkeys] Hheap Hpop.
  destruct (heap_facts.heappop_spec _ (handle_lt_order _) _ _ _ Hheap Hpop)
    as (Hheap' & Hperm & _).
  repeat split; [|done|done].
  intros h' Hh'. apply Hvalid. rewrite <- Hperm. by right.
Qed.

Lemma pop_loop_well_formed fuel : forall q,
  well_formed q -> heap_ordered q ->
  well_formed (pop_loop fuel q).2 /\ heap_ordered (pop_loop fuel q).2.
Proof.
  induction fuel as [|fuel IH]; intros q Hwf Hheap; [done|].
  rewrite pop_loop_S.
  destruct (heapq.heappop _ _) as [[h es]|] eqn:E; [|done].
  destruct (heappop_well_formed q h es Hwf Hheap E) as [Hwf' Hheap'].
  destruct (live_request (arena q) h); [done | by apply IH].
Qed.

Lemma _pop_empty_loop_well_formed fuel : forall q,
  well_formed q -> heap_ordered q ->
  well_formed (_pop_empty_loop fuel q) /\ heap_ordered (_pop_empty_loop fuel q).
Proof.
  induction fuel as [|fuel IH]; intros q Hwf Hheap; [done|].
  cbn [_pop_empty_loop].
  destruct (next_request q) as [[|r]|]; [|done..].
  destruct (heapq.heappop _ _) as [[h es]|] eqn:E; [|done].
  destruct (heappop_well_formed q h es Hwf Hheap E) as [Hwf' Hheap'].
  by apply IH.
Qed.

(** [heapify] restores the heap from any order of the entries. *)
Lemma heapify_well_formed q :
  well_formed q -> well_formed (heapify q) /\ heap_ordered (heapify q).
Proof.
  intros [Hvalid Hkeys]. unfold heapify, _pop_empty.
  destruct (heap_facts.heapify_spec (handle_lt (arena q)) (handle_lt_order _) (entries q))
    as [Hheap Hperm].
  apply _pop_empty_loop_well_formed; [|done].
  split; [|done]. intros h Hh. apply Hvalid. simpl in Hh. by rewrite Hperm in Hh.
Qed.

Lemma keys_consistent_insert ar h e :
  keys_consistent ar -> (forall r, item e = Live r -> neg_priority e = - priority r) ->
  keys_consistent (<[h := e]> ar).
Proof.
  intros Hkeys He h' e' r Hh' Hr.
  destruct (decide (h = h')) as [->|Hne].
  - apply list_lookup_insert_Some in Hh' as [(_ & <- & _) | [? _]]; [by apply He | done].
  - rewrite list_lookup_insert_ne in Hh' by done. by eapply Hkeys.
Qed.

Lemma remove_entry_well_formed q h : well_formed q -> well_formed (remove_entry q h).2.
Proof.
  intros [Hvalid Hkeys]. unfold remove_entry.
  destruct (arena q !! h) as [e|] eqn:E; [|done].
  split; cbn [snd arena entries with_arena].
  - intros h' Hh'. rewrite length_insert. by apply Hvalid.
  - by apply keys_consistent_insert.
Qed.

Lemma change_priority_well_formed q h p : well_formed q -> well_formed (change_priority q h p).
Proof.
  intros [Hvalid Hkeys]. unfold change_priority.
  split; cbn [arena entries with_arena].
  - intros h' Hh'. rewrite length_alter. by apply Hvalid.
  - intros h' e' r Hh' Hr.
    destruct (decide (h = h')) as [->|Hne].
    + rewrite list_lookup_alter_eq in Hh'.
      destruct (arena q !! h') as [e|] eqn:E; [|done].
      simpl in Hh'. simplify_eq. simpl in *.
      destruct (item e); simplify_eq. simpl. done.
    + rewrite list_lookup_alter_ne in Hh' by done. by eapply Hkeys.
Qed.

Lemma update_all_priorities_well_formed q f :
  well_formed q ->
  well_formed (update_all_priorities q f) /\ heap_ordered (update_all_priorities q f).
Proof.
  intros Hwf. unfold update_all_priorities. apply heapify_well_formed.
  generalize (zip (iter_active_entries q) (f (iter_requests q))). intros changes.
  revert q Hwf. induction changes as [|[h p] changes IH]; intros q Hwf; simpl; [done|].
  apply IH. by apply change_priority_well_formed.
Qed.

Lemma step_op_well_formed q o :
  well_formed q -> heap_ordered q ->
  well_formed (step_op q o) /\ heap_ordered (step_op q o).
Proof.
  intros Hwf Hheap. destruct o as [r| | |h|h p|f]; simpl.
  - split; [by apply push_well_formed|].
    apply push_heap_ordered; [apply Hwf | done].
  - by apply pop_loop_well_formed.
  - by apply heapify_well_formed.
  - by apply heapify_well_formed, remove_entry_well_formed.
  - by apply heapify_well_formed, change_priority_well_formed.
  - by apply update_all_priorities_well_formed.
Qed.

Lemma run_well_formed ops : forall q,
  well_formed q -> heap_ordered q ->
  well_formed (run ops q) /\ heap_ordered (run ops q).
Proof.
  unfold run. induction ops as [|o ops IH]; intros q Hwf Hheap; simpl; [done|].
  destruct (step_op_well_formed q o Hwf Hheap). by apply IH.
Qed.

Lemma StronglySorted_omap {B C} (R : B -> B -> Prop) (R' : C -> C -> Prop)
    (f : B -> option C) (l : list B) :
  (forall a b x y, R a b -> f a = Some x -> f b = Some y -> R' x y) ->
  StronglySorted R l -> StronglySorted R' (omap f l).
Proof.
  intros HR. induction 1 as [|a l Hl IH Ha]; simpl; [constructor|].
  destruct (f a) as [x|] eqn:Ea; [|done].
  constructor; [done|].
  apply Forall_forall. intros y Hy.
  apply list_elem_of_omap in Hy as (b & Hb & Eb).
  rewrite Forall_forall in Ha. apply (HR a b); [by apply Ha | done | done].
Qed.

Lemma live_request_key ar h r :
  keys_consistent ar -> live_request ar h = Some r ->
  neg_priority (deref ar h) = - priority r.
Proof.
  intros Hkeys. unfold live_request, deref.
  destruct (ar !! h) as [e|] eqn:E; simpl; [|done].
  destruct (item e) as [|r'] eqn:Ei; [done|]. intros [= ->]. by eapply Hkeys.
Qed.

(** In a queue whose entries form a heap, [pop] until [None] returns
    priorities that do not increase. *)
Lemma drain_non_increasing q :
  well_formed q -> heap_ordered q -> non_increasing (priority <$> drain q).
Proof.
  intros [_ Hkeys] Hheap. rewrite drain_heap_sort.
  destruct (heap_facts.heap_sort_spec (handle_lt (arena q)) (handle_lt_order _)
              (entries q) Hheap) as [_ Hsorted].
  unfold non_increasing. rewrite list_fmap_omap.
  apply (StronglySorted_omap (fun a b => handle_lt (arena q) b a = false)); [|done].
  intros a b x y Hab Ha Hb.
  destruct (live_request (arena q) a) as [ra|] eqn:Ea; [|done].
  destruct (live_request (arena q) b) as [rb|] eqn:Eb; [|done].
  simpl in Ha, Hb. simplify_eq.
  apply (live_request_key _ _ _ Hkeys) in Ea, Eb.
  unfold handle_lt in Hab. apply entry_lt_false in Hab. lia.
Qed.

(** What C3 asks for holds when [heapify] follows every [remove_entry], as it
    must follow [change_priority]: after any run of such operations on a new
    queue, the priorities of the requests that [pop] returns until it returns
    [None] do not increase. *)
Lemma drain_non_increasing_after_run (fifo : bool) (ops : list op) :
  non_increasing (priority <$> drain (run ops (__init__ fifo))).
Proof.
  destruct (well_formed_init fifo) as [Hwf Hheap].
  destruct (run_well_formed ops _ Hwf Hheap).
  by apply drain_non_increasing.
Qed.

(** With a live request at the root, [max_priority] is its priority; with no
    entry at all it is [EMPTY_PRIORITY]. *)
Lemma max_priority_live_root q r :
  keys_consistent (arena q) -> next_request q = Some (Live r) ->
  max_priority q = priority r.
Proof.
  intros Hkeys. unfold next_request, max_priority.
  destruct (entries q) as [|h es]; [done|]. intros [= Hr].
  rewrite (live_request_key (arena q) h r Hkeys); [lia|].
  unfold live_request. by rewrite Hr.
Qed.

Lemma max_priority_no_entries q : entries q = [] -> max_priority q = EMPTY_PRIORITY.
Proof. unfold max_priority. by intros ->. Qed.

(** C1 fails on the code.  After the only request of a queue is removed, the
    entry list holds one tombstone and no live entry, yet [max_priority] is
    the key of the tombstone, 100000005, not [EMPTY_PRIORITY]; and with a
    live entry below a tombstone at the root, [max_priority] is again the key
    of the tombstone, not the priority 3 of the request that [pop] returns. *)
Theorem max_priority_of_tombstone_root :
  let q1 := (remove_entry (push (__init__ true) (request "a" 5)).2 0%nat).2 in
  let q2 := (remove_entry (push_all (__init__ true) [request "a" 5; request "b" 3]) 0%nat).2 in
  (iter_requests q1 = [] /\ length (entries q1) = 1%nat /\
   max_priority q1 = 100000005 /\ EMPTY_PRIORITY = -100000000) /\
  (iter_requests q2 = [request "b" 3] /\ (pop q2).1 = Some (request "b" 3) /\
   max_priority q2 = 100000005).
Proof. vm_compute. done. Qed.

(** C3 fails on the code.  [remove_entry] rewrites the key of an entry where
    it lies in the heap; a request pushed afterwards stops below the
    tombstone, and [pop] returns the priorities 5, 9, 3, which increase from
    the first to the second. *)
Theorem pop_order_after_remove_entry :
  let q := push_all (__init__ true) [request "a" 5; request "b" 4; request "c" 3] in
  let q := (remove_entry q 1%nat).2 in
  let q := (push q (request "d" 9)).2 in
  drain q = [request "a" 5; request "d" 9; request "c" 3] /\
  ~ non_increasing (priority <$> drain q).
Proof.
  split; [by vm_compute|].
  replace (priority <$> drain _) with [5; 9; 3] by (by vm_compute).
  intros H. apply StronglySorted_inv in H as [_ H].
  apply Forall_cons in H as [H _]. lia.
Qed.

(** C8 fails on the code.  In a queue made with the default [fifo=True] the
    requests a and b are pushed with the priority 1, the entry of b is
    removed with [remove_entry], and c, d (priority 1) and e, f (priority 2)
    are pushed, in this order.  The tombstone of b stays at its place in
    the heap with the key -100000001; e stops below it, f rises to the root
    along the other branch, and [pop] returns f before e although both have
    the priority 2 and e was pushed first (sequence numbers 4 and 5, step
    +1). *)
Theorem fifo_order_after_remove_entry :
  let q := push_all (__init__ true) [request "a" 1; request "b" 1] in
  let q := (remove_entry q 1%nat).2 in
  let q := push_all q [request "c" 1; request "d" 1; request "e" 2; request "f" 2] in
  step q = 1 /\
  count <$> arena q = [0; 1; 2; 3; 4; 5] /\
  neg_priority <$> arena q = [-1; -100000001; -1; -1; -2; -2] /\
  entries q = [5; 1; 0; 3; 4; 2]%nat /\
  drain q = [request "f" 2; request "e" 2; request "a" 1; request "c" 1; request "d" 1].
Proof. vm_compute. done. Qed.

(** C7: the requests [a], [b], [c] are pushed into a new queue with the
    priorities 1, 2, 3.  The queue hands them to the function in its
    iteration order [c], [a], [b]; for every function that maps [a] to 10,
    [b] to 0 and [c] to 5, that is returns 5, 10, 0 for that order, the
    requests are popped after [update_all_priorities] in the order [a], [c],
    [b], each with its new priority. *)
Theorem update_all_priorities_scenario (fifo : bool) (a b c : Request)
    (compute : list Request -> list Z) :
  priority a = 1 -> priority b = 2 -> priority c = 3 ->
  compute [c; a; b] = [5; 10; 0] ->
  let q := push_all (__init__ fifo) [a; b; c] in
  iter_requests q = [c; a; b] /\
  drain (update_all_priorities q compute)
  = [set_priority a 10; set_priority c 5; set_priority b 0].
Proof.
  destruct a as [ua pa ma], b as [ub pb mb], c as [uc pc mc].
  intros Ha Hb Hc Hcompute q. simpl in Ha, Hb, Hc. subst pa pb pc q.
  assert (Hiter : iter_requests
            (push_all (__init__ fifo)
               [mkRequest ua 1 ma; mkRequest ub 2 mb; mkRequest uc 3 mc])
          = [mkRequest uc 3 mc; mkRequest ua 1 ma; mkRequest ub 2 mb]).
  { destruct fifo; by vm_compute. }
  split; [exact Hiter|].
  unfold update_all_priorities. rewrite Hiter, Hcompute.
  destruct fifo; by vm_compute.
Qed.

Lemma update_all_priorities_scenario_witness :
  let compute := map (fun r => if String.eqb (url r) "a" then 10
                               else if String.eqb (url r) "b" then 0 else 5) in
  let q := push_all (__init__ true) [request "a" 1; request "b" 2; request "c" 3] in
  compute [request "c" 3; request "a" 1; request "b" 2] = [5; 10; 0] /\
  drain (update_all_priorities q compute)
  = [request "a" 10; request "c" 5; request "b" 0].
Proof.
  intros compute q.
  assert (H : compute [request "c" 3; request "a" 1; request "b" 2] = [5; 10; 0])
    by reflexivity.
  split; [exact H|].
  apply (update_all_priorities_scenario true (request "a" 1) (request "b" 2)
           (request "c" 3) compute eq_refl eq_refl eq_refl H).
Defined.

End queue_facts.

(** * Further properties *)

(** ** heapq keeps the items, whatever their order *)

Module heapq_perm.
Import heap_props heap_facts.
Section Facts.
Context {A : Type} (lt : A -> A -> bool).

Lemma siftdown_loop_perm' fuel heap x s pos :
  (pos < length heap)%nat ->
  heapq.siftdown_loop lt fuel heap x s pos ≡ₚ <[pos := x]> heap.
Proof.
  revert heap pos. induction fuel as [|fuel IH]; intros heap pos Hpos;
    cbn [heapq.siftdown_loop]; [done|].
  destruct (decide (s < pos)%nat) as [Hs|Hs]; [|done].
  fold (parent pos). pose proof (parent_lt pos ltac:(lia)) as Hp.
  destruct (heap !! parent pos) as [p|] eqn:Ep; [|done].
  destruct (lt x p); [|done].
  rewrite IH by (rewrite length_insert; lia).
  rewrite <- (list_insert_insert_eq heap pos p x).
  apply Permutation_insert_swap; by lookup_insert.
Qed.

Lemma _siftdown_perm' heap s pos : heapq._siftdown lt heap s pos ≡ₚ heap.
Proof.
  unfold heapq._siftdown. destruct (heap !! pos) as [x|] eqn:E; [|done].
  rewrite siftdown_loop_perm' by (by eapply lookup_lt_Some).
  by rewrite list_insert_id.
Qed.

Lemma siftup_loop_perm fuel : forall heap pos,
  (pos < length heap)%nat ->
  let '(h', leaf) := heapq.siftup_loop lt fuel heap pos in
  (leaf < length heap)%nat /\ length h' = length heap /\
  forall x, <[leaf := x]> h' ≡ₚ <[pos := x]> heap.
Proof.
  induction fuel as [|fuel IH]; intros heap pos Hpos; cbn [heapq.siftup_loop]; [done|].
  destruct (decide (2 * pos + 1 < length heap)%nat) as [Hchild|]; [|done].
  set (cp := match heap !! (2 * pos + 1)%nat, heap !! (2 * pos + 1 + 1)%nat with
             | Some l, Some r => if negb (lt l r) then (2 * pos + 1 + 1)%nat
                                 else (2 * pos + 1)%nat
             | _, _ => (2 * pos + 1)%nat
             end).
  assert (Hcp : (pos < cp)%nat /\ (cp < length heap)%nat).
  { subst cp. destruct (heap !! (2 * pos + 1)%nat); [|lia].
    destruct (heap !! (2 * pos + 1 + 1)%nat) eqn:Er; [|lia].
    apply lookup_lt_Some in Er. destruct (negb (lt a a0)); lia. }
  destruct Hcp as [Hcp1 Hcp2].
  destruct (heap !! cp) as [c|] eqn:Ec; [|done].
  specialize (IH (<[pos := c]> heap) cp).
  rewrite length_insert in IH. specialize (IH Hcp2).
  destruct (heapq.siftup_loop lt fuel (<[pos := c]> heap) cp) as [h' leaf].
  destruct IH as (Hleaf & Hlen & Hperm). repeat split; [done..|].
  intros x. rewrite Hperm.
  rewrite <- (list_insert_insert_eq heap pos c x).
  apply Permutation_insert_swap; [by lookup_insert|].
  by rewrite list_lookup_insert_ne by lia.
Qed.

Lemma _siftup_perm heap pos : heapq._siftup lt heap pos ≡ₚ heap.
Proof.
  unfold heapq._siftup. destruct (heap !! pos) as [x|] eqn:E; [|done].
  pose proof (siftup_loop_perm (length heap - pos) heap pos
                ltac:(by eapply lookup_lt_Some)) as H.
  destruct (heapq.siftup_loop lt (length heap - pos) heap pos) as [h' leaf].
  destruct H as (_ & _ & Hperm).
  rewrite _siftdown_perm', Hperm. by rewrite list_insert_id.
Qed.

(** [heappop] takes the first item of the list and keeps the others. *)
Lemma heappop_perm heap x heap' :
  heapq.heappop lt heap = Some (x, heap') ->
  x :: heap' ≡ₚ heap /\ heap !! 0%nat = Some x.
Proof.
  unfold heapq.heappop.
  destruct (last heap) as [lastelt|] eqn:El; [|done].
  pose proof (last_removelast heap lastelt El) as Hsplit.
  destruct (removelast heap) as [|root t] eqn:Er.
  { intros [= <- <-]. by rewrite Hsplit. }
  intros [= <- <-]. split; [|by rewrite Hsplit].
  rewrite _siftup_perm, Hsplit. simpl. apply Permutation_skip.
  by rewrite (Permutation_app_comm t [lastelt]).
Qed.

Lemma heapify_loop_perm i : forall x, heapq.heapify_loop lt i x ≡ₚ x.
Proof.
  induction i as [|i IH]; intros x; simpl; [done|].
  by rewrite IH, _siftup_perm.
Qed.

Lemma heapify_perm x : heapq.heapify lt x ≡ₚ x.
Proof. apply heapify_loop_perm. Qed.

Lemma heap_sort_loop_perm fuel : forall heap,
  (length heap <= fuel)%nat -> heap_sort_loop lt fuel heap ≡ₚ heap.
Proof.
  induction fuel as [|fuel IH]; intros heap Hfuel; simpl.
  { destruct heap; [done | simpl in Hfuel; lia]. }
  destruct (heapq.heappop lt heap) as [[x heap']|] eqn:E.
  - destruct (heappop_perm heap x heap' E) as [Hperm _].
    rewrite IH; [done|]. apply Permutation_length in Hperm. simpl in Hperm. lia.
  - unfold heapq.heappop in E. destruct (last heap) eqn:El.
    + by destruct (removelast heap).
    + by apply last_None in El as ->.
Qed.

Lemma heap_sort_perm heap : heap_sort lt heap ≡ₚ heap.
Proof. by apply heap_sort_loop_perm. Qed.

End Facts.
End heapq_perm.

(** ** The per-domain queue, whatever the order of its heap *)

Module queue_more_facts.
Import RequestsPriorityQueue RequestsPriorityQueue_random observe.
Import heap_props queue_props run_props queue_more queue_facts.
Open Scope list_scope.

Lemma omap_filter_active {B C} (f : B -> option C) (P : B -> Prop)
    `{forall x, Decision (P x)} (l : list B) :
  (forall x, ~ P x -> f x = None) -> omap f (filter P l) = omap f l.
Proof.
  intros Hf. induction l as [|x l IH]; [done|].
  destruct (decide (P x)) as [HP|HP].
  - rewrite filter_cons_True by done.
    change (omap f (x :: filter P l))
      with (match f x with Some y => y :: omap f (filter P l) | None => omap f (filter P l) end).
    by rewrite IH.
  - rewrite filter_cons_False by done.
    change (omap f (x :: l))
      with (match f x with Some y => y :: omap f l | None => omap f l end).
    by rewrite (Hf x HP), IH.
Qed.

Lemma omap_cons {B C} (f : B -> option C) x l :
  omap f (x :: l) = match f x with Some y => y :: omap f l | None => omap f l end.
Proof. done. Qed.

(** The live requests of a queue: one for every entry of the heap that is no
    tombstone, in the order of the heap list. *)
Lemma iter_requests_omap q :
  iter_requests q = omap (live_request (arena q)) (entries q).
Proof.
  unfold iter_requests, iter_active_entries.
  apply (omap_filter_active (live_request (arena q))).
  intros h Hh. unfold live_request. unfold handle_is_active, entry_is_active in Hh.
  by destruct (item (deref (arena q) h)).
Qed.

Lemma heappop_nil_inv {A} (lt : A -> A -> bool) heap :
  heapq.heappop lt heap = None -> heap = [].
Proof.
  unfold heapq.heappop. destruct (last heap) eqn:E.
  - by destruct (removelast heap).
  - intros _. by apply last_None.
Qed.

Lemma pop_loop_spec fuel : forall q,
  (length (entries q) <= fuel)%nat ->
  arena (pop_loop fuel q).2 = arena q /\
  (length (entries (pop_loop fuel q).2) <= length (entries q))%nat /\
  match (pop_loop fuel q).1 with
  | Some r =>
      iter_requests q ≡ₚ r :: iter_requests (pop_loop fuel q).2 /\
      (length (entries (pop_loop fuel q).2) < length (entries q))%nat
  | None => iter_requests q = [] /\ entries (pop_loop fuel q).2 = []
  end.
Proof.
  induction fuel as [|fuel IH]; intros q Hfuel.
  { assert (E : entries q = []) by (destruct (entries q); [done | simpl in Hfuel; lia]).
    simpl. by rewrite iter_requests_omap, E. }
  rewrite pop_loop_S.
  destruct (heapq.heappop (handle_lt (arena q)) (entries q)) as [[h es]|] eqn:E; cycle 1.
  { apply heappop_nil_inv in E. simpl. by rewrite iter_requests_omap, E. }
  destruct (heapq_perm.heappop_perm _ _ _ _ E) as [Hperm _].
  pose proof (Permutation_length Hperm) as Hlen. simpl in Hlen.
  assert (Hreq : iter_requests q ≡ₚ
                 omap (live_request (arena q)) (h :: es)).
  { by rewrite iter_requests_omap, Hperm. }
  rewrite omap_cons in Hreq.
  destruct (live_request (arena q) h) as [r|] eqn:Eh;
    cbn [fst snd arena entries with_entries].
  - split_and!; [done | lia | | lia].
    rewrite Hreq. by rewrite (iter_requests_omap (with_entries q es)).
  - destruct (IH (with_entries q es)) as (Har & Hle & Hres); [simpl; lia|].
    cbn [arena entries with_entries] in *. split_and!; [done | lia |].
    destruct (pop_loop fuel (with_entries q es)).1 as [r|].
    + destruct Hres as [Hres ?]. split; [|lia].
      rewrite Hreq, <- Hres. by rewrite (iter_requests_omap (with_entries q es)).
    + destruct Hres as [Hres ?]. split; [|done].
      rewrite iter_requests_omap in Hres. cbn [arena entries with_entries] in Hres.
      rewrite Hres in Hreq. by apply Permutation_nil_r in Hreq.
Qed.

(** X1: [pop], on a queue in any state.  It returns a live request and takes
    it, and nothing else that is live, out of the queue; it returns [None]
    exactly when the queue holds no live request, and then the queue is left
    without entries.  The entries themselves are never changed. *)
Theorem pop_takes_one_live_request (q : RequestsPriorityQueue) :
  arena (pop q).2 = arena q /\
  match (pop q).1 with
  | Some r =>
      iter_requests q ≡ₚ r :: iter_requests (pop q).2 /\
      (__len__ (pop q).2 < __len__ q)%nat
  | None => iter_requests q = [] /\ entries (pop q).2 = []
  end.
Proof.
  unfold pop, __len__.
  destruct (pop_loop_spec (length (entries q)) q) as (Har & _ & Hres); [lia|].
  by split.
Qed.

Lemma pop_shortens q r q' :
  pop q = (Some r, q') -> (length (entries q') < length (entries q))%nat.
Proof.
  unfold pop. intros Hpop.
  destruct (pop_loop_spec (length (entries q)) q) as (_ & _ & Hres); [lia|].
  rewrite Hpop in Hres. apply Hres.
Qed.

Lemma drain_perm q :
  drain q ≡ₚ omap (live_request (arena q)) (entries q).
Proof. by rewrite drain_heap_sort, heapq_perm.heap_sort_perm. Qed.

(** X2: repeated [pop] returns every live request of the queue once and
    nothing else, in whatever state the heap is. *)
Theorem drain_returns_the_live_requests (q : RequestsPriorityQueue) :
  drain q ≡ₚ iter_requests q.
Proof. rewrite iter_requests_omap. apply drain_perm. Qed.

Lemma _pop_empty_loop_spec fuel : forall q,
  (length (entries q) <= fuel)%nat ->
  let q' := _pop_empty_loop fuel q in
  arena q' = arena q /\
  (length (entries q') <= length (entries q))%nat /\
  (entries q' = [] \/ exists r, next_request q' = Some (Live r)) /\
  iter_requests q' ≡ₚ iter_requests q /\
  entries q' ⊆ entries q.
Proof.
  induction fuel as [|fuel IH]; intros q Hfuel.
  { assert (E : entries q = []) by (destruct (entries q); [done | simpl in Hfuel; lia]).
    simpl. repeat split; auto. }
  cbn [_pop_empty_loop].
  destruct (next_request q) as [[|r]|] eqn:En.
  - destruct (heapq.heappop (handle_lt (arena q)) (entries q)) as [[h es]|] eqn:E; cycle 1.
    { apply heappop_nil_inv in E. unfold next_request in En. by rewrite E in En. }
    destruct (heapq_perm.heappop_perm _ _ _ _ E) as [Hperm Hroot].
    pose proof (Permutation_length Hperm) as Hlen. simpl in Hlen.
    assert (Hh : live_request (arena q) h = None).
    { unfold next_request in En. destruct (entries q) as [|h0 es0]; [done|].
      simpl in Hroot. injection Hroot as ->. injection En as En.
      unfold live_request. by rewrite En. }
    destruct (IH (with_entries q es)) as (Har & Hle & Hroot' & Hreq & Hsub); [simpl; lia|].
    cbn [arena entries with_entries] in *. split_and!; [done | lia | done | |].
    + rewrite Hreq, (iter_requests_omap q), (iter_requests_omap (with_entries q es)).
      cbn [arena entries with_entries]. by rewrite <- Hperm, omap_cons, Hh.
    + intros x Hx. rewrite <- Hperm. right. by apply Hsub.
  - split_and!; eauto.
  - split_and!; auto. left. unfold next_request in En. by destruct (entries q).
Qed.

Lemma _pop_empty_requests q : iter_requests (_pop_empty q) ≡ₚ iter_requests q.
Proof.
  by destruct (_pop_empty_loop_spec (length (entries q)) q) as (_ & _ & _ & H & _); [lia|].
Qed.


(** *** What every operation keeps *)

Lemma sound_well_formed q : sound q -> well_formed q.
Proof. intros (? & _ & ?). by split. Qed.

Lemma sound_init fifo : sound (__init__ fifo).
Proof.
  split_and!.
  - intros h Hh. by apply elem_of_nil in Hh.
  - constructor.
  - intros h e r Hh. done.
Qed.

Lemma push_sound q r : sound q -> sound (push q r).2.
Proof.
  intros Hq. pose proof Hq as (Hvalid & Hnd & Hkeys).
  destruct (push_well_formed q r (sound_well_formed q Hq)) as [Hvalid' Hkeys'].
  split_and!; [done | | done].
  rewrite push_entries_perm. apply NoDup_cons. split; [|done].
  intros Hin. apply Hvalid in Hin. lia.
Qed.

Lemma heappop_sound q h es :
  sound q -> heapq.heappop (handle_lt (arena q)) (entries q) = Some (h, es) ->
  sound (with_entries q es).
Proof.
  intros (Hvalid & Hnd & Hkeys) E.
  destruct (heapq_perm.heappop_perm _ _ _ _ E) as [Hperm _].
  rewrite <- Hperm in Hnd. apply NoDup_cons in Hnd as [_ Hnd].
  split_and!; [|done|done].
  intros h' Hh'. apply Hvalid. rewrite <- Hperm. by right.
Qed.

Lemma pop_loop_sound fuel : forall q, sound q -> sound (pop_loop fuel q).2.
Proof.
  induction fuel as [|fuel IH]; intros q Hq; [done|].
  rewrite pop_loop_S.
  destruct (heapq.heappop _ _) as [[h es]|] eqn:E; [|done].
  pose proof (heappop_sound q h es Hq E).
  destruct (live_request (arena q) h); [done | by apply IH].
Qed.

Lemma _pop_empty_loop_sound fuel : forall q, sound q -> sound (_pop_empty_loop fuel q).
Proof.
  induction fuel as [|fuel IH]; intros q Hq; [done|].
  cbn [_pop_empty_loop].
  destruct (next_request q) as [[|r]|]; [|done..].
  destruct (heapq.heappop _ _) as [[h es]|] eqn:E; [|done].
  apply IH. by eapply heappop_sound.
Qed.

Lemma heapify_sound q : sound q -> sound (heapify q).
Proof.
  intros (Hvalid & Hnd & Hkeys). unfold heapify, _pop_empty.
  apply _pop_empty_loop_sound.
  pose proof (heapq_perm.heapify_perm (handle_lt (arena q)) (entries q)) as Hperm.
  split_and!; cbn [arena entries with_entries]; [|by rewrite Hperm|done].
  intros h Hh. apply Hvalid. by rewrite Hperm in Hh.
Qed.

Lemma remove_entry_entries q h : entries (remove_entry q h).2 = entries q.
Proof. unfold remove_entry. by destruct (arena q !! h). Qed.

Lemma change_priority_entries q h p : entries (change_priority q h p) = entries q.
Proof. done. Qed.

Lemma remove_entry_sound q h : sound q -> sound (remove_entry q h).2.
Proof.
  intros Hq. pose proof Hq as (_ & Hnd & _).
  destruct (remove_entry_well_formed q h (sound_well_formed q Hq)) as [Hvalid' Hkeys'].
  split_and!; [done | by rewrite remove_entry_entries | done].
Qed.

Lemma change_priority_sound q h p : sound q -> sound (change_priority q h p).
Proof.
  intros Hq. pose proof Hq as (_ & Hnd & _).
  destruct (change_priority_well_formed q h p (sound_well_formed q Hq)) as [Hvalid' Hkeys'].
  by split_and!.
Qed.

Lemma fold_change_priority_sound changes : forall q,
  sound q ->
  sound (fold_left (fun q' '(entry, priority) => change_priority q' entry priority)
           changes q).
Proof.
  induction changes as [|[h p] changes IH]; intros q Hq; simpl; [done|].
  apply IH. by apply change_priority_sound.
Qed.

Lemma update_all_priorities_sound q f : sound q -> sound (update_all_priorities q f).
Proof.
  intros Hq. unfold update_all_priorities.
  by apply heapify_sound, fold_change_priority_sound.
Qed.

Lemma pop_random_loop_sound rnd n : forall q k,
  sound q -> sound (pop_random_loop rnd n q k).1.2.
Proof.
  induction n as [|n IH]; intros q k Hq; [done|].
  cbn [pop_random_loop].
  destruct (random_choice rnd k (entries q)) as [h|]; [|done].
  destruct (handle_is_active (arena q) h); [|by apply IH].
  pose proof (remove_entry_sound q h Hq) as H.
  by destruct (remove_entry q h) as [[|r] q'].
Qed.

Lemma pop_random_sound rnd n q k : sound q -> sound (pop_random rnd n q k).1.2.
Proof.
  intros Hq. unfold pop_random.
  pose proof (_pop_empty_loop_sound (length (entries q)) q Hq) as H.
  fold (_pop_empty q) in H.
  destruct (entries (_pop_empty q)); [done|].
  by apply pop_random_loop_sound.
Qed.

Lemma step_any_sound q o : sound q -> sound (step_any q o).
Proof.
  intros Hq. destruct o; simpl.
  - by apply push_sound.
  - by apply pop_loop_sound.
  - by apply heapify_sound.
  - by apply remove_entry_sound.
  - by apply change_priority_sound.
  - by apply update_all_priorities_sound.
  - by apply pop_random_sound.
Qed.

Lemma run_any_sound ops : forall q, sound q -> sound (run_any ops q).
Proof.
  unfold run_any. induction ops as [|o ops IH]; intros q Hq; simpl; [done|].
  apply IH. by apply step_any_sound.
Qed.

Lemma deref_insert_eq ar h e : (h < length ar)%nat -> deref (<[h := e]> ar) h = e.
Proof. intros H. unfold deref. by rewrite list_lookup_insert_eq. Qed.

Lemma deref_insert_ne ar h h' e : h <> h' -> deref (<[h := e]> ar) h' = deref ar h'.
Proof. intros H. unfold deref. by rewrite list_lookup_insert_ne. Qed.

Lemma omap_ext_in {B C} (f g : B -> option C) (l : list B) :
  (forall x, x ∈ l -> f x = g x) -> omap f l = omap g l.
Proof.
  intros H. induction l as [|x l IH]; [done|].
  rewrite !omap_cons, (H x) by (by left).
  rewrite IH; [done|]. intros y Hy. apply H. by right.
Qed.

(** Taking one item of a list without repetitions out of the domain of [f]. *)
Lemma omap_remove {B C} `{EqDecision B} (f f' : B -> option C) (l : list B) h r :
  NoDup l -> h ∈ l -> f h = Some r -> f' h = None ->
  (forall x, x <> h -> f' x = f x) ->
  omap f l ≡ₚ r :: omap f' l.
Proof.
  intros Hnd Hin Hf Hf' Hother. induction l as [|x l IH]; [by apply elem_of_nil in Hin|].
  apply NoDup_cons in Hnd as [Hx Hnd]. rewrite !omap_cons.
  destruct (decide (x = h)) as [->|Hne].
  - rewrite Hf, Hf'. apply Permutation_skip.
    rewrite (omap_ext_in f f'); [done|].
    intros y Hy. symmetry. apply Hother. intros ->. done.
  - rewrite (Hother x Hne).
    apply elem_of_cons in Hin as [->|Hin]; [done|].
    destruct (f x) as [y|]; [|by apply IH].
    rewrite (IH Hnd Hin). apply Permutation_swap.
Qed.

Lemma push_requests q r :
  sound q -> iter_requests (push q r).2 ≡ₚ r :: iter_requests q.
Proof.
  intros (Hvalid & Hnd & Hkeys).
  rewrite !iter_requests_omap, push_entries_perm, omap_cons.
  unfold push at 1 2. cbn [snd arena].
  assert (Hnew : live_request (arena q ++ [mkEntry (- priority r) (counter q) (Live r)])
                   (length (arena q)) = Some r).
  { unfold live_request, deref. by rewrite lookup_app_r, Nat.sub_diag. }
  rewrite Hnew. apply Permutation_skip. unfold push. cbn [snd arena].
  rewrite (omap_ext_in _ (live_request (arena q))); [done|].
  intros h Hh. unfold live_request. by rewrite deref_app_l by auto.
Qed.

(** X5: [push], on a queue reached by any operations.  The entry it returns
    is new and holds the negated priority, the value of the counter and the
    request; the counter moves on by [step]; the queue is one entry longer
    and its live requests are the old ones and the pushed one. *)
Theorem push_adds_one_live_request (fifo : bool) (ops : list any_op) (r : Request) :
  let q := run_any ops (__init__ fifo) in
  let '(h, q') := push q r in
  ((h ∉ entries q) /\ h ∈ entries q' /\
   arena q' !! h = Some (mkEntry (- priority r) (counter q) (Live r)) /\
   (forall h', (h' < length (arena q))%nat -> arena q' !! h' = arena q !! h') /\
   counter q' = counter q + step q /\
   __len__ q' = S (__len__ q) /\
   iter_requests q' ≡ₚ r :: iter_requests q).
Proof.
  intros q. pose proof (run_any_sound ops _ (sound_init fifo)) as Hq. fold q in Hq.
  pose proof Hq as (Hvalid & Hnd & Hkeys).
  destruct (push q r) as [h q'] eqn:E.
  assert (Hh : h = length (arena q)) by (by injection E as <- _).
  assert (Hq' : q' = (push q r).2) by (by rewrite E).
  subst h q'. split_and!.
  - intros Hin. apply Hvalid in Hin. lia.
  - rewrite push_entries_perm. by left.
  - unfold push. cbn [snd arena]. by rewrite lookup_app_r, Nat.sub_diag.
  - intros h' Hh'. unfold push. cbn [snd arena]. by rewrite lookup_app_l.
  - done.
  - unfold __len__. by rewrite (Permutation_length (push_entries_perm q r)).
  - by apply push_requests.
Qed.

Lemma remove_entry_spec q h r :
  sound q -> h ∈ entries q -> live_request (arena q) h = Some r ->
  let q' := (remove_entry q h).2 in
  (remove_entry q h).1 = Live r /\
  entries q' = entries q /\
  live_request (arena q') h = None /\
  iter_requests q ≡ₚ r :: iter_requests q' /\
  (remove_entry q' h).1 = REMOVED.
Proof.
  intros (Hvalid & Hnd & Hkeys) Hin Hlive q'.
  pose proof (Hvalid h Hin) as Hlt.
  destruct (arena q !! h) as [e|] eqn:Ee; cycle 1.
  { apply lookup_ge_None in Ee. lia. }
  assert (Hitem : item e = Live r).
  { unfold live_request, deref in Hlive. rewrite Ee in Hlive. simpl in Hlive.
    by destruct (item e); simplify_eq. }
  assert (Har : arena q' = <[h := mkEntry
                  (- (match root_key q with None => 0 | Some k => - k end
                      + REMOVED_PRIORITY)) (count e) REMOVED]> (arena q)).
  { subst q'. unfold remove_entry. by rewrite Ee. }
  assert (Hdead : live_request (arena q') h = None).
  { unfold live_request. rewrite Har, deref_insert_eq by done. done. }
  split_and!.
  - unfold remove_entry. by rewrite Ee.
  - apply remove_entry_entries.
  - done.
  - rewrite (iter_requests_omap q), (iter_requests_omap q').
    replace (entries q') with (entries q) by (symmetry; apply remove_entry_entries).
    apply (omap_remove _ _ _ h); [done..|].
    intros x Hx. unfold live_request. by rewrite Har, deref_insert_ne.
  - unfold remove_entry at 1. rewrite Har, list_lookup_insert_eq by done. done.
Qed.

(** X6: [remove_entry] of a live entry of the heap, on a queue reached by any
    operations.  It returns the request of the entry; the entry stays in the
    heap as a tombstone, so the length is the same; the live requests are
    the old ones without the returned one; and a second [remove_entry] of
    the entry returns the tombstone mark. *)
Theorem remove_entry_takes_its_request (fifo : bool) (ops : list any_op)
    (h : nat) (r : Request) :
  let q := run_any ops (__init__ fifo) in
  h ∈ entries q -> live_request (arena q) h = Some r ->
  let q' := (remove_entry q h).2 in
  (remove_entry q h).1 = Live r /\
  entries q' = entries q /\
  live_request (arena q') h = None /\
  iter_requests q ≡ₚ r :: iter_requests q' /\
  (remove_entry q' h).1 = REMOVED.
Proof.
  intros q Hin Hlive. apply remove_entry_spec; [|done..].
  apply run_any_sound, sound_init.
Qed.

Lemma remove_entry_takes_its_request_witness :
  let q := run_any [APush (request "a" 5); APush (request "b" 3)] (__init__ true) in
  1%nat ∈ entries q /\ live_request (arena q) 1%nat = Some (request "b" 3) /\
  iter_requests q ≡ₚ request "b" 3 :: iter_requests (remove_entry q 1%nat).2.
Proof.
  intros q.
  assert (H1 : 1%nat ∈ entries q) by (vm_compute; repeat constructor).
  assert (H2 : live_request (arena q) 1%nat = Some (request "b" 3)) by reflexivity.
  split; [exact H1 | split; [exact H2|]].
  apply (remove_entry_takes_its_request true
           [APush (request "a" 5); APush (request "b" 3)] 1%nat _ H1 H2).
Defined.

(** *** With the heap in order *)

Lemma run_push_all fifo rs :
  push_all (__init__ fifo) rs = run (Push <$> rs) (__init__ fifo).
Proof.
  unfold push_all, run. generalize (__init__ fifo).
  induction rs as [|r rs IH]; intros q; simpl; [done | apply IH].
Qed.

Lemma live_root_is_top q r :
  well_formed q -> heap_ordered q -> next_request q = Some (Live r) ->
  exists rest, iter_requests q = r :: rest /\
    Forall (fun r' => priority r' <= priority r) rest /\
    max_priority q = priority r.
Proof.
  intros [Hvalid Hkeys] Hheap Hroot.
  unfold next_request in Hroot. destruct (entries q) as [|h es] eqn:Ees; [done|].
  injection Hroot as Hroot.
  assert (Hlive : live_request (arena q) h = Some r)
    by (unfold live_request; by rewrite Hroot).
  exists (omap (live_request (arena q)) es). split_and!.
  - by rewrite iter_requests_omap, Ees, omap_cons, Hlive.
  - apply Forall_forall. intros r' Hr'.
    apply list_elem_of_omap in Hr' as (h' & Hh' & Hlive').
    apply list_elem_of_lookup in Hh' as [i Hi].
    unfold heap_ordered in Hheap. rewrite Ees in Hheap.
    pose proof (heap_facts.heap_root_min _ (handle_lt_order (arena q)) (h :: es) h
                  Hheap eq_refl (S i) h' Hi) as Hle.
    unfold handle_lt in Hle. apply entry_lt_false in Hle.
    apply (live_request_key _ _ _ Hkeys) in Hlive, Hlive'. lia.
  - unfold max_priority. rewrite Ees.
    apply (live_request_key _ _ _ Hkeys) in Hlive. lia.
Qed.

(** X8: [heapify], on a queue reached by any operations.  It puts the heap
    in order and keeps the live requests; afterwards the queue is empty or
    has a live request at its root; and when no request is live it reclaims
    every tombstone, so that [max_priority] is [EMPTY_PRIORITY]. *)
Theorem heapify_restores_the_heap (fifo : bool) (ops : list any_op) :
  let q := run_any ops (__init__ fifo) in
  let q' := heapify q in
  heap_ordered q' /\
  iter_requests q' ≡ₚ iter_requests q /\
  (entries q' = [] \/ exists r, next_request q' = Some (Live r)) /\
  (iter_requests q = [] -> entries q' = [] /\ max_priority q' = EMPTY_PRIORITY).
Proof.
  intros q q'.
  pose proof (run_any_sound ops _ (sound_init fifo)) as Hq. fold q in Hq.
  destruct (heapify_well_formed q (sound_well_formed q Hq)) as [_ Hheap].
  pose proof (heapq_perm.heapify_perm (handle_lt (arena q)) (entries q)) as Hperm.
  destruct (_pop_empty_loop_spec
              (length (heapq.heapify (handle_lt (arena q)) (entries q)))
              (with_entries q (heapq.heapify (handle_lt (arena q)) (entries q))))
    as (_ & _ & Hroot & Hreq & _); [done|].
  change (_pop_empty_loop _ _) with (heapify q) in Hroot, Hreq.
  fold q' in Hroot, Hreq.
  assert (Hsame : iter_requests q' ≡ₚ iter_requests q).
  { rewrite Hreq, !iter_requests_omap. cbn [arena entries with_entries].
    by rewrite Hperm. }
  split_and!; [done..|].
  intros Hnone. rewrite Hnone in Hsame. apply Permutation_nil_r in Hsame.
  destruct Hroot as [Hempty | [r Hr]].
  - split; [done|]. by apply max_priority_no_entries.
  - exfalso. unfold next_request in Hr. rewrite iter_requests_omap in Hsame.
    destruct (entries q') as [|h es]; [done|]. injection Hr as Hr.
    rewrite omap_cons in Hsame. unfold live_request at 1 in Hsame.
    rewrite Hr in Hsame. done.
Qed.

Lemma drain_pop q r q' :
  pop q = (Some r, q') -> drain q = r :: drain q'.
Proof.
  intros Hpop. unfold drain at 1. rewrite drain_loop_S, Hpop. f_equal.
  pose proof (pop_shortens q r q' Hpop) as Hlen.
  rewrite drain_heap_sort.
  apply (drain_pop_heap_sort (length (entries q')) q'); lia.
Qed.

(** [pop] on a queue whose entries form a heap returns a request of the
    greatest priority among the live requests, and leaves a heap. *)
Lemma pop_top q r :
  well_formed q -> heap_ordered q ->
  (pop q).1 = Some r ->
  r ∈ iter_requests q /\
  (forall r', r' ∈ iter_requests q -> priority r' <= priority r) /\
  heap_ordered (pop q).2.
Proof.
  intros Hwf Hheap Hpop.
  destruct (pop q) as [res q'] eqn:E. simpl in Hpop. subst res.
  pose proof (drain_pop q r q' E) as Hdrain.
  pose proof (drain_non_increasing q Hwf Hheap) as Hsorted.
  rewrite Hdrain in Hsorted. unfold non_increasing in Hsorted.
  rewrite fmap_cons in Hsorted. apply StronglySorted_inv in Hsorted as [_ Hle].
  pose proof (drain_perm q) as Hperm. rewrite <- iter_requests_omap, Hdrain in Hperm.
  split_and!.
  - rewrite <- Hperm. by left.
  - intros r' Hr'. rewrite <- Hperm in Hr'.
    apply elem_of_cons in Hr' as [->|Hr']; [lia|].
    rewrite Forall_forall in Hle. apply Hle. by apply list_elem_of_fmap_2.
  - pose proof (pop_loop_well_formed (length (entries q)) q Hwf Hheap) as [_ H].
    fold (pop q) in H. by rewrite E in H.
Qed.

(** *** update_all_priorities *)

Lemma heapify_keeps_requests q : iter_requests (heapify q) ≡ₚ iter_requests q.
Proof.
  pose proof (heapq_perm.heapify_perm (handle_lt (arena q)) (entries q)) as Hperm.
  pose proof (_pop_empty_requests
              (with_entries q (heapq.heapify (handle_lt (arena q)) (entries q))))
    as Hreq.
  fold (heapify q) in Hreq.
  rewrite Hreq, !iter_requests_omap. cbn [arena entries with_entries].
  by rewrite Hperm.
Qed.

Lemma live_request_alter_eq ar h p :
  live_request (alter (fun e => change_priority_entry e p) h ar) h
  = (fun r => set_priority r p) <$> live_request ar h.
Proof.
  unfold live_request, deref. rewrite list_lookup_alter_eq.
  destruct (ar !! h) as [e|]; simpl; [|done]. by destruct (item e).
Qed.

Lemma live_request_alter_ne ar h h' p :
  h <> h' ->
  live_request (alter (fun e => change_priority_entry e p) h ar) h'
  = live_request ar h'.
Proof. intros H. unfold live_request, deref. by rewrite list_lookup_alter_ne. Qed.

Lemma live_request_change_all changes : forall ar h,
  h ∉ changes.*1 -> live_request (change_all ar changes) h = live_request ar h.
Proof.
  unfold change_all.
  induction changes as [|[h0 p] changes IH]; intros ar h Hh; simpl; [done|].
  rewrite fmap_cons in Hh. apply not_elem_of_cons in Hh as [Hne Hh].
  rewrite IH by done. by apply live_request_alter_ne.
Qed.

Lemma elem_of_zip_fst {B C} (l : list B) (k : list C) x :
  x ∈ (zip l k).*1 -> x ∈ l.
Proof.
  revert k. induction l as [|y l IH]; intros [|z k]; simpl; try (by intros ?%elem_of_nil).
  intros [->|H]%elem_of_cons; [by left | right; by eapply IH].
Qed.

Lemma omap_change_all hs : forall ps ar,
  NoDup hs -> (forall h, h ∈ hs -> is_Some (live_request ar h)) ->
  omap (live_request (change_all ar (zip hs ps))) hs
  = zip_with set_priority (omap (live_request ar) hs) ps
    ++ drop (length ps) (omap (live_request ar) hs).
Proof.
  induction hs as [|h hs IH]; intros ps ar Hnd Hlive.
  { by destruct ps. }
  apply NoDup_cons in Hnd as [Hh Hnd].
  destruct ps as [|p ps]; [by rewrite !zip_with_nil_r|].
  destruct (Hlive h ltac:(by left)) as [r Hr].
  change (zip (h :: hs) (p :: ps)) with ((h, p) :: zip hs ps).
  change (change_all ar ((h, p) :: zip hs ps))
    with (change_all (alter (fun e => change_priority_entry e p) h ar) (zip hs ps)).
  set (ar1 := alter (fun e => change_priority_entry e p) h ar).
  assert (Hext : omap (live_request ar1) hs = omap (live_request ar) hs).
  { apply omap_ext_in. intros x Hx. apply live_request_alter_ne. by intros ->. }
  rewrite !omap_cons, Hr.
  rewrite live_request_change_all by (intros Hin; by apply elem_of_zip_fst in Hin).
  unfold ar1 at 1. rewrite live_request_alter_eq, Hr. simpl.
  rewrite IH, Hext; [done | done |].
  intros x Hx. unfold ar1. rewrite live_request_alter_ne by (by intros ->).
  apply Hlive. by right.
Qed.

Lemma fold_change_priority_arena changes : forall q,
  arena (fold_left (fun q' '(entry, priority) => change_priority q' entry priority)
           changes q) = change_all (arena q) changes /\
  entries (fold_left (fun q' '(entry, priority) => change_priority q' entry priority)
             changes q) = entries q.
Proof.
  unfold change_all.
  induction changes as [|[h p] changes IH]; intros q; simpl; [done|].
  destruct (IH (change_priority q h p)) as [-> ->]. done.
Qed.

(** [update_all_priorities] on a sound queue.  The function is given the
    live requests in the order of [iter_requests]; afterwards the live
    requests are those, each with the priority the function returned at its
    place, and unchanged from the place on where the returned list ends; the
    heap is in order and every key is the negated priority of its request. *)
Lemma update_all_priorities_spec (q : RequestsPriorityQueue)
    (compute : list Request -> list Z) :
  sound q ->
  let rs := iter_requests q in
  let q' := update_all_priorities q compute in
  iter_requests q' ≡ₚ
    zip_with set_priority rs (compute rs) ++ drop (length (compute rs)) rs /\
  heap_ordered q' /\
  keys_consistent (arena q').
Proof.
  intros Hq rs q'.
  pose proof Hq as (Hvalid & Hnd & Hkeys).
  set (changes := zip (iter_active_entries q) (compute rs)).
  set (q1 := fold_left (fun q' '(entry, priority) => change_priority q' entry priority)
               changes q).
  assert (Hq' : q' = heapify q1) by done.
  destruct (fold_change_priority_arena changes q) as [Har Hes]. fold q1 in Har, Hes.
  pose proof (fold_change_priority_sound changes q Hq) as Hq1. fold q1 in Hq1.
  split_and!.
  - rewrite Hq', heapify_keeps_requests, (iter_requests_omap q1), Har, Hes.
    assert (Hactive : forall h, h ∈ iter_active_entries q ->
                        is_Some (live_request (arena q) h)).
    { intros h Hh. apply list_elem_of_filter in Hh as [Hh _].
      unfold handle_is_active, entry_is_active in Hh. unfold live_request.
      destruct (item (deref (arena q) h)); [done | eauto]. }
    assert (Hrs : rs = omap (live_request (arena q)) (iter_active_entries q)).
    { subst rs. rewrite iter_requests_omap. symmetry.
      apply (omap_filter_active (live_request (arena q))).
      intros h Hh. unfold live_request. unfold handle_is_active, entry_is_active in Hh.
      by destruct (item (deref (arena q) h)). }
    unfold changes. generalize (compute rs) as ps. intros ps. rewrite Hrs.
    rewrite <- (omap_change_all (iter_active_entries q) ps (arena q));
      [| by apply NoDup_filter | done].
    set (changes' := zip (iter_active_entries q) ps). apply eq_subrelation; [apply _|]. symmetry.
    apply (omap_filter_active (live_request (change_all (arena q) changes'))).
    intros h Hh.
    rewrite live_request_change_all.
    + unfold live_request. unfold handle_is_active, entry_is_active in Hh.
      by destruct (item (deref (arena q) h)).
    + intros Hin. apply elem_of_zip_fst in Hin.
      by apply list_elem_of_filter in Hin as [? _].
  - rewrite Hq'. by apply heapify_well_formed, sound_well_formed.
  - rewrite Hq'. by apply heapify_sound.
Qed.

(** *** pop_random *)

Lemma pop_random_loop_spec rnd n : forall q k,
  sound q ->
  let '(res, q', k') := pop_random_loop rnd n q k in
  (k <= k' <= k + n)%nat /\
  match res with
  | Some r => r ∈ iter_requests q /\
              iter_requests q ≡ₚ r :: iter_requests q' /\ entries q' = entries q
  | None => q' = q
  end.
Proof.
  induction n as [|n IH]; intros q k Hq; cbn [pop_random_loop].
  { split; [lia | done]. }
  destruct (random_choice rnd k (entries q)) as [h|] eqn:Eh; [|split; [lia | done]].
  destruct (handle_is_active (arena q) h) eqn:Ea; cycle 1.
  { specialize (IH q (S k) Hq).
    destruct (pop_random_loop rnd n q (S k)) as [[res q'] k'].
    destruct IH as [Hk Hres]. split; [lia | done]. }
  assert (Hin : h ∈ entries q).
  { unfold random_choice in Eh. by eapply list_elem_of_lookup_2. }
  assert (Hlive : exists r, live_request (arena q) h = Some r).
  { unfold handle_is_active, entry_is_active in Ea. unfold live_request.
    destruct (item (deref (arena q) h)); [done | eauto]. }
  destruct Hlive as [r Hr].
  destruct (remove_entry_spec q h r Hq Hin Hr) as (H1 & H2 & _ & H4 & _).
  destruct (remove_entry q h) as [p q'] eqn:E. simpl in *. subst p.
  split; [lia|]. split_and!; [|done..].
  rewrite H4. by left.
Qed.

Lemma pop_random_spec rnd n_attempts q k :
  sound q ->
  let '(res, q', k') := pop_random rnd n_attempts q k in
  (k <= k' <= k + n_attempts)%nat /\
  match res with
  | Some r => r ∈ iter_requests q /\
              iter_requests q ≡ₚ r :: iter_requests q' /\
              __len__ q' = __len__ (_pop_empty q)
  | None => iter_requests q' ≡ₚ iter_requests q
  end /\
  (iter_requests q = [] -> res = None).
Proof.
  intros Hq.
  pose proof (_pop_empty_requests q) as Hreq.
  pose proof (_pop_empty_loop_sound (length (entries q)) q Hq) as Hq0.
  fold (_pop_empty q) in Hq0.
  unfold pop_random.
  destruct (entries (_pop_empty q)) as [|h0 es0] eqn:Ees.
  { split_and!; [lia | lia | done | done]. }
  pose proof (pop_random_loop_spec rnd n_attempts (_pop_empty q) k Hq0) as H.
  destruct (pop_random_loop rnd n_attempts (_pop_empty q) k) as [[res q'] k'].
  destruct H as [Hk Hres]. split_and!; [lia | lia | |].
  - destruct res as [r|].
    + destruct Hres as (Hin & Hperm & Hes). split_and!.
      * by rewrite <- Hreq.
      * by rewrite <- Hreq.
      * unfold __len__. by rewrite Hes.
    + by subst q'.
  - intros Hnone. destruct res as [r|]; [|done].
    destruct Hres as (Hin & _). rewrite Hreq, Hnone in Hin.
    by apply elem_of_nil in Hin.
Qed.

(** X11: [pop_random], on a queue reached by any operations, with any draws.
    A request it returns was live in the queue and is live no more, its
    entry staying in the heap as a tombstone; the other live requests are
    kept, also when it returns [None]; it draws at most [n_attempts] times;
    and it returns [None] when no request is live. *)
Theorem pop_random_takes_one_live_request (fifo : bool) (ops : list any_op)
    (rnd : Random) (n_attempts k : nat) :
  let q := run_any ops (__init__ fifo) in
  let '(res, q', k') := pop_random rnd n_attempts q k in
  (k <= k' <= k + n_attempts)%nat /\
  match res with
  | Some r => r ∈ iter_requests q /\
              iter_requests q ≡ₚ r :: iter_requests q' /\
              __len__ q' = __len__ (_pop_empty q)
  | None => iter_requests q' ≡ₚ iter_requests q
  end /\
  (iter_requests q = [] -> res = None).
Proof. intros q. apply pop_random_spec, run_any_sound, sound_init. Qed.

(** *** What the balancing queue needs of its queues *)

Lemma pop_random_loop_frame rnd n : forall q k,
  entries (pop_random_loop rnd n q k).1.2 = entries q /\
  (k <= (pop_random_loop rnd n q k).2 <= k + n)%nat.
Proof.
  induction n as [|n IH]; intros q k; cbn [pop_random_loop]; [split; [done | simpl; lia]|].
  destruct (random_choice rnd k (entries q)) as [h|]; [|split; [done | simpl; lia]].
  destruct (handle_is_active (arena q) h).
  - pose proof (remove_entry_entries q h) as H.
    destruct (remove_entry q h) as [p q']. simpl in *. split; [done | lia].
  - destruct (IH q (S k)) as [H1 H2]. split; [done | lia].
Qed.

Lemma pop_random_frame rnd n q k :
  (__len__ (pop_random rnd n q k).1.2 <= __len__ q)%nat /\
  (k <= (pop_random rnd n q k).2 <= k + n)%nat.
Proof.
  destruct (_pop_empty_loop_spec (length (entries q)) q) as (_ & Hle & _); [lia|].
  fold (_pop_empty q) in Hle. unfold pop_random, __len__.
  destruct (pop_random_loop_frame rnd n (_pop_empty q) k) as [H1 H2].
  destruct (entries (_pop_empty q)) eqn:E.
  - simpl. rewrite E. simpl. lia.
  - rewrite H1. split; [done | lia].
Qed.

Lemma pop_frame q : (__len__ (pop q).2 <= __len__ q)%nat.
Proof.
  unfold pop, __len__.
  by destruct (pop_loop_spec (length (entries q)) q) as (_ & H & _); [lia|].
Qed.

Lemma pop_spec q :
  match (pop q).1 with
  | Some r => iter_requests q ≡ₚ r :: iter_requests (pop q).2
  | None => iter_requests (pop q).2 ≡ₚ iter_requests q
  end.
Proof.
  unfold pop.
  destruct (pop_loop_spec (length (entries q)) q) as (_ & _ & Hres); [lia|].
  destruct (pop_loop (length (entries q)) q).1 as [r|]; [apply Hres|].
  destruct Hres as [-> Hes]. rewrite iter_requests_omap, Hes. done.
Qed.

(** *** The order of the pops after pushes only *)

Lemma pushed_state_init fifo : pushed_state fifo [] (__init__ fifo).
Proof. destruct fifo; repeat split; done. Qed.

Lemma pushed_state_push fifo rs q r :
  pushed_state fifo rs q -> pushed_state fifo (rs ++ [r]) (push q r).2.
Proof.
  intros (Har & Hes & Hheap & Hc & Hs).
  assert (Hlen : length (arena q) = length rs) by (by rewrite Har, length_imap).
  split_and!.
  - unfold push. cbn [snd arena]. rewrite imap_app, Har, Hc. simpl.
    by rewrite Nat.add_0_r.
  - rewrite push_entries_perm, Hlen, Hes, length_app. simpl.
    rewrite Nat.add_1_r, seq_S. simpl. by rewrite Permutation_app_comm.
  - apply push_heap_ordered; [|done].
    intros h Hh. rewrite Hes in Hh. apply elem_of_seq in Hh. lia.
  - unfold push. cbn [snd counter]. rewrite Hc, Hs, length_app. simpl.
    unfold count_of. destruct fifo; lia.
  - done.
Qed.

Lemma pushed_state_push_all fifo rs' : forall rs q,
  pushed_state fifo rs q -> pushed_state fifo (rs ++ rs') (push_all q rs').
Proof.
  unfold push_all.
  induction rs' as [|r rs' IH]; intros rs q Hq; simpl.
  - by rewrite app_nil_r.
  - replace (rs ++ r :: rs') with ((rs ++ [r]) ++ rs') by (by rewrite <- app_assoc).
    apply IH. by apply pushed_state_push.
Qed.

Lemma pushed_state_deref fifo rs q i r :
  pushed_state fifo rs q -> rs !! i = Some r ->
  deref (arena q) i = mkEntry (- priority r) (count_of fifo i) (Live r).
Proof.
  intros (Har & _) Hi. unfold deref. by rewrite Har, list_lookup_imap, Hi.
Qed.

Lemma pushed_state_live fifo rs q i :
  pushed_state fifo rs q -> live_request (arena q) i = rs !! i.
Proof.
  intros (Har & _). unfold live_request, deref. rewrite Har, list_lookup_imap.
  by destruct (rs !! i).
Qed.

Lemma pushed_state_handle_lt fifo rs q i j ri rj :
  pushed_state fifo rs q -> rs !! i = Some ri -> rs !! j = Some rj -> i <> j ->
  handle_lt (arena q) j i = false -> leaves_before fifo (i, ri) (j, rj).
Proof.
  intros Hq Hi Hj Hne. unfold handle_lt.
  rewrite (pushed_state_deref fifo rs q i ri Hq Hi),
          (pushed_state_deref fifo rs q j rj Hq Hj).
  rewrite entry_lt_false. unfold leaves_before, count_of. simpl.
  destruct fifo; lia.
Qed.

Lemma StronglySorted_NoDup {B} (R : B -> B -> Prop) (l : list B) :
  StronglySorted R l -> NoDup l -> StronglySorted (fun a b => a <> b /\ R a b) l.
Proof.
  induction 1 as [|a l Hl IH Ha]; intros Hnd; [constructor|].
  apply NoDup_cons in Hnd as [Hin Hnd].
  constructor; [by apply IH|].
  rewrite Forall_forall in Ha. apply Forall_forall. intros b Hb.
  split; [by intros -> | by apply Ha].
Qed.

Lemma pushed_state_sorted fifo rs q :
  pushed_state fifo rs q ->
  let hs := heap_sort (handle_lt (arena q)) (entries q) in
  hs ≡ₚ seq 0 (length rs) /\
  drain q = omap (fun i => rs !! i) hs /\
  StronglySorted (fun i j => i <> j /\ handle_lt (arena q) j i = false) hs.
Proof.
  intros Hq hs. pose proof Hq as (Har & Hes & Hheap & _).
  destruct (heap_facts.heap_sort_spec (handle_lt (arena q)) (handle_lt_order _)
              (entries q) Hheap) as [Hperm Hsorted].
  fold hs in Hperm, Hsorted.
  split_and!.
  - by rewrite Hperm.
  - rewrite drain_heap_sort. fold hs. apply omap_ext_in. intros i _.
    by apply (pushed_state_live fifo).
  - apply StronglySorted_NoDup; [done|]. rewrite Hperm, Hes. apply NoDup_seq.
Qed.

Lemma pushed_state_drain fifo rs q :
  pushed_state fifo rs q ->
  exists l : list (nat * Request),
    l ≡ₚ imap pair rs /\ drain q = l.*2 /\ StronglySorted (leaves_before fifo) l.
Proof.
  intros Hq. destruct (pushed_state_sorted fifo rs q Hq) as (Hperm & Hdrain & Hsorted).
  set (hs := heap_sort (handle_lt (arena q)) (entries q)) in *.
  exists (omap (fun i => pair i <$> rs !! i) hs). split_and!.
  - rewrite Hperm. apply eq_subrelation; [apply _|].
    rewrite <- (length_imap pair rs). apply omap_seq_lookup.
    intros i [j r]. rewrite list_lookup_imap. destruct (rs !! i); [|done].
    by intros [= -> ->].
  - rewrite Hdrain. clear. induction hs as [|i hs IH]; [done|].
    rewrite !omap_cons. destruct (rs !! i); simpl; by rewrite IH.
  - eapply StronglySorted_omap; [|exact Hsorted].
    intros i j [i' ri] [j' rj] [Hne Hlt] Hi Hj.
    destruct (rs !! i) as [ri'|] eqn:Ei; [|done].
    destruct (rs !! j) as [rj'|] eqn:Ej; [|done].
    simpl in Hi, Hj. simplify_eq.
    by apply (pushed_state_handle_lt fifo rs q).
Qed.

(** X12: what [pop] returns after pushes only.  Requests pushed into a new
    queue come back, by [pop] until [None], each once and sorted: a request
    of a greater priority before one of a smaller priority, and of two
    requests of one priority the one pushed first when [fifo] is true, the
    one pushed last when it is false.  The requests are paired with their
    places in the order of the pushes to say so. *)
Theorem pops_are_a_stable_sort_of_the_pushes (fifo : bool) (rs : list Request) :
  exists l : list (nat * Request),
    l ≡ₚ imap pair rs /\
    drain (push_all (__init__ fifo) rs) = l.*2 /\
    StronglySorted (leaves_before fifo) l.
Proof.
  apply pushed_state_drain.
  apply (pushed_state_push_all fifo rs [] (__init__ fifo)), pushed_state_init.
Qed.

Lemma StronglySorted_reverse_seq (R : nat -> nat -> Prop) len :
  (forall i j, (j < i < len)%nat -> R i j) ->
  StronglySorted R (reverse (seq 0 len)).
Proof.
  induction len as [|len IH]; intros HR; [constructor|].
  rewrite seq_S, reverse_app. simpl. constructor.
  - apply IH. intros i j Hij. apply HR. lia.
  - apply Forall_forall. intros j Hj. apply elem_of_reverse, elem_of_seq in Hj.
    apply HR. lia.
Qed.

Lemma omap_reverse {B C} (f : B -> option C) (l : list B) :
  omap f (reverse l) = reverse (omap f l).
Proof.
  induction l as [|x l IH]; [done|].
  rewrite reverse_cons, omap_app, IH, omap_cons. simpl.
  destruct (f x); [by rewrite reverse_cons | by rewrite app_nil_r].
Qed.

(** X13: last in, first out.  Requests of one priority that are pushed into a
    queue made with [fifo=False] are popped in the reverse order of the
    pushes: the counter numbers the entries 0, -1, -2, ... (step -1) and the
    entry with the smaller number is popped first. *)
Theorem lifo_tie_break (p : Z) (rs : list Request) :
  Forall (fun r => priority r = p) rs ->
  let q := push_all (__init__ false) rs in
  step q = -1 /\
  arena q = imap (fun i r => mkEntry (- p) (- Z.of_nat i) (Live r)) rs /\
  drain q = reverse rs.
Proof.
  intros Hall q.
  assert (Hq : pushed_state false rs q).
  { apply (pushed_state_push_all false rs [] (__init__ false)), pushed_state_init. }
  pose proof Hq as (Har & Hes & _ & _ & Hs).
  rewrite Forall_forall in Hall.
  assert (Hlt : forall i j, (i < length rs)%nat -> (j < length rs)%nat ->
            handle_lt (arena q) j i = false <-> (i >= j)%nat).
  { intros i j Hi Hj.
    destruct (lookup_lt_is_Some_2 rs i Hi) as [ri Eri].
    destruct (lookup_lt_is_Some_2 rs j Hj) as [rj Erj].
    unfold handle_lt.
    rewrite (pushed_state_deref false rs q i ri Hq Eri),
            (pushed_state_deref false rs q j rj Hq Erj).
    rewrite entry_lt_false. simpl.
    rewrite (Hall ri), (Hall rj) by (by eapply list_elem_of_lookup_2). lia. }
  split_and!; [done | |].
  - rewrite Har. apply imap_ext. intros i r Hi. simpl.
    by rewrite (Hall r) by (by eapply list_elem_of_lookup_2).
  - destruct (pushed_state_sorted false rs q Hq) as (Hperm & Hdrain & Hsorted).
    set (hs := heap_sort (handle_lt (arena q)) (entries q)) in *.
    assert (Hhs : hs = reverse (seq 0 (length rs))).
    { apply (StronglySorted_unique_strong
               (fun i j => i <> j /\ handle_lt (arena q) j i = false)).
      - intros x1 x2 Hx1 Hx2 [Hne H12] [_ H21].
        rewrite Hperm in Hx1. apply elem_of_seq in Hx1.
        apply elem_of_reverse, elem_of_seq in Hx2.
        apply Hlt in H12; [|lia..]. apply Hlt in H21; [|lia..]. lia.
      - done.
      - apply StronglySorted_reverse_seq. intros i j Hij.
        split; [lia|]. apply Hlt; lia.
      - by rewrite Hperm, reverse_Permutation. }
    rewrite Hdrain, Hhs, omap_reverse. f_equal.
    apply omap_seq_lookup. by intros i r Hi.
Qed.

Lemma lifo_tie_break_witness :
  Forall (fun r => priority r = 7) [request "a" 7; request "b" 7; request "c" 7] /\
  drain (push_all (__init__ false) [request "a" 7; request "b" 7; request "c" 7])
  = [request "c" 7; request "b" 7; request "a" 7].
Proof.
  assert (H : Forall (fun r => priority r = 7)
                [request "a" 7; request "b" 7; request "c" 7])
    by (repeat constructor).
  split; [exact H | apply (lifo_tie_break 7 _ H)].
Defined.

(** *** First in, first out, when the heap is kept *)

Import fifo_props.

Lemma numbered_init : numbered (__init__ true).
Proof. split_and!; [done..|]. intros h e Hh. done. Qed.

Lemma numbered_frame q q' :
  arena q' = arena q -> counter q' = counter q -> step q' = step q ->
  numbered q -> numbered q'.
Proof. unfold numbered. by intros -> -> ->. Qed.

Lemma push_numbered q r : numbered q -> numbered (push q r).2.
Proof.
  intros (Hs & Hc & Hn). unfold push. split_and!; cbn [snd arena counter step].
  - done.
  - rewrite length_app. simpl. lia.
  - intros h e Hh. apply lookup_app_Some in Hh as [Hh | [Hlen Hh]]; [by apply Hn|].
    apply list_lookup_singleton_Some in Hh as [Hh <-]. simpl. lia.
Qed.

Lemma pop_loop_frame fuel : forall q,
  arena (pop_loop fuel q).2 = arena q /\
  counter (pop_loop fuel q).2 = counter q /\ step (pop_loop fuel q).2 = step q.
Proof.
  induction fuel as [|fuel IH]; intros q; [done|].
  rewrite pop_loop_S.
  destruct (heapq.heappop _ _) as [[h es]|]; [|done].
  destruct (live_request (arena q) h); [done|].
  destruct (IH (with_entries q es)) as (? & ? & ?). done.
Qed.

Lemma _pop_empty_loop_frame fuel : forall q,
  arena (_pop_empty_loop fuel q) = arena q /\
  counter (_pop_empty_loop fuel q) = counter q /\
  step (_pop_empty_loop fuel q) = step q.
Proof.
  induction fuel as [|fuel IH]; intros q; [done|].
  cbn [_pop_empty_loop].
  destruct (next_request q) as [[|r]|]; [|done..].
  destruct (heapq.heappop _ _) as [[h es]|]; [|done].
  destruct (IH (with_entries q es)) as (? & ? & ?). done.
Qed.

Lemma heapify_numbered q : numbered q -> numbered (heapify q).
Proof.
  unfold heapify, _pop_empty.
  set (q1 := with_entries q _).
  destruct (_pop_empty_loop_frame (length (entries q1)) q1) as (Ha & Hc & Hs).
  by apply numbered_frame.
Qed.

Lemma remove_entry_numbered q h : numbered q -> numbered (remove_entry q h).2.
Proof.
  intros (Hs & Hc & Hn). unfold remove_entry.
  destruct (arena q !! h) as [e|] eqn:E; [|done].
  split_and!; cbn [snd arena counter step with_arena]; [done | by rewrite length_insert |].
  intros h' e' Hh'.
  destruct (decide (h = h')) as [->|Hne].
  - apply list_lookup_insert_Some in Hh' as [(_ & <- & _) | [? _]]; [|done].
    simpl. by apply Hn.
  - rewrite list_lookup_insert_ne in Hh' by done. by apply Hn.
Qed.

Lemma change_priority_numbered q h p : numbered q -> numbered (change_priority q h p).
Proof.
  intros (Hs & Hc & Hn). unfold change_priority.
  split_and!; cbn [arena counter step with_arena]; [done | by rewrite length_alter |].
  intros h' e' Hh'.
  destruct (decide (h = h')) as [->|Hne].
  - rewrite list_lookup_alter_eq in Hh'.
    destruct (arena q !! h') as [e|] eqn:E; [|done].
    simpl in Hh'. simplify_eq. simpl. by apply Hn.
  - rewrite list_lookup_alter_ne in Hh' by done. by apply Hn.
Qed.

Lemma update_all_priorities_numbered q f :
  numbered q -> numbered (update_all_priorities q f).
Proof.
  intros Hq. unfold update_all_priorities. apply heapify_numbered.
  generalize (zip (iter_active_entries q) (f (iter_requests q))). intros changes.
  revert q Hq. induction changes as [|[h p] changes IH]; intros q Hq; simpl; [done|].
  apply IH. by apply change_priority_numbered.
Qed.

Lemma step_op_numbered q o : numbered q -> numbered (step_op q o).
Proof.
  intros Hq. destruct o as [r| | |h|h p|f]; simpl.
  - by apply push_numbered.
  - destruct (pop_loop_frame (length (entries q)) q) as (? & ? & ?).
    by apply (numbered_frame q).
  - by apply heapify_numbered.
  - by apply heapify_numbered, remove_entry_numbered.
  - by apply heapify_numbered, change_priority_numbered.
  - by apply update_all_priorities_numbered.
Qed.

Lemma step_op_sound q o : sound q -> sound (step_op q o).
Proof.
  intros Hq. destruct o as [r| | |h|h p|f]; simpl.
  - by apply push_sound.
  - by apply pop_loop_sound.
  - by apply heapify_sound.
  - by apply heapify_sound, remove_entry_sound.
  - by apply heapify_sound, change_priority_sound.
  - by apply update_all_priorities_sound.
Qed.

Lemma run_kept ops : forall q,
  sound q -> heap_ordered q -> numbered q ->
  sound (run ops q) /\ heap_ordered (run ops q) /\ numbered (run ops q).
Proof.
  unfold run. induction ops as [|o ops IH]; intros q Hq Hheap Hn; simpl; [done|].
  apply IH.
  - by apply step_op_sound.
  - by apply step_op_well_formed; [apply sound_well_formed|].
  - by apply step_op_numbered.
Qed.

Lemma StronglySorted_weaken {B} (R R' : B -> B -> Prop) (l : list B) :
  (forall a b, R a b -> R' a b) -> StronglySorted R l -> StronglySorted R' l.
Proof.
  intros HR. induction 1 as [|a l Hl IH Ha]; constructor; [done|].
  eapply Forall_impl; [exact Ha | by auto].
Qed.

(** What the tie-break of a first-in-first-out queue gives when [heapify]
    follows every [remove_entry] and every [change_priority]: after any run
    of such operations on a new queue made with [fifo=True], [pop] until
    [None] returns the live entries in an order in which every entry comes
    before the entries of a smaller priority and before the entries of its
    own priority that were pushed after it, whatever other priorities the
    queue holds.  The push number [h] returns the handle [h]. *)
Lemma fifo_when_heap_is_kept (ops : list op) :
  let q := run ops (__init__ true) in
  exists hs : list handle,
    hs ≡ₚ entries q /\
    drain q = omap (live_request (arena q)) hs /\
    StronglySorted (first_in_first_out (arena q)) hs.
Proof.
  intros q.
  destruct (run_kept ops (__init__ true)) as (Hsound & Hheap & Hnum);
    [apply sound_init | apply well_formed_init | apply numbered_init |].
  fold q in Hsound, Hheap, Hnum.
  destruct Hsound as (Hvalid & Hnd & Hkeys). destruct Hnum as (_ & _ & Hcount).
  destruct (heap_facts.heap_sort_spec (handle_lt (arena q)) (handle_lt_order _)
              (entries q) Hheap) as [Hperm Hsorted].
  exists (heap_sort (handle_lt (arena q)) (entries q)).
  split_and!; [done | apply drain_heap_sort |].
  assert (Hs := StronglySorted_NoDup _ _ Hsorted).
  rewrite Hperm in Hs at 1. specialize (Hs Hnd).
  revert Hs. apply StronglySorted_weaken.
  intros h1 h2 [Hne Hlt] r1 r2 H1 H2.
  assert (Hentry : forall h r, live_request (arena q) h = Some r ->
            neg_priority (deref (arena q) h) = - priority r /\
            count (deref (arena q) h) = Z.of_nat h).
  { intros h r Hr. split; [by apply live_request_key|].
    unfold live_request, deref in *.
    destruct (arena q !! h) as [e|] eqn:E; [|done]. by apply Hcount. }
  destruct (Hentry h1 r1 H1) as [Hk1 Hc1]. destruct (Hentry h2 r2 H2) as [Hk2 Hc2].
  unfold handle_lt in Hlt. apply entry_lt_false in Hlt. lia.
Qed.

End queue_more_facts.

(** ** More of the balancing queue *)

Module scheduler_more_facts.
Import BalancedPriorityQueue observe scheduler_props queue_more scheduler_more.
Import scheduler_facts.
Open Scope list_scope.

(** *** push *)

(** X14: [push] either raises [QueueClosed], when the slot of the request is
    a closed one, and then changes nothing; or it puts the request into the
    queue of its slot, which the factory makes when the slot has none, and
    leaves the other queues, the closed slots and the buffer as they are. *)
Theorem push_goes_to_the_queue_of_its_slot (s : BalancedPriorityQueue) (r : Request) :
  let sl := scheduler_slot r in
  let s' := (push s r).1 in
  match (push s r).2 with
  | Raise QueueClosed =>
      s' = s /\ exists d, sl = Some (PStr d) /\ d ∈ closed_slots s
  | Ok _ =>
      (forall d, sl = Some (PStr d) -> d ∉ closed_slots s) /\
      queues s' !! sl =
        Some (RequestsPriorityQueue.push
                (default (queue_factory s sl) (queues s !! sl)) r).2 /\
      (forall sl', sl' <> sl -> queues s' !! sl' = queues s !! sl') /\
      closed_slots s' = closed_slots s /\
      _buffer s' = _buffer s /\
      __len__ s' = (__len__ s + 1 +
                    match queues s !! sl with
                    | Some _ => 0
                    | None => RequestsPriorityQueue.__len__ (queue_factory s sl)
                    end)%nat
  end.
Proof.
  intros sl s'. subst s'. unfold push. fold sl.
  destruct (slot_closed s sl) eqn:Ec; cbn [fst snd].
  - split; [done|]. unfold slot_closed in Ec.
    destruct sl as [[d|]|]; try done. exists d. split; [done|].
    by apply bool_decide_eq_true_1 in Ec.
  - set (q0 := default (queue_factory s sl) (queues s !! sl)).
    split_and!; try done.
    + intros d Hsl. rewrite Hsl in Ec. cbn [slot_closed] in Ec.
      by apply bool_decide_eq_false_1 in Ec.
    + apply lookup_insert_eq.
    + intros sl' Hne. by apply lookup_insert_ne.
    + unfold __len__. cbn [queues _buffer with_queues].
      fold (total_len (queues s)).
      fold (total_len (<[sl := (RequestsPriorityQueue.push q0 r).2]> (queues s))).
      subst q0. destruct (queues s !! sl) as [q|] eqn:E; cbn [default from_option id].
      * pose proof (total_len_insert_over (queues s) sl
                      (RequestsPriorityQueue.push q r).2 q E) as H.
        rewrite push_length in H. lia.
      * rewrite total_len_insert_fresh by done. rewrite push_length. lia.
Qed.

(** *** _pop_many *)

Lemma fetch_loop_cons rnd b sl plan qs k :
  fetch_loop rnd ((b, sl) :: plan) qs k =
  match qs !! sl with
  | None => fetch_loop rnd plan qs k
  | Some queue =>
      let '(request, queue', k') := fetch_one rnd b queue k in
      let '(requests, qs', k'') := fetch_loop rnd plan (<[sl := queue']> qs) k' in
      (option_list ((fun r => set_meta r "from_random_policy" (PBool b)) <$> request)
         ++ requests, qs', k'')
  end.
Proof.
  cbn [fetch_loop]. destruct (qs !! sl) as [queue|]; [|done].
  unfold fetch_one. destruct b.
  - destruct (RequestsPriorityQueue_random.pop_random rnd 10 queue k) as [[request queue'] k'].
    destruct (fetch_loop rnd plan (<[sl := queue']> qs) k') as [[requests qs'] k''].
    by destruct request.
  - destruct (RequestsPriorityQueue.pop queue) as [request queue'].
    destruct (fetch_loop rnd plan (<[sl := queue']> qs) k) as [[requests qs'] k''].
    by destruct request.
Qed.

Lemma fetch_one_frame rnd b queue k :
  (RequestsPriorityQueue.__len__ (fetch_one rnd b queue k).1.2
   <= RequestsPriorityQueue.__len__ queue)%nat /\
  (k <= (fetch_one rnd b queue k).2)%nat.
Proof.
  unfold fetch_one. destruct b.
  - destruct (queue_more_facts.pop_random_frame rnd 10 queue k). split; [done | lia].
  - pose proof (queue_more_facts.pop_frame queue) as H.
    destruct (RequestsPriorityQueue.pop queue) as [r q']. simpl in *. split; [done | lia].
Qed.

Lemma fetch_loop_frame rnd plan : forall qs k,
  let '(requests, qs', k') := fetch_loop rnd plan qs k in
  dom qs' = dom qs /\
  (length requests <= length plan)%nat /\
  (k <= k')%nat /\
  (forall sl q', qs' !! sl = Some q' ->
     exists q, qs !! sl = Some q /\
       (RequestsPriorityQueue.__len__ q' <= RequestsPriorityQueue.__len__ q)%nat).
Proof.
  induction plan as [|[b sl] plan IH]; intros qs k.
  { simpl. split_and!; [done | done | done |]. intros sl q' H. by exists q'. }
  rewrite fetch_loop_cons.
  destruct (qs !! sl) as [queue|] eqn:E.
  - destruct (fetch_one_frame rnd b queue k) as [Hlen Hk].
    destruct (fetch_one rnd b queue k) as [[request queue'] k1]. simpl in Hlen, Hk.
    specialize (IH (<[sl := queue']> qs) k1).
    destruct (fetch_loop rnd plan (<[sl := queue']> qs) k1) as [[requests qs'] k2].
    destruct IH as (Hdom & Hn & Hk2 & Hqs). split_and!.
    + rewrite Hdom. by apply dom_insert_lookup_L.
    + rewrite length_app. destruct request; simpl; lia.
    + lia.
    + intros sl' q' Hq'. destruct (Hqs sl' q' Hq') as (q & Hq & Hle).
      destruct (decide (sl = sl')) as [<-|Hne].
      * rewrite lookup_insert_eq in Hq. injection Hq as <-. exists queue. split; [done | lia].
      * rewrite lookup_insert_ne in Hq by done. by exists q.
  - specialize (IH qs k).
    destruct (fetch_loop rnd plan qs k) as [[requests qs'] k2].
    destruct IH as (Hdom & Hn & Hk2 & Hqs). split_and!; [done | simpl; lia | done | done].
Qed.

Lemma policy_loop_frame rnd e slots chosen : forall k,
  length (policy_loop rnd e slots chosen k).1 = length chosen /\
  (k <= (policy_loop rnd e slots chosen k).2)%nat.
Proof.
  induction chosen as [|sl chosen IH]; intros k; simpl; [done|].
  destruct (Qlt_bool (random rnd k) e).
  - destruct (IH (S (S k))) as [H1 H2].
    destruct (policy_loop rnd e slots chosen (S (S k))) as [rest k'].
    destruct (random_choice rnd (S k) slots); simpl in *; split; lia.
  - destruct (IH (S k)) as [H1 H2].
    destruct (policy_loop rnd e slots chosen (S k)) as [rest k']. simpl in *. split; lia.
Qed.

Lemma np_random_choice_length rnd k slots n :
  (length (np_random_choice rnd k slots n) <= n)%nat.
Proof.
  unfold np_random_choice.
  assert (H : forall l : list nat,
            (length (omap (fun i => random_choice rnd (k + i) slots) l) <= length l)%nat);
    [|etrans; [apply H | by rewrite length_seq]].
  intros l. induction l as [|i l IH]; [done|].
  rewrite queue_more_facts.omap_cons.
  destruct (random_choice rnd (k + i) slots); simpl; lia.
Qed.

Lemma with_queues_id s : with_queues s (queues s) = s.
Proof. by destruct s. Qed.

Lemma all_slots_nil s : all_slots s = [] <-> queues s = ∅.
Proof.
  unfold all_slots. rewrite <- map_to_list_empty_iff.
  by destruct (map_to_list (queues s)).
Qed.

Lemma _pop_many_keeps (rnd : Random) (s : BalancedPriorityQueue) (n k : nat) :
  let '(requests, s', k') := _pop_many rnd s n k in
  (length requests <= n)%nat /\
  dom (queues s') = dom (queues s) /\
  (forall sl q', queues s' !! sl = Some q' ->
     exists q, queues s !! sl = Some q /\
       (RequestsPriorityQueue.__len__ q' <= RequestsPriorityQueue.__len__ q)%nat) /\
  closed_slots s' = closed_slots s /\
  _buffer s' = _buffer s /\
  (k <= k')%nat /\
  (queues s = ∅ \/ n = 0%nat -> requests = [] /\ s' = s).
Proof.
  unfold _pop_many.
  destruct (all_slots s) as [|sl0 slots] eqn:Eslots.
  { split_and!; try done; [simpl; lia|]. intros sl q' H. by exists q'. }
  set (chosen := np_random_choice rnd k (sl0 :: slots) n).
  pose proof (np_random_choice_length rnd k (sl0 :: slots) n) as Hchosen. fold chosen in Hchosen.
  destruct (policy_loop_frame rnd (eps_or_zero s) (sl0 :: slots) chosen (k + n)) as [Hplan Hk1].
  destruct (policy_loop rnd (eps_or_zero s) (sl0 :: slots) chosen (k + n)) as [plan k1].
  simpl in Hplan, Hk1.
  pose proof (fetch_loop_frame rnd plan (queues s) k1) as H.
  destruct (fetch_loop rnd plan (queues s) k1) as [[requests qs] k2] eqn:Ef.
  destruct H as (Hdom & Hlen & Hk2 & Hqs).
  split_and!; try done; [lia | lia |].
  intros [Hempty | ->].
  - apply all_slots_nil in Hempty. by rewrite Hempty in Eslots.
  - assert (plan = []) as -> by (apply length_zero_iff_nil; subst chosen; simpl in *; lia).
    simpl in Ef. injection Ef as <- <- <-. by rewrite with_queues_id.
Qed.


(** X15: [_pop_many(n)] returns at most [n] requests; it adds and removes no
    queue and makes none longer, and it leaves the closed slots and the
    buffer alone.  With no queue, or with [n = 0], it returns nothing and
    changes nothing. *)
Theorem _pop_many_frame (rnd : Random) (s : BalancedPriorityQueue) (n k : nat) :
  let '(requests, s', k') := _pop_many rnd s n k in
  (length requests <= n)%nat /\
  dom (queues s') = dom (queues s) /\
  (forall sl q', queues s' !! sl = Some q' ->
     exists q, queues s !! sl = Some q /\
       (RequestsPriorityQueue.__len__ q' <= RequestsPriorityQueue.__len__ q)%nat) /\
  closed_slots s' = closed_slots s /\
  _buffer s' = _buffer s /\
  (k <= k')%nat /\
  (queues s = ∅ \/ n = 0%nat -> requests = [] /\ s' = s).
Proof. apply _pop_many_keeps. Qed.

(** *** close_queue *)

Lemma total_len_delete qs sl q0 :
  qs !! sl = Some q0 ->
  (total_len (delete sl qs) + RequestsPriorityQueue.__len__ q0 = total_len qs)%nat.
Proof.
  intros H. unfold total_len.
  rewrite <- (map_to_list_delete qs sl q0 H). by rewrite Nat.add_comm.
Qed.

Lemma pop_buffer rnd s k b r :
  _buffer s = b ++ [r] -> pop rnd s k = (Some r, with_buffer s b, k).
Proof.
  intros Hb. unfold pop. rewrite Hb.
  destruct (b ++ [r]) as [|x l] eqn:E; [by destruct b|].
  rewrite Hb, <- E. by rewrite last_snoc, removelast_last.
Qed.

(** X16: [close_queue] returns the number by which the length of the
    scheduler drops; it removes the queue of the slot and no other, and it
    leaves the buffer alone: a request that is in the buffer is still
    returned by the next [pop], also when its slot is the closed one. *)
Theorem close_queue_drops_the_queue_only (s : BalancedPriorityQueue) (d : string) :
  let '(s', n) := close_queue s d in
  __len__ s = (__len__ s' + n)%nat /\
  (forall sl, sl <> Some (PStr d) -> queues s' !! sl = queues s !! sl) /\
  _buffer s' = _buffer s /\
  (forall rnd k b r, _buffer s = b ++ [r] ->
     pop rnd s' k = (Some r, with_buffer s' b, k)).
Proof.
  unfold close_queue. split_and!.
  - unfold __len__. cbn [queues _buffer].
    fold (total_len (queues s)). fold (total_len (delete (Some (PStr d)) (queues s))).
    destruct (queues s !! Some (PStr d)) as [q0|] eqn:E.
    + pose proof (total_len_delete _ _ _ E). lia.
    + rewrite delete_id by done. lia.
  - intros sl Hne. cbn [queues]. by apply lookup_delete_ne.
  - done.
  - intros rnd k b r Hb. by apply pop_buffer.
Qed.

(** *** What every run keeps *)

Lemma scheduler_pop_frame rnd s k :
  dom (queues (pop rnd s k).1.2) = dom (queues s) /\
  closed_slots (pop rnd s k).1.2 = closed_slots s.
Proof.
  unfold pop. destruct (_buffer s) as [|x b] eqn:Eb.
  - pose proof (_pop_many_keeps rnd s (batch_size s) k) as H.
    destruct (_pop_many rnd s (batch_size s) k) as [[requests s'] k'].
    destruct H as (_ & Hdom & _ & Hc & _).
    cbn [_buffer with_buffer]. by destruct (last _).
  - rewrite Eb. by destruct (last (x :: b)).
Qed.

Lemma sched_step_closed rnd st o :
  (forall d, d ∈ closed_slots st.1.1 -> queues st.1.1 !! Some (PStr d) = None) ->
  forall d, d ∈ closed_slots (sched_step rnd st o).1.1 ->
    queues (sched_step rnd st o).1.1 !! Some (PStr d) = None.
Proof.
  destruct st as [[s k] popped]. simpl. intros Hinv d.
  destruct o as [r| |d0|sl f]; simpl.
  - unfold push. destruct (slot_closed s (scheduler_slot r)) eqn:Ec; simpl; [apply Hinv|].
    intros Hd. rewrite lookup_insert_ne; [by apply Hinv|].
    intros Heq. rewrite Heq in Ec. simpl in Ec.
    by apply bool_decide_eq_false_1 in Ec.
  - destruct (scheduler_pop_frame rnd s k) as [Hdom Hc].
    destruct (pop rnd s k) as [[r s'] k']. simpl in *.
    rewrite Hc. intros Hd. apply not_elem_of_dom. rewrite Hdom.
    apply not_elem_of_dom. by apply Hinv.
  - intros Hd. destruct (decide (d = d0)) as [Heq|Hne].
    + rewrite Heq. apply lookup_delete_eq.
    + rewrite lookup_delete_ne by congruence. apply Hinv.
      apply elem_of_union in Hd as [Hd|Hd]; [|done].
      by apply elem_of_singleton in Hd.
  - intros Hd. rewrite lookup_alter.
    destruct (decide (sl = Some (PStr d))) as [Heq|]; [|by apply Hinv].
    by rewrite Heq, Hinv.
Qed.

(** X17: a closed slot stays without a queue.  However a scheduler is used
    after it was made (pushes, pops, closed queues, changes to the queues
    that [get_queue] hands out), a slot in [closed_slots] has no queue, so
    [_pop_many] never samples it. *)
Theorem closed_slot_has_no_queue (rnd : Random)
    (queue_factory : slot -> RequestsPriorityQueue) (e temperature : Q)
    (batch : option nat) (ops : list sched_op) (k : nat) :
  let s := (sched_run rnd ops (__init__ queue_factory e temperature batch) k).1.1 in
  forall d, d ∈ closed_slots s ->
    get_queue s (Some (PStr d)) = None /\ Some (PStr d) ∉ all_slots s.
Proof.
  intros s.
  assert (H : forall d, d ∈ closed_slots s -> queues s !! Some (PStr d) = None).
  { subst s. unfold sched_run.
    assert (H0 : forall d, d ∈ closed_slots
                   (__init__ queue_factory e temperature batch, k, @nil Request).1.1 ->
                 queues (__init__ queue_factory e temperature batch, k, @nil Request).1.1
                   !! Some (PStr d) = None) by (intros d Hd; by apply elem_of_empty in Hd).
    revert H0.
    generalize (__init__ queue_factory e temperature batch, k, @nil Request).
    induction ops as [|o ops IH]; intros st Hst; simpl; [done|].
    apply IH. by apply sched_step_closed. }
  intros d Hd. split; [by apply H|].
  unfold all_slots. intros Hin. apply list_elem_of_fmap in Hin as ([sl q] & Hsl & Hin).
  simpl in Hsl. subst sl. apply elem_of_map_to_list in Hin. by rewrite H in Hin.
Qed.

Lemma closed_slot_has_no_queue_witness :
  let s := (sched_run rnd_half
              [SPush (request_for "d1" "http://d1/a" 3); SCloseQueue "d1";
               SPush (request_for "d1" "http://d1/b" 4); SPop]
              (__init__ fifo_factory 0 1 None) 0).1.1 in
  "d1"%string ∈ closed_slots s /\ get_queue s (Some (PStr "d1")) = None.
Proof.
  intros s.
  assert (H : "d1"%string ∈ closed_slots s)
    by (apply elem_of_union_l, elem_of_singleton; reflexivity).
  split; [exact H|].
  apply (closed_slot_has_no_queue rnd_half fifo_factory 0 1 None
           [SPush (request_for "d1" "http://d1/a" 3); SCloseQueue "d1";
            SPush (request_for "d1" "http://d1/b" 4); SPop] 0 "d1"%string H).
Defined.

(** *** The default [eps] *)

Lemma Qlt_bool_false (x y : Q) : (y <= x)%Q -> Qlt_bool x y = false.
Proof. intros H. unfold Qlt_bool. apply negb_false_iff. by apply Qle_bool_iff. Qed.

(** With [eps <= 0] the test [random.random() < (self.eps or 0.0)] fails at
    every draw. *)
Lemma random_policy_never (rnd : Random) (s : BalancedPriorityQueue) (k : nat) :
  unit_interval rnd -> (eps s <= 0)%Q ->
  Qlt_bool (random rnd k) (eps_or_zero s) = false.
Proof.
  intros Hrnd Heps. apply Qlt_bool_false. unfold eps_or_zero.
  destruct (Qeq_bool (eps s) 0); [apply Hrnd|].
  eapply Qle_trans; [exact Heps | apply Hrnd].
Qed.

Lemma policy_loop_none_random rnd e slots chosen :
  (forall k', Qlt_bool (random rnd k') e = false) ->
  forall k, policy_loop rnd e slots chosen k
            = (pair false <$> chosen, (k + length chosen)%nat).
Proof.
  intros He. induction chosen as [|sl chosen IH]; intros k; simpl.
  { by rewrite Nat.add_0_r. }
  rewrite He, IH. f_equal. lia.
Qed.

Lemma fetch_loop_stamps rnd b plan :
  Forall (fun x => x.1 = b) plan ->
  forall qs k,
    Forall (fun r => meta r !! "from_random_policy"%string = Some (PBool b))
      (fetch_loop rnd plan qs k).1.1.
Proof.
  induction 1 as [|[b' sl] plan Hb Hplan IH]; intros qs k; [done|].
  simpl in Hb. subst b'. rewrite fetch_loop_cons.
  destruct (qs !! sl) as [queue|]; [|apply IH].
  destruct (fetch_one rnd b queue k) as [[request queue'] k1].
  specialize (IH (<[sl := queue']> qs) k1).
  destruct (fetch_loop rnd plan (<[sl := queue']> qs) k1) as [[requests qs'] k2].
  simpl in *. apply Forall_app. split; [|done].
  destruct request as [r|]; simpl; [|done].
  constructor; [|done]. apply lookup_insert_eq.
Qed.

Lemma _pop_many_not_random rnd s n k :
  unit_interval rnd -> (eps s <= 0)%Q ->
  Forall not_from_random_policy (_pop_many rnd s n k).1.1.
Proof.
  intros Hrnd Heps. unfold _pop_many.
  destruct (all_slots s) as [|sl0 slots]; [done|].
  rewrite (policy_loop_none_random rnd (eps_or_zero s) (sl0 :: slots) _
             (fun k' => random_policy_never rnd s k' Hrnd Heps)).
  set (plan := pair false <$> np_random_choice rnd k (sl0 :: slots) n).
  pose proof (fetch_loop_stamps rnd false plan) as H.
  specialize (H ltac:(subst plan; apply Forall_fmap, Forall_true; done) (queues s)).
  specialize (H (k + n + length (np_random_choice rnd k (sl0 :: slots) n))%nat).
  by destruct (fetch_loop _ _ _ _) as [[requests qs] k2].
Qed.

Lemma pop_Forall (P : Request -> Prop) rnd s k :
  Forall P (_pop_many rnd s (batch_size s) k).1.1 ->
  Forall P (_buffer s) ->
  (forall r, (pop rnd s k).1.1 = Some r -> P r) /\
  Forall P (_buffer (pop rnd s k).1.2) /\
  eps (pop rnd s k).1.2 = eps s.
Proof.
  intros Hmany Hbuf. unfold pop.
  set (filled := match _buffer s with
                 | [] => let '(requests, s', k') := _pop_many rnd s (batch_size s) k in
                         (with_buffer s' (_buffer s' ++ requests), k')
                 | _ => (s, k)
                 end).
  assert (Hfilled : Forall P (_buffer filled.1) /\ eps filled.1 = eps s).
  { subst filled. destruct (_buffer s) eqn:E; [|simpl; by rewrite E].
    pose proof (_pop_many_eps rnd s (batch_size s) k) as He.
    pose proof (_pop_many_buffer rnd s (batch_size s) k) as Hb.
    destruct (_pop_many rnd s (batch_size s) k) as [[requests s'] k']. simpl in *.
    by rewrite Hb, E, He. }
  destruct filled as [s1 k1]. simpl in Hfilled. destruct Hfilled as [Hb1 He1].
  destruct (last (_buffer s1)) as [r|] eqn:El; simpl.
  - split_and!; [|by apply Forall_removelast|done].
    intros r' [= <-]. rewrite Forall_forall in Hb1. apply Hb1.
    apply last_Some in El as [l' ->]. apply elem_of_app. right. by left.
  - done.
Qed.

Lemma sched_step_not_random rnd st o :
  unit_interval rnd ->
  (eps st.1.1 <= 0)%Q /\ Forall not_from_random_policy (_buffer st.1.1)
    /\ Forall not_from_random_policy st.2 ->
  let st' := sched_step rnd st o in
  (eps st'.1.1 <= 0)%Q /\ Forall not_from_random_policy (_buffer st'.1.1)
    /\ Forall not_from_random_policy st'.2.
Proof.
  intros Hrnd. destruct st as [[s k] popped]. simpl. intros (Heps & Hbuf & Hpop).
  destruct o as [r| |d|sl f]; simpl.
  - unfold push. by destruct (slot_closed s (scheduler_slot r)).
  - destruct (pop_Forall not_from_random_policy rnd s k) as (Hr & Hb & He);
      [by apply _pop_many_not_random | done |].
    destruct (pop rnd s k) as [[r s'] k']. simpl in *.
    rewrite He. split_and!; [done..|].
    apply Forall_app. split; [done|].
    destruct r as [r|]; simpl; [|done]. constructor; [by apply Hr | done].
  - done.
  - done.
Qed.

(** X18: with [eps <= 0], the default [eps = 0.0] included, no request is
    taken by the random policy: every request that [_pop_many] produces
    carries [from_random_policy = False], and so does every request that
    [pop] returns in any run of a scheduler made with such an [eps]. *)
Theorem eps_zero_never_random_policy (rnd : Random) :
  unit_interval rnd ->
  (forall s n k, (eps s <= 0)%Q ->
     Forall not_from_random_policy (_pop_many rnd s n k).1.1) /\
  (forall queue_factory e temperature batch ops k, (e <= 0)%Q ->
     Forall not_from_random_policy
       (sched_run rnd ops (__init__ queue_factory e temperature batch) k).2).
Proof.
  intros Hrnd. split.
  - intros s n k Heps. by apply _pop_many_not_random.
  - intros queue_factory e temperature batch ops k He. unfold sched_run.
    assert (H0 : (eps (__init__ queue_factory e temperature batch, k, @nil Request).1.1 <= 0)%Q
                 /\ Forall not_from_random_policy
                      (_buffer (__init__ queue_factory e temperature batch, k, @nil Request).1.1)
                 /\ Forall not_from_random_policy
                      (__init__ queue_factory e temperature batch, k, @nil Request).2)
      by (split_and!; [done | constructor | constructor]).
    revert H0. generalize (__init__ queue_factory e temperature batch, k, @nil Request).
    induction ops as [|o ops IH]; intros st Hst; simpl; [apply Hst|].
    apply IH. by apply sched_step_not_random.
Qed.

Lemma eps_zero_never_random_policy_witness :
  unit_interval rnd_half /\
  Forall not_from_random_policy
    (sched_run rnd_half
       [SPush (request_for "d1" "http://d1/a" 3);
        SPush (request_for "d2" "http://d2/a" 5); SPop; SPop; SPop]
       (__init__ fifo_factory 0 1 None) 0).2.
Proof.
  assert (H : unit_interval rnd_half) by (intros k; unfold Qle, Qlt; simpl; lia).
  split; [exact H|].
  apply (eps_zero_never_random_policy rnd_half H). unfold Qle; simpl; lia.
Defined.

(** *** No request is made up, none is returned twice *)

Import conservation.

Lemma unstamped_set_meta r b :
  unstamped (set_meta r "from_random_policy" (PBool b)) = unstamped r.
Proof. unfold unstamped, set_meta. simpl. by rewrite delete_insert_eq. Qed.

Lemma queued_insert_fresh qs sl q :
  qs !! sl = None ->
  queued (<[sl := q]> qs) ≡ₚ RequestsPriorityQueue.iter_requests q ++ queued qs.
Proof. intros H. unfold queued. by rewrite (map_to_list_insert qs sl q H). Qed.

Lemma queued_delete qs sl q0 :
  qs !! sl = Some q0 ->
  queued qs ≡ₚ RequestsPriorityQueue.iter_requests q0 ++ queued (delete sl qs).
Proof. intros H. unfold queued. by rewrite <- (map_to_list_delete qs sl q0 H). Qed.

Lemma queued_insert_over qs sl q :
  queued (<[sl := q]> qs) ≡ₚ RequestsPriorityQueue.iter_requests q ++ queued (delete sl qs).
Proof.
  rewrite <- insert_delete_eq. apply queued_insert_fresh, lookup_delete_eq.
Qed.

Lemma fetch_one_spec rnd b queue k :
  sound queue ->
  sound (fetch_one rnd b queue k).1.2 /\
  match (fetch_one rnd b queue k).1.1 with
  | Some r => RequestsPriorityQueue.iter_requests queue
              ≡ₚ r :: RequestsPriorityQueue.iter_requests (fetch_one rnd b queue k).1.2
  | None => RequestsPriorityQueue.iter_requests (fetch_one rnd b queue k).1.2
            ≡ₚ RequestsPriorityQueue.iter_requests queue
  end.
Proof.
  intros Hq. unfold fetch_one. destruct b.
  - split; [by apply queue_more_facts.pop_random_sound|].
    pose proof (queue_more_facts.pop_random_spec rnd 10 queue k Hq) as H.
    destruct (RequestsPriorityQueue_random.pop_random rnd 10 queue k) as [[res q'] k'].
    destruct H as (_ & H & _). simpl. destruct res; [apply H | done].
  - pose proof (queue_more_facts.pop_loop_sound
                  (length (entries queue)) queue Hq) as Hs.
    pose proof (queue_more_facts.pop_spec queue) as H.
    unfold RequestsPriorityQueue.pop in *.
    by destruct (RequestsPriorityQueue.pop_loop (length (entries queue)) queue) as [r q'].
Qed.

Lemma fetch_loop_conserves rnd plan : forall qs k,
  map_Forall (fun _ q => sound q) qs ->
  map_Forall (fun _ q => sound q) (fetch_loop rnd plan qs k).1.2 /\
  unstamped <$> ((fetch_loop rnd plan qs k).1.1 ++ queued (fetch_loop rnd plan qs k).1.2)
    ≡ₚ unstamped <$> queued qs.
Proof.
  induction plan as [|[b sl] plan IH]; intros qs k Hqs; [done|].
  rewrite fetch_loop_cons.
  destruct (qs !! sl) as [queue|] eqn:E; [|by apply IH].
  destruct (fetch_one_spec rnd b queue k) as [Hs Hreq].
  { by apply (map_Forall_lookup_1 _ _ _ _ Hqs E). }
  destruct (fetch_one rnd b queue k) as [[request queue'] k1]. simpl in Hs, Hreq.
  destruct (IH (<[sl := queue']> qs) k1) as [IH1 IH2].
  { by apply map_Forall_insert_2. }
  destruct (fetch_loop rnd plan (<[sl := queue']> qs) k1) as [[requests qs'] k2].
  simpl in *. split; [done|].
  rewrite <- app_assoc, fmap_app, IH2, queued_insert_over, (queued_delete qs sl queue E).
  destruct request as [r|]; simpl.
  - rewrite unstamped_set_meta, !fmap_app, Hreq, fmap_cons. done.
  - by rewrite !fmap_app, Hreq.
Qed.

Lemma _pop_many_conserves rnd s n k :
  map_Forall (fun _ q => sound q) (queues s) ->
  map_Forall (fun _ q => sound q) (queues (_pop_many rnd s n k).1.2) /\
  unstamped <$> ((_pop_many rnd s n k).1.1 ++ queued (queues (_pop_many rnd s n k).1.2))
    ≡ₚ unstamped <$> queued (queues s) /\
  queue_factory (_pop_many rnd s n k).1.2 = queue_factory s.
Proof.
  intros Hs. unfold _pop_many.
  destruct (all_slots s) as [|sl0 slots]; [done|].
  destruct (policy_loop _ _ _ _ _) as [plan k1].
  destruct (fetch_loop_conserves rnd plan (queues s) k1 Hs) as [H1 H2].
  by destruct (fetch_loop rnd plan (queues s) k1) as [[requests qs] k2].
Qed.

Lemma pop_conserves rnd s k :
  map_Forall (fun _ q => sound q) (queues s) ->
  map_Forall (fun _ q => sound q) (queues (pop rnd s k).1.2) /\
  unstamped <$> (option_list (pop rnd s k).1.1 ++ _buffer (pop rnd s k).1.2
                 ++ queued (queues (pop rnd s k).1.2))
    ≡ₚ unstamped <$> (_buffer s ++ queued (queues s)) /\
  queue_factory (pop rnd s k).1.2 = queue_factory s.
Proof.
  intros Hs. unfold pop.
  set (filled := match _buffer s with
                 | [] => let '(requests, s', k') := _pop_many rnd s (batch_size s) k in
                         (with_buffer s' (_buffer s' ++ requests), k')
                 | _ => (s, k)
                 end).
  assert (Hfilled : map_Forall (fun _ q => sound q) (queues filled.1) /\
            unstamped <$> (_buffer filled.1 ++ queued (queues filled.1))
              ≡ₚ unstamped <$> (_buffer s ++ queued (queues s)) /\
            queue_factory filled.1 = queue_factory s).
  { subst filled. destruct (_buffer s) eqn:E; [|simpl; by rewrite E].
    destruct (_pop_many_conserves rnd s (batch_size s) k Hs) as (H1 & H2 & H3).
    pose proof (_pop_many_buffer rnd s (batch_size s) k) as Hb.
    destruct (_pop_many rnd s (batch_size s) k) as [[requests s'] k']. simpl in *.
    by rewrite Hb, E. }
  destruct filled as [s1 k1]. simpl in Hfilled. destruct Hfilled as (H1 & H2 & H3).
  destruct (last (_buffer s1)) as [r|] eqn:El;
    cbn [fst snd option_list _buffer queues with_buffer queue_factory].
  - split_and!; [done | | done]. rewrite <- H2.
    apply heap_facts.last_removelast in El.
    set (b' := removelast (_buffer s1)) in *. rewrite El.
    apply fmap_Permutation. solve_Permutation.
  - split_and!; [done | | done]. apply last_None in El. by rewrite <- H2, El.
Qed.

Lemma iter_requests_init fifo :
  RequestsPriorityQueue.iter_requests (RequestsPriorityQueue.__init__ fifo) = [].
Proof. done. Qed.

Lemma pushed_snoc ops o :
  pushed (ops ++ [o]) = pushed ops ++ match o with OPush r => [r] | _ => [] end.
Proof. unfold pushed. rewrite omap_app. by destruct o. Qed.

Lemma owner_step_conserved rnd fifo_of ops st o :
  conserved fifo_of ops st ->
  conserved fifo_of (ops ++ [o]) (sched_step rnd st (to_sched o)).
Proof.
  destruct st as [[s k] popped]. unfold conserved. cbn [fst snd].
  intros (Hf & Hs & lost & Hperm & Hlost).
  rewrite pushed_snoc, (fmap_app _ (pushed ops)).
  destruct o as [r| |d]; cbn [to_sched sched_step].
  - (* push *)
    change (unstamped <$> [r]) with [unstamped r].
    unfold push. destruct (slot_closed s (scheduler_slot r)) eqn:Ec; cbn [fst snd].
    + split_and!; [done..|]. exists (lost ++ [unstamped r]). split.
      * rewrite <- Hperm. solve_Permutation.
      * intros Hall. apply Forall_app in Hall as [Hall _].
        destruct (Hlost Hall) as [_ Hc]. unfold slot_closed in Ec.
        destruct (scheduler_slot r) as [[d|]|]; try done.
        apply bool_decide_eq_true_1 in Ec. rewrite Hc in Ec. by apply elem_of_empty in Ec.
    + cbn [queues _buffer with_queues queue_factory closed_slots].
      set (sl := scheduler_slot r) in *.
      set (q0 := default (queue_factory s sl) (queues s !! sl)).
      assert (Hq0 : sound q0 /\
                RequestsPriorityQueue.iter_requests q0 ++ queued (delete sl (queues s))
                  ≡ₚ queued (queues s)).
      { subst q0. destruct (queues s !! sl) as [q|] eqn:E; cbn [default from_option id].
        - split; [by apply (map_Forall_lookup_1 _ _ _ _ Hs E)|].
          by rewrite <- (queued_delete _ _ _ E).
        - rewrite Hf. unfold factory_of. split; [apply queue_more_facts.sound_init|].
          rewrite iter_requests_init. by rewrite delete_id. }
      destruct Hq0 as [Hq0 Hq0'].
      split_and!; [done | |].
      * apply map_Forall_insert_2; [|done]. by apply queue_more_facts.push_sound.
      * exists lost. split.
        -- rewrite queued_insert_over, queue_more_facts.push_requests by done.
           rewrite <- Hperm, <- Hq0'.
           repeat (rewrite fmap_app || rewrite fmap_cons). solve_Permutation.
        -- intros Hall. apply Forall_app in Hall as [Hall _]. by apply Hlost.
  - (* pop *)
    destruct (scheduler_pop_frame rnd s k) as [_ Hc'].
    destruct (pop_conserves rnd s k Hs) as (H1 & H2 & H3).
    destruct (pop rnd s k) as [[r s'] k']. cbn [fst snd] in *.
    rewrite H3. split_and!; [done..|]. exists lost. split.
    + rewrite app_nil_r, <- Hperm.
      rewrite <- app_assoc, !(fmap_app _ popped), H2. done.
    + intros Hall. apply Forall_app in Hall as [Hall _].
      destruct (Hlost Hall) as [-> Hc]. split; [done | congruence].
  - (* close_queue *)
    cbn [close_queue fst queues _buffer queue_factory closed_slots].
    split_and!; [done | by apply map_Forall_delete |].
    destruct (queues s !! Some (PStr d)) as [q0|] eqn:E.
    + exists (lost ++ (unstamped <$> RequestsPriorityQueue.iter_requests q0)). split.
      * rewrite app_nil_r, <- Hperm, (queued_delete _ _ _ E).
        rewrite !fmap_app. solve_Permutation.
      * intros Hall. apply Forall_app in Hall as [_ Hall].
        apply Forall_inv in Hall. discriminate Hall.
    + exists lost. split.
      * by rewrite app_nil_r, delete_id.
      * intros Hall. apply Forall_app in Hall as [_ Hall].
        apply Forall_inv in Hall. discriminate Hall.
Qed.

Lemma owner_run_conserved rnd fifo_of e temperature batch k ops :
  conserved fifo_of ops
    (sched_run rnd (to_sched <$> ops)
       (__init__ (factory_of fifo_of) e temperature batch) k).
Proof.
  induction ops as [|o ops IH] using rev_ind.
  - unfold conserved. simpl. split_and!; [done | apply map_Forall_empty |].
    exists []. by split.
  - unfold sched_run in *. rewrite fmap_app, fold_left_app. simpl.
    by apply owner_step_conserved.
Qed.

(** X19: the scheduler makes up no request and returns none twice.  In every
    run of pushes, pops and closed queues on a new scheduler whose factory
    makes empty queues, the requests popped so far, those in the buffer and
    the live requests in the queues are, as a multiset and apart from the
    [from_random_policy] mark, among the requests that were pushed; while no
    queue is closed they are exactly the requests that were pushed. *)
Theorem scheduler_returns_what_was_pushed (rnd : Random) (fifo_of : slot -> bool)
    (e temperature : Q) (batch : option nat) (ops : list owner_op) (k : nat) :
  let '(s, _, popped) :=
    sched_run rnd (to_sched <$> ops)
      (__init__ (factory_of fifo_of) e temperature batch) k in
  let kept := unstamped <$> (popped ++ _buffer s ++ queued (queues s)) in
  kept ⊆+ unstamped <$> pushed ops /\
  (Forall (fun o => closes o = false) ops -> kept ≡ₚ unstamped <$> pushed ops).
Proof.
  pose proof (owner_run_conserved rnd fifo_of e temperature batch k ops) as H.
  destruct (sched_run _ _ _ _) as [[s k'] popped].
  destruct H as (_ & _ & lost & Hperm & Hlost). cbn [fst snd] in *.
  split.
  - rewrite <- Hperm. by apply submseteq_inserts_r.
  - intros Hall. destruct (Hlost Hall) as [-> _]. by rewrite app_nil_r in Hperm.
Qed.

End scheduler_more_facts.

(** ** More of the link intake *)

Module links_more_facts.
Import links links_props links_more.
Open Scope string_scope.

(** *** What [extract_js_link] returns *)

Lemma strip_prefix_Some p : forall s t, strip_prefix p s = Some t -> s = p ++ t.
Proof.
  induction p as [|a p IH]; intros s t; simpl; [by intros [= ->]|].
  destruct s as [|b s]; [done|].
  destruct (Ascii.eqb a b) eqn:E; [|done].
  apply Ascii.eqb_eq in E as ->. intros H. by rewrite (IH _ _ H).
Qed.

Lemma last_quote_Some s : forall n,
  last_quote s = Some n ->
  exists q rest, s = substring 0 n s ++ String q rest /\ is_quote q = true /\
    all_chars not_newline (substring 0 n s) = true.
Proof.
  induction s as [|c s IH]; intros n; simpl; [done|].
  destruct (Ascii.eqb c newline) eqn:Ec; [done|].
  destruct (last_quote s) as [n'|] eqn:E.
  - intros [= <-]. destruct (IH n' eq_refl) as (q & rest & Hs & Hq & Hnl).
    exists q, rest. cbn [substring String.append all_chars].
    split_and!; [|done|].
    { change (String c s = String c (substring 0 n' s ++ String q rest)). by f_equal. }
    unfold not_newline at 1. by rewrite Ec.
  - destruct (is_quote c) eqn:Eq; [|done]. intros [= <-].
    exists c, s. by destruct s.
Qed.

Lemma dot_plus_quote_Some s u :
  dot_plus_quote s = Some u ->
  exists q rest, s = u ++ String q rest /\ is_quote q = true /\
    u <> "" /\ all_chars not_newline u = true.
Proof.
  destruct s as [|c s]; simpl; [done|].
  destruct (Ascii.eqb c newline) eqn:Ec; [done|].
  destruct (last_quote s) as [n|] eqn:E; [|done]. intros [= <-].
  destruct (last_quote_Some s n E) as (q & rest & Hs & Hq & Hnl).
  exists q, rest. cbn [all_chars]. split_and!; [|done|done|].
  { change (String c s = String c (substring 0 n s ++ String q rest)). by f_equal. }
  unfold not_newline at 1. by rewrite Ec.
Qed.

Lemma match_location_Some t u :
  match_location t = Some u ->
  exists q1 q2 post,
    t = "location.href=" ++ String q1 (u ++ String q2 post) /\
    is_quote q1 = true /\ is_quote q2 = true /\
    u <> "" /\ all_chars not_newline u = true.
Proof.
  unfold match_location.
  destruct (strip_prefix "location.href=" t) as [[|q1 t']|] eqn:E; [done | | done].
  destruct (is_quote q1) eqn:Eq; [|done]. intros H.
  destruct (dot_plus_quote_Some _ _ H) as (q2 & post & -> & Hq2 & Hu & Hnl).
  exists q1, q2, post. split_and!; [|done..].
  by apply strip_prefix_Some in E.
Qed.

Lemma match_here_Some s u :
  match_here s = Some u ->
  exists pre q1 q2 post,
    s = pre ++ "location.href=" ++ String q1 (u ++ String q2 post) /\
    is_quote q1 = true /\ is_quote q2 = true /\
    u <> "" /\ all_chars not_newline u = true.
Proof.
  assert (Hloc : forall pre t, s = pre ++ t -> match_location t = Some u ->
            exists pre q1 q2 post,
              s = pre ++ "location.href=" ++ String q1 (u ++ String q2 post) /\
              is_quote q1 = true /\ is_quote q2 = true /\
              u <> "" /\ all_chars not_newline u = true).
  { intros pre t -> H.
    destruct (match_location_Some _ _ H) as (q1 & q2 & post & -> & ?).
    by exists pre, q1, q2, post. }
  unfold match_here.
  destruct (strip_prefix "javascript:" s) as [t|] eqn:E; [|apply (Hloc "")]; [|done].
  apply strip_prefix_Some in E.
  destruct (match_location t) as [v|] eqn:Et.
  - intros [= ->]. by apply (Hloc "javascript:" t).
  - by apply (Hloc "").
Qed.

Lemma js_link_search_Some s u :
  js_link_search s = Some u ->
  exists pre q1 q2 post,
    s = pre ++ "location.href=" ++ String q1 (u ++ String q2 post) /\
    is_quote q1 = true /\ is_quote q2 = true /\
    u <> "" /\ all_chars not_newline u = true.
Proof.
  induction s as [|c s IH].
  - intros H. by vm_compute in H.
  - cbn [js_link_search].
    destruct (match_here (String c s)) as [v|] eqn:E.
    + intros [= ->]. by apply match_here_Some.
    + intros H. destruct (IH H) as (pre & q1 & q2 & post & -> & ?).
      by exists (String c pre), q1, q2, post.
Qed.

Lemma contains_app needle pre t :
  contains needle (pre ++ needle ++ t) = true.
Proof.
  assert (Hp : forall t', String.prefix needle (needle ++ t') = true).
  { intros t'. induction needle as [|a n IH]; simpl; [by destruct t'|].
    by destruct (ascii_dec a a). }
  assert (Hc : forall hay, contains needle hay =
            if String.prefix needle hay then true
            else match hay with
                 | EmptyString => false
                 | String _ hay' => contains needle hay'
                 end) by (by intros []).
  induction pre as [|c pre IH].
  - change ("" ++ needle ++ t) with (needle ++ t). by rewrite Hc, Hp.
  - change (String c pre ++ needle ++ t) with (String c (pre ++ needle ++ t)).
    rewrite Hc, IH. by destruct (String.prefix needle _).
Qed.

(** X20: what [extract_js_link] returns sits in the href between
    [location.href=], a quote, and a quote: it is never empty and has no
    line break.  So the href contains [location.href=], and an href that
    does not gives [None]. *)
Theorem extract_js_link_sound (href u : string) :
  extract_js_link href = Some u ->
  (exists pre q1 q2 post,
     href = pre ++ "location.href=" ++ String q1 (u ++ String q2 post) /\
     is_quote q1 = true /\ is_quote q2 = true) /\
  u <> "" /\
  all_chars not_newline u = true /\
  contains "location.href=" href = true.
Proof.
  unfold extract_js_link. intros H.
  destruct (js_link_search_Some _ _ H) as (pre & q1 & q2 & post & -> & Hq1 & Hq2 & Hu & Hnl).
  split_and!; [by exists pre, q1, q2, post | done | done |].
  apply contains_app.
Qed.

Lemma extract_js_link_sound_witness :
  extract_js_link "javascript:location.href='/next';" = Some "/next" /\
  contains "location.href=" "javascript:location.href='/next';" = true.
Proof.
  assert (H : extract_js_link "javascript:location.href='/next';" = Some "/next")
    by reflexivity.
  split; [exact H|].
  apply (extract_js_link_sound _ _ H).
Defined.

(** *** What [extract_link_dicts] yields *)

Lemma lstrip_head s :
  match lstrip s with
  | [] => True
  | c :: _ => isspace c = false
  end.
Proof.
  induction s as [|c s IH]; [done|]. cbn [lstrip].
  destruct (isspace c) eqn:E; [done | by rewrite E].
Qed.

Lemma last_cons_default {B} (c c' : B) (t : list B) :
  List.last (c' :: t) c = List.last t c'.
Proof.
  revert c c'. induction t as [|x t IH]; intros c c'; [done|].
  change (List.last (c' :: x :: t) c) with (List.last (x :: t) c).
  change (List.last (x :: t) c') with (List.last (x :: t) c').
  rewrite (IH c x). destruct t; [done|]. by rewrite (IH c' x).
Qed.

Lemma rstrip_last s :
  match rstrip s with
  | [] => True
  | c :: t => isspace (List.last t c) = false
  end.
Proof.
  induction s as [|c s IH]; [done|]. cbn [rstrip].
  destruct (rstrip s) as [|c' t]; [|by rewrite last_cons_default].
  destruct (isspace c) eqn:E; [done | exact E].
Qed.

Lemma rstrip_head c s :
  isspace c = false -> exists t, rstrip (c :: s) = c :: t.
Proof.
  intros Hc. cbn [rstrip]. destruct (rstrip s) as [|c' t]; [|by eexists].
  rewrite Hc. by eexists.
Qed.

Lemma strip_trimmed s : trimmed (strip s).
Proof.
  unfold strip. pose proof (lstrip_head s) as Hl.
  destruct (lstrip s) as [|c t]; [done|].
  destruct (rstrip_head c t Hl) as [t' Ht].
  pose proof (rstrip_last (c :: t)) as Hr. rewrite Ht in *. by split.
Qed.

(** [strip] takes off the white space of Unicode as well: a no-break space
    (U+00A0), a next line (U+0085) and an em space (U+2003) around the text
    [ab] are removed, a zero width space (U+200B), which is no white space
    for [str.isspace], is kept. *)
Lemma strip_unicode_example :
  strip ([0xA0; 0x20; 0x85]%N ++ text_of "ab" ++ [0x2003; 0x0A]%N)%list = text_of "ab" /\
  strip ([0x200B]%N ++ text_of "ab")%list = ([0x200B]%N ++ text_of "ab")%list.
Proof. by vm_compute. Qed.

(** X21: [extract_link_dicts] yields links in the order of the [<a>]
    elements, at most one for each.  A link it yields comes from an element
    that has an [href] without [mailto:], carries the attributes of that
    element, has a URL without an ignored extension, has the [js] key only
    as [True], and has an [inside_text] without white space at its ends,
    white space being the characters of [str.isspace].  Elements without
    [href] give nothing. *)
Theorem extract_link_dicts_yields (lib : Library) (selector : list Anchor)
    (base_url : string) :
  let links := extract_link_dicts lib selector base_url in
  (length links <= length selector)%nat /\
  attrs <$> links `sublist_of` attrib <$> selector /\
  Forall (fun l =>
            (exists a href, a ∈ selector /\ extract_link lib base_url a = Some l /\
               attrib a !! "href" = Some href /\ contains "mailto:" href = false /\
               attrs l = attrib a) /\
            url_has_any_extension lib (link_url l) (_IGNORED lib) = false /\
            (js l = None \/ js l = Some true) /\
            trimmed (inside_text l)) links /\
  (Forall (fun a => attrib a !! "href" = None) selector -> links = []).
Proof.
  assert (Hone : forall a l, extract_link lib base_url a = Some l ->
            (exists href, attrib a !! "href" = Some href /\
               contains "mailto:" href = false /\ attrs l = attrib a) /\
            url_has_any_extension lib (link_url l) (_IGNORED lib) = false /\
            (js l = None \/ js l = Some true) /\
            trimmed (inside_text l)).
  { intros a l. unfold extract_link.
    destruct (attrib a !! "href") as [href|]; [|done].
    destruct (contains "mailto:" href) eqn:Em; [done|].
    destruct (match extract_js_link href with
              | Some (String c u) => (String c u, Some true)
              | _ => (href, None)
              end) as [target flag] eqn:Et.
    destruct (url_has_any_extension lib (urljoin lib base_url target) (_IGNORED lib))
      eqn:Ee; [done|].
    intros [= <-]. cbn [attrs link_url js inside_text].
    split_and!; [by exists href | done | | apply strip_trimmed].
    destruct (extract_js_link href) as [[|c u]|]; injection Et as <- <-; auto. }
  cbn zeta. unfold extract_link_dicts.
  induction selector as [|a selector (IH1 & IH2 & IH3 & IH4)].
  { split_and!; [done | done | constructor | done]. }
  rewrite queue_more_facts.omap_cons.
  destruct (extract_link lib base_url a) as [l|] eqn:E.
  - destruct (Hone a l E) as ((href & Hh & Hm & Ha) & He & Hj & Ht).
    split_and!.
    + simpl. lia.
    + rewrite !fmap_cons, Ha. by apply sublist_skip.
    + constructor.
      * split_and!; [|done..]. exists a, href. split_and!; [by left | done..].
      * eapply Forall_impl; [exact IH3|].
        intros l' ((a' & href' & Hin & ?) & ?). split; [|done].
        exists a', href'. split; [by right | done].
    + intros Hall. apply Forall_cons in Hall as [Hnone _]. congruence.
  - split_and!.
    + simpl. lia.
    + rewrite fmap_cons. by apply sublist_cons.
    + eapply Forall_impl; [exact IH3|].
      intros l' ((a' & href' & Hin & ?) & ?). split; [|done].
      exists a', href'. split; [by right | done].
    + intros Hall. apply Forall_cons in Hall as [_ Hall]. by apply IH4.
Qed.

(** *** Links without duplicates *)

Section Dedup.
Context (canonicalize_url : string -> string).
Context {L : Type} (url_of : L -> string).

Lemma dedup_loop_spec links : forall seen idx,
  let out := (dedup_loop canonicalize_url url_of seen idx links).1 in
  let seen' := (dedup_loop canonicalize_url url_of seen idx links).2 in
  let canonical := fun l => canonicalize_url (url_of l) in
  seen' = seen ∪ list_to_set (canonical <$> links) /\
  seen' = seen ∪ list_to_set (canonical <$> out.*2) /\
  NoDup (canonical <$> out.*2) /\
  StronglySorted lt out.*1 /\
  (forall i l, (i, l) ∈ out ->
     (idx <= i)%nat /\ links !! (i - idx)%nat = Some l /\ (canonical l ∉ seen) /\
     forall j l', (j < i - idx)%nat -> links !! j = Some l' -> canonical l' <> canonical l).
Proof.
  induction links as [|link links IH]; intros seen idx; cbn zeta.
  { simpl. split_and!; [set_solver.. | constructor | constructor |].
    intros i l Hin. by apply elem_of_nil in Hin. }
  cbn [dedup_loop].
  destruct (decide (canonicalize_url (url_of link) ∈ seen)) as [Hseen|Hnew].
  - destruct (IH seen (S idx)) as (H1 & H2 & H3 & H4 & H5).
    split_and!; [|done..|].
    + rewrite H1. rewrite fmap_cons. set_solver.
    + intros i l Hin. destruct (H5 i l Hin) as (Hi & Hl & Hc & Hfirst).
      replace (i - idx)%nat with (S (i - S idx)) by lia.
      split_and!; [lia | done | done |].
      intros [|j] l' Hj Hl'.
      * simpl in Hl'. injection Hl' as <-. intros Heq. rewrite Heq in Hseen. done.
      * simpl in Hl'. apply (Hfirst j l'); [lia | done].
  - destruct (IH ({[canonicalize_url (url_of link)]} ∪ seen) (S idx))
      as (H1 & H2 & H3 & H4 & H5).
    destruct (dedup_loop canonicalize_url url_of
                ({[canonicalize_url (url_of link)]} ∪ seen) (S idx) links)
      as [rest seen'] eqn:E.
    cbn [fst snd] in *.
    assert (Hrest : forall i l, (i, l) ∈ rest ->
              canonicalize_url (url_of l) <> canonicalize_url (url_of link)).
    { intros i l Hin. destruct (H5 i l Hin) as (_ & _ & Hc & _). set_solver. }
    split_and!.
    + rewrite H1, fmap_cons. set_solver.
    + rewrite H2, !fmap_cons. set_solver.
    + rewrite !fmap_cons. apply NoDup_cons. split; [|done].
      intros Hin. apply list_elem_of_fmap in Hin as (l & Hl & Hin).
      apply list_elem_of_fmap in Hin as ([i l'] & -> & Hin).
      by apply (Hrest i l' Hin).
    + rewrite fmap_cons. constructor; [done|].
      apply Forall_forall. intros i Hin.
      apply list_elem_of_fmap in Hin as ([i' l] & -> & Hin).
      destruct (H5 i' l Hin) as (Hi & _). simpl. lia.
    + intros i l Hin. apply elem_of_cons in Hin as [[= -> ->]|Hin].
      * rewrite Nat.sub_diag. split_and!; [lia | done | done |]. intros j l' Hj. lia.
      * destruct (H5 i l Hin) as (Hi & Hl & Hc & Hfirst).
        replace (i - idx)%nat with (S (i - S idx)) by lia.
        split_and!; [lia | done | set_solver |].
        intros [|j] l' Hj Hl'.
        -- simpl in Hl'. injection Hl' as <-. intros Heq. symmetry in Heq.
           by apply (Hrest i l Hin).
        -- simpl in Hl'. apply (Hfirst j l'); [lia | done].
Qed.

(** X22: [deduplicate_links_enumerated], run to its end, over the set it is
    given or, with none given, over [self.seen_urls].  It yields the links
    whose canonical URL is not in the set and did not occur earlier in the
    list, each with its index in the list, in the order of the list; the
    canonical URLs of the links it yields are pairwise distinct; afterwards
    the set holds, beside what it held, the canonical URL of every link of
    the list.  The set given is the only one it changes. *)
Theorem deduplicate_links_enumerated_spec (self : DictLinkExtractor)
    (links : list L) (seen_urls_arg : option (gset string)) :
  let '(out, self', arg') :=
    deduplicate_links_enumerated canonicalize_url url_of self links seen_urls_arg in
  let canonical := fun l => canonicalize_url (url_of l) in
  let seen := default (seen_urls self) seen_urls_arg in
  let seen' := default (seen_urls self') arg' in
  seen' = seen ∪ list_to_set (canonical <$> links) /\
  NoDup (canonical <$> out.*2) /\
  StronglySorted lt out.*1 /\
  (forall i l, (i, l) ∈ out <->
     links !! i = Some l /\ (canonical l ∉ seen) /\
     forall j l', (j < i)%nat -> links !! j = Some l' -> canonical l' <> canonical l) /\
  match seen_urls_arg with
  | None => arg' = None
  | Some _ => self' = self /\ is_Some arg'
  end.
Proof.
  unfold deduplicate_links_enumerated.
  set (seen := default (seen_urls self) seen_urls_arg).
  pose proof (dedup_loop_spec links seen 0) as H.
  assert (Hiff : forall out seen',
    dedup_loop canonicalize_url url_of seen 0 links = (out, seen') ->
    seen' = seen ∪ list_to_set ((fun l => canonicalize_url (url_of l)) <$> links) /\
    NoDup ((fun l => canonicalize_url (url_of l)) <$> out.*2) /\
    StronglySorted lt out.*1 /\
    (forall i l, (i, l) ∈ out <->
       links !! i = Some l /\ (canonicalize_url (url_of l) ∉ seen) /\
       forall j l', (j < i)%nat -> links !! j = Some l' ->
         canonicalize_url (url_of l') <> canonicalize_url (url_of l))).
  { intros out seen' E. rewrite E in H. cbn [fst snd] in H.
    destruct H as (H1 & H2 & H3 & H4 & H5).
    split_and!; [done..|]. intros i l. split.
    - intros Hin. destruct (H5 i l Hin) as (_ & Hl & Hc & Hfirst).
      rewrite Nat.sub_0_r in Hl, Hfirst. done.
    - intros (Hl & Hc & Hfirst).
      assert (Hin : canonicalize_url (url_of l) ∈
                (list_to_set ((fun l => canonicalize_url (url_of l)) <$> out.*2)
                   : gset string)).
      { assert (Hs : canonicalize_url (url_of l) ∈ seen').
        { rewrite H1. apply elem_of_union_r, elem_of_list_to_set, list_elem_of_fmap.
          exists l. split; [done|]. by eapply list_elem_of_lookup_2. }
        rewrite H2 in Hs. set_solver. }
      apply elem_of_list_to_set, list_elem_of_fmap in Hin as (l' & Heq & Hin).
      apply list_elem_of_fmap in Hin as ([i' l''] & -> & Hin). simpl in Heq.
      destruct (H5 i' l'' Hin) as (_ & Hl' & _ & Hfirst').
      rewrite Nat.sub_0_r in Hl', Hfirst'.
      destruct (Nat.lt_trichotomy i i') as [Hlt|[->|Hgt]].
      + by destruct (Hfirst' i l Hlt Hl).
      + by simplify_eq.
      + symmetry in Heq. by destruct (Hfirst i' l'' Hgt Hl'). }
  subst seen. destruct seen_urls_arg as [seen|]; cbn [default from_option id] in *.
  - destruct (dedup_loop canonicalize_url url_of seen 0 links) as [out seen'] eqn:E.
    destruct (Hiff out seen' eq_refl) as (H1 & H2 & H3 & H4).
    cbn [default from_option id]. split_and!; eauto.
  - destruct (dedup_loop canonicalize_url url_of (seen_urls self) 0 links)
      as [out seen'] eqn:E.
    destruct (Hiff out seen' eq_refl) as (H1 & H2 & H3 & H4).
    cbn [default from_option id seen_urls]. split_and!; eauto.
Qed.



End Dedup.

(** *** The links of a response *)

Section Intake.
Context (lib : Library).
Context (get_domain : string -> string) (canonicalize_url : string -> string).




End Intake.

End links_more_facts.

(** ** Helpers *)

Module utils_facts.
Import utils.
Open Scope list_scope.

(** *** dict_aggregate_max *)

Section Aggregate.
Context `{Countable K}.

Lemma aggregate_items_spec (items : list (K * Z)) : forall (res : gmap K Z) key,
  NoDup items.*1 ->
  let res' := fold_left
    (fun res '(key, value) => <[key := Z.max (default value (res !! key)) value]> res)
    items res in
  (forall v, (key, v) ∈ items -> res' !! key = Some (Z.max (default v (res !! key)) v)) /\
  (key ∉ items.*1 -> res' !! key = res !! key).
Proof.
  induction items as [|[k0 v0] items IH]; intros res key Hnd; cbn zeta.
  { split; [intros v Hin; by apply elem_of_nil in Hin | done]. }
  rewrite fmap_cons in Hnd. apply NoDup_cons in Hnd as [Hk0 Hnd]. simpl in Hk0.
  cbn [fold_left].
  destruct (IH (<[k0 := Z.max (default v0 (res !! k0)) v0]> res) key Hnd) as [IH1 IH2].
  split.
  - intros v Hin. apply elem_of_cons in Hin as [[= -> ->]|Hin].
    + rewrite IH2 by done. apply lookup_insert_eq.
    + assert (key <> k0).
      { intros ->. apply Hk0, list_elem_of_fmap. by exists (k0, v). }
      rewrite (IH1 v Hin). by rewrite lookup_insert_ne.
  - intros Hnot. rewrite fmap_cons in Hnot. apply not_elem_of_cons in Hnot as [Hne Hnot].
    simpl in Hne. rewrite IH2 by done. by rewrite lookup_insert_ne.
Qed.

Lemma aggregate_dict_spec (dct res : gmap K Z) key :
  fold_left
    (fun res '(key, value) => <[key := Z.max (default value (res !! key)) value]> res)
    (map_to_list dct) res !! key
  = match dct !! key with
    | Some v => Some (Z.max (default v (res !! key)) v)
    | None => res !! key
    end.
Proof.
  destruct (aggregate_items_spec (map_to_list dct) res key) as [H1 H2].
  { apply NoDup_fst_map_to_list. }
  destruct (dct !! key) as [v|] eqn:E.
  - apply H1. by apply elem_of_map_to_list.
  - apply H2. intros Hin. apply list_elem_of_fmap in Hin as ([k v] & -> & Hin).
    apply elem_of_map_to_list in Hin. simpl in E. congruence.
Qed.

Lemma aggregate_dicts_spec (dicts : list (gmap K Z)) : forall (res : gmap K Z) key,
  match fold_left
          (fun res dct =>
             fold_left
               (fun res '(key, value) =>
                  <[key := Z.max (default value (res !! key)) value]> res)
               (map_to_list dct) res)
          dicts res !! key with
  | None => res !! key = None /\ forall dct, dct ∈ dicts -> dct !! key = None
  | Some v =>
      (res !! key = Some v \/ exists dct, dct ∈ dicts /\ dct !! key = Some v) /\
      (forall v0, res !! key = Some v0 -> v0 <= v) /\
      (forall dct v', dct ∈ dicts -> dct !! key = Some v' -> v' <= v)
  end.
Proof.
  induction dicts as [|dct dicts IH]; intros res key; cbn [fold_left].
  { destruct (res !! key) as [v|] eqn:E.
    - split_and!; [by left | intros v0 [= ->]; lia |].
      intros dct v' Hin. by apply elem_of_nil in Hin.
    - split; [done|]. intros dct Hin. by apply elem_of_nil in Hin. }
  set (res1 := fold_left _ (map_to_list dct) res).
  pose proof (aggregate_dict_spec dct res key) as H1. fold res1 in H1.
  specialize (IH res1 key).
  destruct (fold_left _ dicts res1 !! key) as [v|].
  - destruct IH as (Hv & Hres & Hd).
    destruct (dct !! key) as [vd|] eqn:Ed.
    + pose proof (Hres _ H1) as Hle.
      split_and!.
      * destruct Hv as [Hv|(d & Hin & Hd')]; [|right; exists d; split; [by right | done]].
        rewrite H1 in Hv. injection Hv as Hv.
        destruct (res !! key) as [v0|] eqn:E0; cbn [default from_option id] in *.
        -- destruct (Z.max_spec v0 vd) as [[? Hm]|[? Hm]]; rewrite Hm in Hv.
           ++ right. exists dct. split; [by left | by rewrite <- Hv].
           ++ left. by rewrite <- Hv.
        -- rewrite Z.max_id in Hv. right. exists dct. split; [by left | by rewrite <- Hv].
      * intros v0 Hv0. rewrite Hv0 in Hle. cbn [default from_option id] in Hle. lia.
      * intros d v' Hin Hd'. apply elem_of_cons in Hin as [->|Hin]; [|by eapply Hd].
        rewrite Ed in Hd'. injection Hd' as <-. lia.
    + split_and!.
      * destruct Hv as [Hv|(d & Hin & Hd')]; [left; congruence|].
        right. exists d. split; [by right | done].
      * intros v0 Hv0. apply Hres. congruence.
      * intros d v' Hin Hd'. apply elem_of_cons in Hin as [->|Hin]; [congruence|].
        by eapply Hd.
  - destruct IH as (Hres & Hd).
    destruct (dct !! key) as [vd|] eqn:Ed; [congruence|].
    split; [congruence|].
    intros d Hin. apply elem_of_cons in Hin as [->|Hin]; [done | by apply Hd].
Qed.

(** X24: [dict_aggregate_max] keeps, for each key, the greatest of the values
    that the dicts have for it: a key of the result is a key of one of the
    dicts, its value is the value of one of them and no dict has a greater
    one for it; a key that no dict has is not in the result. *)
Theorem dict_aggregate_max_is_the_maximum (dicts : list (gmap K Z)) (key : K) :
  match dict_aggregate_max dicts !! key with
  | None => forall dct, dct ∈ dicts -> dct !! key = None
  | Some v =>
      (exists dct, dct ∈ dicts /\ dct !! key = Some v) /\
      (forall dct v', dct ∈ dicts -> dct !! key = Some v' -> v' <= v)
  end.
Proof.
  unfold dict_aggregate_max.
  pose proof (aggregate_dicts_spec dicts ∅ key) as Hspec.
  destruct (fold_left _ dicts ∅ !! key) as [v|].
  - destruct Hspec as ([Hv|Hv] & _ & Hd); [by rewrite lookup_empty in Hv | done].
  - apply Hspec.
Qed.

End Aggregate.

(** *** decreasing_priority_iter *)

(** X25: [decreasing_priority_iter(N)] with a positive [N] yields 0 for the
    first [N] turns, then -1 for [N] turns, and so on: the value at a turn
    is [-k] exactly when the turn lies in the block [k], and the values
    never increase. *)
Theorem decreasing_priority_iter_blocks (N : Z) (idx : nat) :
  0 < N ->
  exists p, decreasing_priority_iter N idx = Some p /\
    p <= 0 /\
    (forall k, p = - k <-> k * N <= Z.of_nat idx < (k + 1) * N) /\
    (forall idx' p', (idx <= idx')%nat ->
       decreasing_priority_iter N idx' = Some p' -> p' <= p).
Proof.
  intros HN. unfold decreasing_priority_iter.
  destruct (N =? 0) eqn:E; [apply Z.eqb_eq in E; lia|].
  exists (- (Z.of_nat idx / N)). split_and!; [done | | |].
  - pose proof (Z.div_pos (Z.of_nat idx) N). lia.
  - intros k. split.
    + intros Hk. assert (k = Z.of_nat idx / N) as -> by lia.
      pose proof (Z.mul_div_le (Z.of_nat idx) N HN).
      pose proof (Z.mul_succ_div_gt (Z.of_nat idx) N HN). lia.
    + intros Hk. f_equal. symmetry. apply (Z.div_unique _ _ _ (Z.of_nat idx - k * N)); lia.
  - intros idx' p' Hle [= <-].
    pose proof (Z.div_le_mono (Z.of_nat idx) (Z.of_nat idx') N HN). lia.
Qed.

Lemma decreasing_priority_iter_blocks_witness :
  0 < 5 /\
  exists p, decreasing_priority_iter 5 7 = Some p /\ p <= 0.
Proof.
  assert (H : 0 < 5) by lia.
  split; [exact H|].
  destruct (decreasing_priority_iter_blocks 5 7 H) as (p & Hp & Hle & _).
  by exists p.
Defined.

(** *** MaxScores *)

Section Scores.
Context `{Countable K}.
Import MaxScores.

Lemma Qlt_bool_iff (x y : Q) : Qlt_bool x y = true <-> (x < y)%Q.
Proof.
  unfold Qlt_bool. rewrite negb_true_iff. split.
  - intros E. apply Qnot_le_lt. intros Hle. apply Qle_bool_iff in Hle. congruence.
  - intros Hlt. destruct (Qle_bool y x) eqn:E; [|done].
    apply Qle_bool_iff in E. by apply Qlt_not_le in Hlt.
Qed.

Lemma max_spec (a b : Q) :
  (a <= max a b)%Q /\ (b <= max a b)%Q /\ (max a b = a \/ max a b = b).
Proof.
  unfold max. destruct (Qlt_bool a b) eqn:E.
  - apply Qlt_bool_iff in E. split_and!; [by apply Qlt_le_weak | apply Qle_refl | by right].
  - split_and!; [apply Qle_refl | | by left].
    apply Qnot_lt_le. intros Hlt. apply Qlt_bool_iff in Hlt. congruence.
Qed.

Lemma update_all_spec (us : list (K * Q)) (dflt : Q) (key : K) :
  let s := fold_left (fun s '(k, v) => update s k v) us (__init__ dflt) in
  default_score s = dflt /\
  (dflt <= __getitem__ s key)%Q /\
  (forall x, (key, x) ∈ us -> (x <= __getitem__ s key)%Q) /\
  (__getitem__ s key = dflt \/ (key, __getitem__ s key) ∈ us) /\
  (is_Some (scores s !! key) <-> key ∈ us.*1) /\
  dom (scores s) = list_to_set us.*1.
Proof.
  induction us as [|[k v] us IH] using rev_ind; cbn zeta.
  { unfold __getitem__. simpl. rewrite lookup_empty.
    split_and!; [done | apply Qle_refl | | by left | | set_solver].
    - intros x Hin. by apply elem_of_nil in Hin.
    - split; [by intros [? ?] | intros Hin; by apply elem_of_nil in Hin]. }
  rewrite fold_left_app. cbn [fold_left].
  set (s := fold_left (fun s '(k, v) => update s k v) us (__init__ dflt)) in *.
  cbn zeta in IH. destruct IH as (Hd & Hge & Hall & Hone & Hdom & Hdom').
  unfold update, __getitem__ in *. cbn [default_score scores].
  rewrite Hd in Hge, Hone, Hall |- *. rewrite fmap_app.
  destruct (decide (key = k)) as [Heq|Hne].
  - subst k. rewrite lookup_insert_eq.
    set (old := default dflt (scores s !! key)) in *.
    assert (Hold : old = match scores s !! key with Some v => v | None => dflt end).
    { subst old. by destruct (scores s !! key). }
    rewrite <- Hold in Hge, Hall, Hone.
    destruct (max_spec old v) as (H1 & H2 & H3).
    split_and!.
    + done.
    + by eapply Qle_trans.
    + intros x Hin. apply elem_of_app in Hin as [Hin|Hin].
      * eapply Qle_trans; [by apply Hall | done].
      * apply list_elem_of_singleton in Hin. by injection Hin as ->.
    + destruct H3 as [-> | ->].
      * destruct Hone as [Hone|Hone]; [by left | right; apply elem_of_app; by left].
      * right. apply elem_of_app. right. by left.
    + split; [intros _; apply elem_of_app; right; by left | by eauto].
    + rewrite dom_insert_L, Hdom', list_to_set_app_L. simpl. set_solver.
  - rewrite lookup_insert_ne by done.
    split_and!.
    + done.
    + done.
    + intros x Hin. apply elem_of_app in Hin as [Hin|Hin]; [by apply Hall|].
      apply list_elem_of_singleton in Hin. congruence.
    + destruct Hone as [Hone|Hone]; [by left | right; apply elem_of_app; by left].
    + rewrite Hdom. split; [intros Hin; apply elem_of_app; by left|].
      intros Hin. apply elem_of_app in Hin as [Hin|Hin]; [done|].
      apply list_elem_of_singleton in Hin. simpl in Hin. congruence.
    + rewrite dom_insert_L, Hdom', list_to_set_app_L. simpl. set_solver.
Qed.

(** X26: [MaxScores] after any updates.  The score of a key is the greatest
    of the default and the values the key was updated with: it is not below
    the default nor below any of these values, and it is one of them; a key
    that was never updated reads as the default; and the length is the
    number of the keys that were updated. *)
Theorem MaxScores_keeps_the_maximum (us : list (K * Q)) (dflt : Q) (key : K) :
  let s := fold_left (fun s '(k, v) => update s k v) us (__init__ dflt) in
  (dflt <= __getitem__ s key)%Q /\
  (forall x, (key, x) ∈ us -> (x <= __getitem__ s key)%Q) /\
  (__getitem__ s key = dflt \/ (key, __getitem__ s key) ∈ us) /\
  (key ∉ us.*1 -> __getitem__ s key = dflt) /\
  __len__ s = size (list_to_set us.*1 : gset K).
Proof.
  destruct (update_all_spec us dflt key) as (Hd & Hge & Hall & Hone & Hdom & Hdom').
  cbn zeta in *. split_and!; [done.. | |].
  - intros Hnot. destruct Hone as [Hone|Hone]; [done|].
    destruct Hnot. apply list_elem_of_fmap. by exists (key, __getitem__
      (fold_left (fun s '(k, v) => update s k v) us (__init__ dflt)) key).
  - unfold __len__. by rewrite <- Hdom', size_dom.
Qed.

End Scores.

End utils_facts.

(** ** Crawl objectives *)

Module goals_facts.
Import goals.
Open Scope list_scope.

Section Goals.
Context {Response : Type} `{Countable Response}.
Context (get_response_domain : Response -> string).

Local Abbreviation step := (RelevancyGoal_step get_response_domain).
Local Abbreviation count_for := (count_for get_response_domain).

(** *** RelevancyGoal *)

Lemma incr_lookup m key d :
  default 0 (incr m key !! d) = default 0 (m !! d) + (if decide (key = d) then 1 else 0).
Proof.
  unfold incr. destruct (decide (key = d)) as [->|Hne].
  - by rewrite lookup_insert_eq.
  - rewrite lookup_insert_ne by done. lia.
Qed.

Lemma read_spec m key :
  (read m key).1 = default 0 (m !! key) /\
  forall d, default 0 ((read m key).2 !! d) = default 0 (m !! d).
Proof.
  unfold read. destruct (m !! key) as [v|] eqn:E; simpl; [done|].
  split; [done|]. intros d. destruct (decide (key = d)) as [->|Hne].
  - by rewrite lookup_insert_eq, E.
  - by rewrite lookup_insert_ne.
Qed.

Lemma count_for_snoc P d rs r :
  count_for P d (rs ++ [r]) =
  count_for P d rs + (if decide (get_response_domain r = d /\ P r = true) then 1 else 0).
Proof.
  unfold goals.count_for. rewrite filter_app, length_app.
  destruct (decide (get_response_domain r = d /\ P r = true)) as [Hd|Hd].
  - rewrite (filter_cons_True
               (fun r0 => get_response_domain r0 = d /\ P r0 = true) r [] Hd). simpl. lia.
  - rewrite (filter_cons_False
               (fun r0 => get_response_domain r0 = d /\ P r0 = true) r [] Hd). simpl. lia.
Qed.

Lemma count_for_app_le P d rs rs' :
  count_for P d rs <= count_for P d (rs ++ rs').
Proof. unfold goals.count_for. rewrite filter_app, length_app. lia. Qed.

Lemma observed_app (ops ops' : list (goal_op Response)) :
  observed (ops ++ ops') = observed ops ++ observed ops'.
Proof. unfold observed. apply omap_app. Qed.

Lemma is_acheived_for_spec (g : RelevancyGoal Response) d :
  let b := (RelevancyGoal_is_acheived_for g d).1 in
  let g' := (RelevancyGoal_is_acheived_for g d).2 in
  (b = true <->
     (exists limit, max_requests_per_domain g = Some limit /\
        limit <= default 0 (request_count g !! d)) \/
     (exists limit, max_relevant_pages_per_domain g = Some limit /\
        (limit <= inject_Z (default 0%Z (relevant_pages_found g !! d)))%Q)) /\
  relevancy g' = relevancy g /\
  relevancy_threshold g' = relevancy_threshold g /\
  max_requests_per_domain g' = max_requests_per_domain g /\
  max_relevant_pages_per_domain g' = max_relevant_pages_per_domain g /\
  (forall d', default 0 (request_count g' !! d') = default 0 (request_count g !! d')) /\
  (forall d', default 0 (relevant_pages_found g' !! d')
              = default 0 (relevant_pages_found g !! d')).
Proof.
  cbn zeta.
  unfold RelevancyGoal_is_acheived_for, _max_requests_reached, _max_relevant_pages_reached.
  destruct (read_spec (request_count g) d) as [Hn Hm].
  destruct (read_spec (relevant_pages_found g) d) as [Hn' Hm'].
  destruct (max_requests_per_domain g) as [limit|] eqn:E1.
  - destruct (read (request_count g) d) as [n m]. cbn [fst snd] in Hn, Hm. subst n.
    destruct (limit <=? default 0 (request_count g !! d)) eqn:Ea.
    + apply Z.leb_le in Ea. cbn [fst snd]; split_and!; try done.
      split; [|done]. intros _. left. by exists limit.
    + apply Z.leb_gt in Ea. cbn [with_request_count max_relevant_pages_per_domain
                                   relevant_pages_found].
      destruct (max_relevant_pages_per_domain g) as [limit'|] eqn:E2.
      * destruct (read (relevant_pages_found g) d) as [n' m'].
        cbn [fst snd] in Hn', Hm'. subst n'. cbn [fst snd]; split_and!; try done.
        rewrite Qle_bool_iff. split.
        -- intros Hb. right. by exists limit'.
        -- intros [(l & [= <-] & Hl)|(l & [= <-] & Hl)]; [lia | done].
      * cbn [fst snd]; split_and!; try done. split; [done|].
        intros [(l & [= <-] & Hl)|(l & Hl & _)]; [lia | done].
  - destruct (max_relevant_pages_per_domain g) as [limit'|] eqn:E2.
    + destruct (read (relevant_pages_found g) d) as [n' m'].
      cbn [fst snd] in Hn', Hm'. subst n'. cbn [fst snd]; split_and!; try done.
      rewrite Qle_bool_iff. split.
      * intros Hb. right. by exists limit'.
      * intros [(l & Hl & _)|(l & [= <-] & Hl)]; done.
    + cbn [fst snd]; split_and!; try done. split; [done|].
      intros [(l & Hl & _)|(l & Hl & _)]; done.
Qed.

Lemma RelevancyGoal_run_spec relevancy limit limit' thr
    (ops : list (goal_op Response)) :
  let g := fold_left step ops (RelevancyGoal__init__ relevancy limit limit' thr) in
  goals.relevancy g = relevancy /\
  relevancy_threshold g = thr /\
  max_requests_per_domain g = limit /\
  max_relevant_pages_per_domain g = limit' /\
  (forall d, default 0 (request_count g !! d)
             = count_for (fun _ => true) d (observed ops)) /\
  (forall d, default 0 (relevant_pages_found g !! d)
             = count_for (fun r => Qle_bool thr (relevancy r)) d (observed ops)).
Proof.
  induction ops as [|o ops IH] using rev_ind; cbn zeta.
  { split_and!; try done; intros d; by rewrite lookup_empty. }
  rewrite fold_left_app, observed_app. cbn [fold_left].
  set (g := fold_left step ops (RelevancyGoal__init__ relevancy limit limit' thr)) in *.
  cbn zeta in IH. destruct IH as (H1 & H2 & H3 & H4 & H5 & H6).
  destruct o as [r|d0]; cbn [RelevancyGoal_step].
  - change (observed [Observe r]) with [r].
    unfold RelevancyGoal_response_observed.
    cbn [with_request_count goals.relevancy relevancy_threshold relevant_pages_found].
    rewrite H1, H2.
    destruct (Qle_bool thr (relevancy r)) eqn:E;
      cbn [with_request_count with_relevant_pages_found goals.relevancy
           relevancy_threshold max_requests_per_domain max_relevant_pages_per_domain
           request_count relevant_pages_found]; split_and!; try done.
    + intros d. rewrite incr_lookup, count_for_snoc, H5.
      destruct (decide (get_response_domain r = d));
        destruct (decide (get_response_domain r = d /\ true = true)); tauto || lia.
    + intros d. rewrite incr_lookup, count_for_snoc, H6.
      destruct (decide (get_response_domain r = d));
        destruct (decide (get_response_domain r = d /\ Qle_bool thr (relevancy r) = true));
        tauto || lia.
    + intros d. rewrite incr_lookup, count_for_snoc, H5.
      destruct (decide (get_response_domain r = d));
        destruct (decide (get_response_domain r = d /\ true = true)); tauto || lia.
    + intros d. rewrite count_for_snoc, H6.
      destruct (decide (get_response_domain r = d /\ Qle_bool thr (relevancy r) = true))
        as [[_ Hr]|_]; [congruence | lia].
  - change (observed [Ask d0]) with (@nil Response). rewrite app_nil_r.
    pose proof (is_acheived_for_spec g d0) as Hs. cbn zeta in Hs.
    destruct (RelevancyGoal_is_acheived_for g d0) as [b g'].
    destruct Hs as (_ & S1 & S2 & S3 & S4 & S5 & S6). cbn [snd] in *.
    split_and!; congruence.
Qed.

(** X27: [RelevancyGoal].  However the responses are observed and the goal
    is asked, [is_acheived_for] of a domain holds exactly when
    [max_requests_per_domain] is set and is not above the number of the
    responses observed for the domain, or [max_relevant_pages_per_domain]
    is set and is not above the number of those of them whose relevancy
    reaches [relevancy_threshold]; so with both limits [None] it never
    holds, and once it holds for a domain it holds after every further
    observation. *)
Theorem RelevancyGoal_is_acheived_by_counts (relevancy : Response -> Q)
    (max_requests : option Z) (max_relevant_pages : option Q) (thr : Q)
    (ops : list (goal_op Response)) (domain : string) :
  let goal_after := fun ops =>
    fold_left step ops (RelevancyGoal__init__ relevancy max_requests max_relevant_pages thr) in
  let acheived := fun ops => (RelevancyGoal_is_acheived_for (goal_after ops) domain).1 in
  (acheived ops = true <->
     (exists limit, max_requests = Some limit /\
        limit <= count_for (fun _ => true) domain (observed ops)) \/
     (exists limit, max_relevant_pages = Some limit /\
        (limit <= inject_Z (count_for (fun r => Qle_bool thr (relevancy r)) domain
                              (observed ops)))%Q)) /\
  (max_requests = None -> max_relevant_pages = None -> acheived ops = false) /\
  (forall ops', acheived ops = true -> acheived (ops ++ ops') = true).
Proof.
  intros goal_after acheived.
  assert (Hiff : forall ops,
    acheived ops = true <->
     (exists limit, max_requests = Some limit /\
        limit <= count_for (fun _ => true) domain (observed ops)) \/
     (exists limit, max_relevant_pages = Some limit /\
        (limit <= inject_Z (count_for (fun r => Qle_bool thr (relevancy r)) domain
                              (observed ops)))%Q)).
  { intros ops0. subst acheived goal_after. cbn beta.
    destruct (RelevancyGoal_run_spec relevancy max_requests max_relevant_pages thr ops0)
      as (_ & _ & H3 & H4 & H5 & H6).
    pose proof (is_acheived_for_spec
      (fold_left step ops0
         (RelevancyGoal__init__ relevancy max_requests max_relevant_pages thr)) domain) as Hs.
    cbn zeta in Hs. destruct Hs as (Hb & _). by rewrite Hb, H3, H4, H5, H6. }
  split_and!.
  - apply Hiff.
  - intros -> ->. destruct (acheived ops) eqn:E; [|done].
    apply Hiff in E as [(l & Hl & _)|(l & Hl & _)]; done.
  - intros ops' Ha. apply Hiff. apply Hiff in Ha.
    rewrite observed_app.
    destruct Ha as [(l & Hl & Hle)|(l & Hl & Hle)]; [left | right]; exists l; split; try done.
    + etrans; [exact Hle | apply count_for_app_le].
    + eapply Qle_trans; [exact Hle|]. rewrite <- Zle_Qle. apply count_for_app_le.
Qed.

(** *** FormasaurusGoal *)

Local Abbreviation fstep := (FormasaurusGoal_step get_response_domain).

Lemma FormasaurusGoal_run_spec scores_of text ftype thr
    (ops : list (formasaurus_op Response)) :
  let g0 := FormasaurusGoal__init__ scores_of text ftype thr in
  let g := fold_left fstep ops g0 in
  response_max_scores g = scores_of /\
  has_text g = text /\
  formtype g = ftype /\
  threshold g = thr /\
  (forall r s, _cache g !! r = Some s -> s = score_of g0 r) /\
  _domain_scores g =
    fold_left (fun s '(k, v) => utils.MaxScores.update s k v)
      ((fun r => (get_response_domain r, score_of g0 r)) <$> fobserved ops)
      (utils.MaxScores.__init__ 0).
Proof.
  induction ops as [|o ops IH] using rev_ind; cbn zeta.
  { split_and!; done. }
  rewrite fold_left_app. cbn [fold_left].
  cbn zeta in IH.
  set (g0 := FormasaurusGoal__init__ scores_of text ftype thr) in *.
  set (g := fold_left fstep ops g0) in *.
  destruct IH as (H1 & H2 & H3 & H4 & H5 & H6).
  assert (Hscore : forall r, score_of g r = score_of g0 r).
  { intros r. unfold score_of. by rewrite H1, H2, H3. }
  assert (Hget : forall r, (FormasaurusGoal_get_reward g r).1 = score_of g0 r /\
            response_max_scores (FormasaurusGoal_get_reward g r).2 = scores_of /\
            has_text (FormasaurusGoal_get_reward g r).2 = text /\
            formtype (FormasaurusGoal_get_reward g r).2 = ftype /\
            threshold (FormasaurusGoal_get_reward g r).2 = thr /\
            (forall r' s, _cache (FormasaurusGoal_get_reward g r).2 !! r' = Some s ->
               s = score_of g0 r') /\
            _domain_scores (FormasaurusGoal_get_reward g r).2 = _domain_scores g).
  { intros r. unfold FormasaurusGoal_get_reward.
    destruct (_cache g !! r) as [s|] eqn:E; cbn [fst snd].
    - split_and!; try done. by apply H5.
    - cbn [response_max_scores has_text formtype threshold _cache _domain_scores].
      split_and!; try done. intros r' s.
      destruct (decide (r = r')) as [->|Hne].
      + rewrite lookup_insert_eq. intros [= <-]. apply Hscore.
      + rewrite lookup_insert_ne by done. apply H5. }
  unfold fobserved. rewrite omap_app, fmap_app, fold_left_app. fold (fobserved ops).
  destruct o as [r|r]; cbn [FormasaurusGoal_step omap list_omap fmap list_fmap fold_left app].
  - unfold FormasaurusGoal_response_observed.
    destruct (Hget r) as (G0 & G1 & G2 & G3 & G4 & G5 & G6).
    destruct (FormasaurusGoal_get_reward g r) as [reward g']. cbn [fst snd] in *.
    cbn [response_max_scores has_text formtype threshold _cache _domain_scores].
    split_and!; try done. by rewrite G6, H6, G0.
  - destruct (Hget r) as (G0 & G1 & G2 & G3 & G4 & G5 & G6).
    split_and!; try done. by rewrite G6, H6.
Qed.

(** X28: [FormasaurusGoal].  [get_reward] gives the score of the response
    for the form type (0 when the response has no text or no score for the
    type), whatever the cache holds; and [is_acheived_for] of a domain holds
    exactly when the threshold is below 0 or below the reward of a response
    that was observed for the domain. *)
Theorem FormasaurusGoal_is_acheived_by_a_reward
    (scores_of : Response -> gmap string Q) (text : Response -> bool)
    (ftype : string) (thr : Q)
    (ops : list (formasaurus_op Response)) (domain : string) :
  let g0 := FormasaurusGoal__init__ scores_of text ftype thr in
  let reward := fun r => if text r then default 0%Q (scores_of r !! ftype) else 0%Q in
  let g := fold_left fstep ops g0 in
  (forall r, (FormasaurusGoal_get_reward g r).1 = reward r) /\
  (FormasaurusGoal_is_acheived_for g domain = true <->
     (thr < 0)%Q \/
     exists r, r ∈ fobserved ops /\ get_response_domain r = domain /\ (thr < reward r)%Q).
Proof.
  intros g0 reward g.
  pose proof (FormasaurusGoal_run_spec scores_of text ftype thr ops) as Hs.
  cbn zeta in Hs. fold g0 in Hs. fold g in Hs.
  destruct Hs as (H1 & H2 & H3 & H4 & H5 & H6).
  assert (Hreward : forall r, score_of g0 r = reward r) by done.
  split.
  - intros r. unfold FormasaurusGoal_get_reward.
    destruct (_cache g !! r) as [s|] eqn:E; cbn [fst].
    + by rewrite (H5 r s E).
    + rewrite <- Hreward. unfold score_of. by rewrite H1, H2, H3.
  - unfold FormasaurusGoal_is_acheived_for. rewrite H4, H6, utils_facts.Qlt_bool_iff.
    set (us := (fun r => (get_response_domain r, score_of g0 r)) <$> fobserved ops).
    destruct (utils_facts.update_all_spec us 0%Q domain) as (_ & Hge & Hall & Hone & _).
    cbn zeta in Hge, Hall, Hone.
    set (v := utils.MaxScores.__getitem__ _ domain) in *.
    split.
    + intros Hlt. destruct Hone as [Hone|Hone].
      * left. by rewrite Hone in Hlt.
      * right. subst us. apply list_elem_of_fmap in Hone as (r & [= Hd Hv] & Hin).
        exists r. split_and!; [done | done |]. by rewrite <- Hreward, <- Hv.
    + intros [Hneg|(r & Hin & Hd & Hlt)].
      * by eapply Qlt_le_trans.
      * eapply Qlt_le_trans; [exact Hlt|]. apply Hall. subst us.
        apply list_elem_of_fmap. exists r. by rewrite Hd.
Qed.

End Goals.
End goals_facts.

(** ** Softmax *)

Module softmax_facts.
Import float_utils.

(** The decimal literals stand for the nearest float64, as in Python. *)
Local Set Warnings "-inexact-float".





(** Without overflow the components sum to one up to rounding only.  Six
    zero scores give six times the float next below 1/6, whose exact value is
    6004799503160661 * 2^-55; six times this value is less than one. *)
Lemma softmax_of_six_zeros (np : Numpy) :
  np_exp np 0 = 1%float -> np_max np [0; 0; 0; 0; 0; 0]%float = 0%float ->
  np_sum np [1; 1; 1; 1; 1; 1]%float = 6%float ->
  exists x : float,
    softmax np [0; 0; 0; 0; 0; 0]%float 1 = [x; x; x; x; x; x] /\
    Prim2SF x = S754_finite false 6004799503160661 (-55) /\
    6 * 6004799503160661 < 2 ^ 55.
Proof.
  intros Hexp Hmax Hsum. exists (1 / 6)%float. split_and!; [|reflexivity..].
  unfold softmax. cbn [decide length].
  change ((fun x => x / 1)%float <$> [0; 0; 0; 0; 0; 0]%float)
    with [0; 0; 0; 0; 0; 0]%float.
  rewrite Hmax. cbn [fmap list_fmap].
  change (0 - 0)%float with 0%float. rewrite Hexp, Hsum. reflexivity.
Qed.

End softmax_facts.

(** ** Shared Request objects *)

(** The functions of heapq read the order only through its values. *)
Module heapq_ext.
Section Ext.
Context {A : Type} (lt1 lt2 : A -> A -> bool).
Hypothesis Hlt : forall a b, lt1 a b = lt2 a b.

Lemma siftdown_loop_ext fuel : forall heap newitem startpos pos,
  heapq.siftdown_loop lt1 fuel heap newitem startpos pos
  = heapq.siftdown_loop lt2 fuel heap newitem startpos pos.
Proof.
  induction fuel as [|fuel IH]; intros heap newitem startpos pos;
    cbn [heapq.siftdown_loop]; [done|].
  destruct (decide (startpos < pos)%nat); [|done].
  destruct (heap !! ((pos - 1) / 2)%nat) as [parent|]; [|done].
  rewrite Hlt. destruct (lt2 newitem parent); [apply IH | done].
Qed.

Lemma _siftdown_ext heap startpos pos :
  heapq._siftdown lt1 heap startpos pos = heapq._siftdown lt2 heap startpos pos.
Proof.
  unfold heapq._siftdown. destruct (heap !! pos); [apply siftdown_loop_ext | done].
Qed.

Lemma siftup_loop_ext fuel : forall heap pos,
  heapq.siftup_loop lt1 fuel heap pos = heapq.siftup_loop lt2 fuel heap pos.
Proof.
  induction fuel as [|fuel IH]; intros heap pos; cbn [heapq.siftup_loop]; [done|].
  cbv zeta.
  destruct (decide (2 * pos + 1 < length heap)%nat); [|done].
  set (c1 := match heap !! (2 * pos + 1)%nat, heap !! (2 * pos + 1 + 1)%nat with
             | Some l, Some r => if negb (lt1 l r) then (2 * pos + 1 + 1)%nat
                                 else (2 * pos + 1)%nat
             | _, _ => (2 * pos + 1)%nat
             end).
  set (c2 := match heap !! (2 * pos + 1)%nat, heap !! (2 * pos + 1 + 1)%nat with
             | Some l, Some r => if negb (lt2 l r) then (2 * pos + 1 + 1)%nat
                                 else (2 * pos + 1)%nat
             | _, _ => (2 * pos + 1)%nat
             end).
  assert (Hc : c1 = c2).
  { unfold c1, c2.
    destruct (heap !! (2 * pos + 1)%nat), (heap !! (2 * pos + 1 + 1)%nat); try done.
    by rewrite Hlt. }
  rewrite Hc. destruct (heap !! c2); [apply IH | done].
Qed.

Lemma _siftup_ext heap pos : heapq._siftup lt1 heap pos = heapq._siftup lt2 heap pos.
Proof.
  unfold heapq._siftup. destruct (heap !! pos); [|done].
  rewrite siftup_loop_ext. destruct (heapq.siftup_loop lt2 _ heap pos).
  apply _siftdown_ext.
Qed.

Lemma heappush_ext heap item : heapq.heappush lt1 heap item = heapq.heappush lt2 heap item.
Proof. apply _siftdown_ext. Qed.

Lemma heappop_ext heap : heapq.heappop lt1 heap = heapq.heappop lt2 heap.
Proof.
  unfold heapq.heappop. destruct (last heap); [|done].
  destruct (removelast heap); [done|]. by rewrite _siftup_ext.
Qed.

Lemma heapify_loop_ext i : forall x,
  heapq.heapify_loop lt1 i x = heapq.heapify_loop lt2 i x.
Proof. induction i as [|i IH]; intros x; simpl; [done|]. by rewrite _siftup_ext, IH. Qed.

Lemma heapify_ext x : heapq.heapify lt1 x = heapq.heapify lt2 x.
Proof. apply heapify_loop_ext. Qed.

End Ext.
End heapq_ext.

Module shared_facts.
Import queue_props run_props queue_more.
Import shared shared_props.

Local Abbreviation RQ_deref := RequestsPriorityQueue.deref.
Local Abbreviation RQ_handle_lt := RequestsPriorityQueue.handle_lt.

(** *** The view commutes with the methods *)

Lemma deref_view objs ar h :
  RQ_deref (view_entry objs <$> ar) h = view_entry objs (deref ar h).
Proof.
  unfold RequestsPriorityQueue.deref, deref. rewrite list_lookup_fmap.
  by destruct (ar !! h).
Qed.

Lemma handle_lt_view objs ar a b :
  handle_lt ar a b = RQ_handle_lt (view_entry objs <$> ar) a b.
Proof. unfold RequestsPriorityQueue.handle_lt. by rewrite !deref_view. Qed.

Lemma item_view objs ar h :
  item (RQ_deref (view_entry objs <$> ar) h)
  = match ref_item (deref ar h) with
    | Some o => Live (objs o)
    | None => REMOVED
    end.
Proof. by rewrite deref_view. Qed.

Lemma push_view x o :
  (push x o).1 = (RequestsPriorityQueue.push (view x) (objects x o)).1 /\
  view (push x o).2 = (RequestsPriorityQueue.push (view x) (objects x o)).2 /\
  objects (push x o).2 = objects x.
Proof.
  unfold push, RequestsPriorityQueue.push, view.
  cbn [fst snd arena entries counter step objects ref_arena ref_entries ref_counter ref_step].
  rewrite length_fmap. split_and!; [done | | done].
  f_equal.
  - by rewrite fmap_app.
  - rewrite (heapq_ext.heappush_ext _ _ (handle_lt_view (objects x) _)).
    by rewrite fmap_app.
Qed.

Lemma pop_loop_view fuel : forall x,
  view (pop_loop fuel x).2 = (RequestsPriorityQueue.pop_loop fuel (view x)).2 /\
  objects (pop_loop fuel x).2 = objects x /\
  objects x <$> (pop_loop fuel x).1 = (RequestsPriorityQueue.pop_loop fuel (view x)).1.
Proof.
  induction fuel as [|fuel IH]; intros x; [done|].
  cbn [pop_loop RequestsPriorityQueue.pop_loop].
  change (arena (view x)) with (view_entry (objects x) <$> ref_arena x).
  change (entries (view x)) with (ref_entries x).
  rewrite <- (heapq_ext.heappop_ext _ _ (handle_lt_view (objects x) (ref_arena x))).
  destruct (heapq.heappop _ _) as [[h es]|]; [|done].
  rewrite item_view.
  destruct (ref_item (deref (ref_arena x) h)) as [o|]; [done|].
  apply (IH (with_entries x es)).
Qed.

Lemma pop_view x :
  view (pop x).2 = (RequestsPriorityQueue.pop (view x)).2 /\
  objects (pop x).2 = objects x /\
  objects x <$> (pop x).1 = (RequestsPriorityQueue.pop (view x)).1.
Proof. apply pop_loop_view. Qed.

Lemma next_request_view x :
  RequestsPriorityQueue.next_request (view x)
  = (fun i => match i with Some o => Live (objects x o) | None => REMOVED end)
      <$> next_request x.
Proof.
  unfold RequestsPriorityQueue.next_request, next_request.
  change (entries (view x)) with (ref_entries x).
  destruct (ref_entries x) as [|h es]; [done|]. simpl. by rewrite item_view.
Qed.

Lemma _pop_empty_loop_view fuel : forall x,
  view (_pop_empty_loop fuel x) = RequestsPriorityQueue._pop_empty_loop fuel (view x) /\
  objects (_pop_empty_loop fuel x) = objects x.
Proof.
  induction fuel as [|fuel IH]; intros x; [done|].
  cbn [_pop_empty_loop RequestsPriorityQueue._pop_empty_loop].
  rewrite next_request_view.
  destruct (next_request x) as [[o|]|]; [done | | done]. simpl.
  change (arena (view x)) with (view_entry (objects x) <$> ref_arena x).
  change (entries (view x)) with (ref_entries x).
  rewrite <- (heapq_ext.heappop_ext _ _ (handle_lt_view (objects x) (ref_arena x))).
  destruct (heapq.heappop _ _) as [[h es]|]; [|done].
  apply (IH (with_entries x es)).
Qed.

Lemma heapify_view x :
  view (heapify x) = RequestsPriorityQueue.heapify (view x) /\
  objects (heapify x) = objects x.
Proof.
  unfold heapify, RequestsPriorityQueue.heapify, _pop_empty,
    RequestsPriorityQueue._pop_empty.
  set (x1 := with_entries x _).
  destruct (_pop_empty_loop_view (length (ref_entries x1)) x1) as [Hv Ho].
  split; [|done]. rewrite Hv. unfold x1, view. simpl.
  by rewrite <- (heapq_ext.heapify_ext _ _ (handle_lt_view (objects x) (ref_arena x))).
Qed.

Lemma root_key_view x : RequestsPriorityQueue.root_key (view x) = root_key x.
Proof.
  unfold RequestsPriorityQueue.root_key, root_key.
  change (entries (view x)) with (ref_entries x).
  destruct (ref_entries x) as [|h es]; [done|].
  change (arena (view x)) with (view_entry (objects x) <$> ref_arena x).
  by rewrite deref_view.
Qed.

Lemma remove_entry_view x h :
  view (remove_entry x h).2 = (RequestsPriorityQueue.remove_entry (view x) h).2 /\
  objects (remove_entry x h).2 = objects x /\
  (fun i => match i with Some o => Live (objects x o) | None => REMOVED end)
    (remove_entry x h).1 = (RequestsPriorityQueue.remove_entry (view x) h).1.
Proof.
  unfold remove_entry, RequestsPriorityQueue.remove_entry.
  rewrite root_key_view.
  change (arena (view x)) with (view_entry (objects x) <$> ref_arena x).
  rewrite list_lookup_fmap.
  destruct (ref_arena x !! h) as [e|] eqn:E; [|done].
  cbn [fmap option_fmap option_map fst snd objects].
  split_and!; [|done..].
  unfold view, RequestsPriorityQueue.with_arena.
  cbn [arena entries counter step objects ref_arena ref_entries ref_counter ref_step].
  by rewrite list_fmap_insert.
Qed.

Lemma handle_is_active_view objs ar h :
  RequestsPriorityQueue.handle_is_active (view_entry objs <$> ar) h
  = handle_is_active ar h.
Proof.
  unfold RequestsPriorityQueue.handle_is_active, handle_is_active,
    RequestsPriorityQueue.entry_is_active, entry_is_active.
  rewrite item_view. by destruct (ref_item (deref ar h)).
Qed.

Lemma iter_active_entries_view x :
  RequestsPriorityQueue.iter_active_entries (view x) = iter_active_entries x.
Proof.
  unfold RequestsPriorityQueue.iter_active_entries, iter_active_entries.
  change (entries (view x)) with (ref_entries x).
  change (arena (view x)) with (view_entry (objects x) <$> ref_arena x).
  apply list_filter_iff. intros h. by rewrite handle_is_active_view.
Qed.

Lemma iter_requests_view x :
  RequestsPriorityQueue.iter_requests (view x) = objects x <$> iter_requests x.
Proof.
  unfold RequestsPriorityQueue.iter_requests, iter_requests.
  rewrite iter_active_entries_view.
  change (arena (view x)) with (view_entry (objects x) <$> ref_arena x).
  induction (iter_active_entries x) as [|h hs IH]; [done|].
  cbn [omap list_omap]. rewrite item_view, IH.
  by destruct (ref_item (deref (ref_arena x) h)).
Qed.

Lemma max_priority_view x : RequestsPriorityQueue.max_priority (view x) = max_priority x.
Proof.
  unfold RequestsPriorityQueue.max_priority, max_priority.
  change (entries (view x)) with (ref_entries x).
  destruct (ref_entries x) as [|h es]; [done|].
  change (arena (view x)) with (view_entry (objects x) <$> ref_arena x).
  by rewrite deref_view.
Qed.

(** With no object in two entries, a write through an entry is seen through
    this entry only. *)
Lemma change_priority_view x h p :
  unshared x ->
  view (change_priority x h p) = RequestsPriorityQueue.change_priority (view x) h p.
Proof.
  intros Hun. unfold change_priority, RequestsPriorityQueue.change_priority.
  change (arena (view x)) with (view_entry (objects x) <$> ref_arena x).
  destruct (ref_arena x !! h) as [e|] eqn:E; cycle 1.
  { unfold view, RequestsPriorityQueue.with_arena. simpl. f_equal.
    apply list_eq. intros i. destruct (decide (i = h)) as [->|Hne].
    - by rewrite list_lookup_alter_eq, list_lookup_fmap, E.
    - by rewrite list_lookup_alter_ne. }
  unfold view, RequestsPriorityQueue.with_arena.
  cbn [arena entries counter step objects ref_arena ref_entries ref_counter ref_step].
  f_equal. apply list_eq. intros i.
  destruct (decide (i = h)) as [->|Hne].
  - rewrite list_lookup_alter_eq, !list_lookup_fmap, E.
    rewrite list_lookup_insert_eq by (by eapply lookup_lt_Some).
    cbn [fmap option_fmap option_map]. f_equal.
    unfold view_entry, RequestsPriorityQueue.change_priority_entry.
    cbn [neg_priority count item ref_neg_priority ref_count ref_item].
    f_equal. destruct (ref_item e) as [o|]; [|done].
    unfold written. by rewrite decide_True.
  - rewrite list_lookup_alter_ne by done. rewrite !list_lookup_fmap.
    rewrite list_lookup_insert_ne by done.
    destruct (ref_arena x !! i) as [e'|] eqn:E'; [|done].
    cbn [fmap option_fmap option_map]. f_equal.
    unfold view_entry. f_equal.
    destruct (ref_item e') as [o'|] eqn:Eo'; [|done].
    destruct (ref_item e) as [o|] eqn:Eo; [|done].
    unfold written. destruct (decide (o' = o)) as [->|]; [|done].
    by destruct (Hne (Hun i h e' e o E' E Eo' Eo)).
Qed.

(** *** What the methods do to the references that the entries hold *)

Lemma holds_less_refl x : holds_less x x.
Proof. split; [done|]. intros h e' He'. right. by exists e'. Qed.

Lemma holds_less_trans x1 x2 x3 : holds_less x1 x2 -> holds_less x2 x3 -> holds_less x1 x3.
Proof.
  intros [Hl1 H1] [Hl2 H2]. split; [congruence|].
  intros h e3 He3. destruct (H2 h e3 He3) as [?|(e2 & He2 & Heq)]; [by left|].
  destruct (H1 h e2 He2) as [?|(e1 & He1 & Heq')]; [left; congruence|].
  right. exists e1. split; [done | congruence].
Qed.

Lemma holds_less_same_arena x x' : ref_arena x' = ref_arena x -> holds_less x x'.
Proof. intros E. split; [by rewrite E|]. intros h e' He'. right. exists e'. by rewrite <- E. Qed.

Lemma holds_less_unshared x x' : holds_less x x' -> unshared x -> unshared x'.
Proof.
  intros [_ Hless] Hun h h' e e' o He He' Ho Ho'.
  destruct (Hless h e He) as [?|(e1 & He1 & Heq)]; [congruence|].
  destruct (Hless h' e' He') as [?|(e1' & He1' & Heq')]; [congruence|].
  apply (Hun h h' e1 e1' o); congruence.
Qed.

Lemma pop_loop_arena fuel : forall x, ref_arena (pop_loop fuel x).2 = ref_arena x.
Proof.
  induction fuel as [|fuel IH]; intros x; [done|]. cbn [pop_loop].
  destruct (heapq.heappop _ _) as [[h es]|]; [|done].
  destruct (ref_item _); [done | apply (IH (with_entries x es))].
Qed.

Lemma _pop_empty_loop_arena fuel : forall x,
  ref_arena (_pop_empty_loop fuel x) = ref_arena x.
Proof.
  induction fuel as [|fuel IH]; intros x; [done|]. cbn [_pop_empty_loop].
  destruct (next_request x) as [[o|]|]; [done | | done].
  destruct (heapq.heappop _ _) as [[h es]|]; [|done].
  apply (IH (with_entries x es)).
Qed.

Lemma heapify_arena x : ref_arena (heapify x) = ref_arena x.
Proof. unfold heapify, _pop_empty. by rewrite _pop_empty_loop_arena. Qed.

Lemma remove_entry_holds_less x h : holds_less x (remove_entry x h).2.
Proof.
  unfold remove_entry. destruct (ref_arena x !! h) as [e|] eqn:E; [|apply holds_less_refl].
  split; cbn [snd ref_arena]; [by rewrite length_insert|].
  intros i e' He'. destruct (decide (i = h)) as [->|Hne].
  - rewrite list_lookup_insert_eq in He' by (by eapply lookup_lt_Some).
    left. by simplify_eq.
  - rewrite list_lookup_insert_ne in He' by done. right. by exists e'.
Qed.

Lemma change_priority_holds_less x h p : holds_less x (change_priority x h p).
Proof.
  unfold change_priority. destruct (ref_arena x !! h) as [e|] eqn:E; [|apply holds_less_refl].
  split; cbn [ref_arena]; [by rewrite length_insert|].
  intros i e' He'. destruct (decide (i = h)) as [->|Hne].
  - rewrite list_lookup_insert_eq in He' by (by eapply lookup_lt_Some).
    right. exists e. by simplify_eq.
  - rewrite list_lookup_insert_ne in He' by done. right. by exists e'.
Qed.

Lemma fold_change_priority_holds_less changes : forall x,
  holds_less x
    (fold_left (fun x' '(entry, priority) => change_priority x' entry priority) changes x).
Proof.
  induction changes as [|[h p] changes IH]; intros x; [apply holds_less_refl|].
  simpl. eapply holds_less_trans; [apply change_priority_holds_less | apply IH].
Qed.

Lemma update_all_priorities_holds_less x f : holds_less x (update_all_priorities x f).
Proof.
  unfold update_all_priorities.
  eapply holds_less_trans; [apply fold_change_priority_holds_less|].
  apply holds_less_same_arena, heapify_arena.
Qed.

Lemma pop_random_loop_holds_less rnd n : forall x k,
  holds_less x (pop_random_loop rnd n x k).1.2.
Proof.
  induction n as [|n IH]; intros x k; [apply holds_less_refl|]. cbn [pop_random_loop].
  destruct (random_choice rnd k (ref_entries x)) as [h|]; [|apply holds_less_refl].
  destruct (handle_is_active (ref_arena x) h); [|apply IH].
  pose proof (remove_entry_holds_less x h) as H.
  by destruct (remove_entry x h).
Qed.

Lemma pop_random_holds_less rnd n x k : holds_less x (pop_random rnd n x k).1.2.
Proof.
  unfold pop_random.
  assert (H : holds_less x (_pop_empty x)).
  { apply holds_less_same_arena. unfold _pop_empty. apply _pop_empty_loop_arena. }
  destruct (ref_entries (_pop_empty x)); [done|].
  eapply holds_less_trans; [exact H | apply pop_random_loop_holds_less].
Qed.

(** Every method but [push] leaves in the entries the references they hold,
    or takes them out. *)
Lemma step_any_holds_less x o :
  (forall r, o <> RPush r) -> holds_less x (step_any x o).
Proof.
  intros Ho. destruct o as [r| | |h|h p|f|rnd n k]; simpl.
  - by destruct (Ho r).
  - apply holds_less_same_arena, pop_loop_arena.
  - apply holds_less_same_arena, heapify_arena.
  - apply remove_entry_holds_less.
  - apply change_priority_holds_less.
  - apply update_all_priorities_holds_less.
  - apply pop_random_holds_less.
Qed.

(** *** Runs in which no Request object is pushed twice *)

Lemma fold_change_priority_view changes : forall x,
  unshared x ->
  view (fold_left (fun x' '(entry, priority) => change_priority x' entry priority)
          changes x)
  = fold_left (fun q' '(entry, priority) =>
                 RequestsPriorityQueue.change_priority q' entry priority)
      changes (view x).
Proof.
  induction changes as [|[h p] changes IH]; intros x Hun; [done|].
  simpl. rewrite IH.
  - by rewrite change_priority_view.
  - by eapply holds_less_unshared; [apply change_priority_holds_less|].
Qed.

Lemma update_all_priorities_view x f :
  unshared x ->
  view (update_all_priorities x f)
  = RequestsPriorityQueue.update_all_priorities (view x) f.
Proof.
  intros Hun. unfold update_all_priorities, RequestsPriorityQueue.update_all_priorities.
  destruct (heapify_view
              (fold_left (fun x' '(entry, priority) => change_priority x' entry priority)
                 (zip (iter_active_entries x) (f (objects x <$> iter_requests x))) x))
    as [-> _].
  by rewrite fold_change_priority_view, iter_active_entries_view, iter_requests_view.
Qed.

Lemma pop_random_loop_view rnd n : forall x k,
  view (pop_random_loop rnd n x k).1.2
  = (RequestsPriorityQueue_random.pop_random_loop rnd n (view x) k).1.2.
Proof.
  induction n as [|n IH]; intros x k; [done|].
  cbn [pop_random_loop RequestsPriorityQueue_random.pop_random_loop].
  change (entries (view x)) with (ref_entries x).
  destruct (random_choice rnd k (ref_entries x)) as [h|]; [|done].
  change (arena (view x)) with (view_entry (objects x) <$> ref_arena x).
  rewrite handle_is_active_view.
  destruct (handle_is_active (ref_arena x) h); [|apply IH].
  destruct (remove_entry_view x h) as (Hv & _ & _).
  destruct (remove_entry x h) as [res x'].
  change (arena (view x)) with (view_entry (objects x) <$> ref_arena x) in Hv.
  destruct (RequestsPriorityQueue.remove_entry (view x) h) as [res' q'].
  cbn [fst snd] in *. done.
Qed.

Lemma pop_random_view rnd n x k :
  view (pop_random rnd n x k).1.2
  = (RequestsPriorityQueue_random.pop_random rnd n (view x) k).1.2.
Proof.
  unfold pop_random, RequestsPriorityQueue_random.pop_random,
    _pop_empty, RequestsPriorityQueue._pop_empty.
  change (entries (view x)) with (ref_entries x).
  destruct (_pop_empty_loop_view (length (ref_entries x)) x) as [Hv _].
  rewrite <- Hv.
  change (entries (view (_pop_empty_loop (length (ref_entries x)) x)))
    with (ref_entries (_pop_empty_loop (length (ref_entries x)) x)).
  destruct (ref_entries (_pop_empty_loop (length (ref_entries x)) x)); [done|].
  apply pop_random_loop_view.
Qed.

Lemma step_any_view x o :
  unshared x -> view (step_any x o) = queue_more.step_any (view x) (as_any_op x o).
Proof.
  intros Hun. destruct o as [r| | |h|h p|f|rnd n k]; simpl.
  - apply push_view.
  - apply pop_loop_view.
  - apply heapify_view.
  - apply remove_entry_view.
  - by apply change_priority_view.
  - by apply update_all_priorities_view.
  - apply pop_random_view.
Qed.

Lemma holds_less_held_in x x' P : holds_less x x' -> held_in x P -> held_in x' P.
Proof.
  intros [_ Hless] Hheld h e' o He' Ho.
  destruct (Hless h e' He') as [?|(e & He & Heq)]; [congruence|].
  apply (Hheld h e o He). congruence.
Qed.

Lemma push_unshared x r P :
  unshared x -> held_in x P -> r ∉ P ->
  unshared (push x r).2 /\ held_in (push x r).2 (P ++ [r]).
Proof.
  intros Hun Hheld Hr. unfold push. cbn [snd]. split.
  - intros h h' e e' o He He' Ho Ho'. cbn [ref_arena] in He, He'.
    apply lookup_app_Some in He as [He | [Hlen He]];
      apply lookup_app_Some in He' as [He' | [Hlen' He']].
    + by apply (Hun h h' e e' o).
    + apply list_lookup_singleton_Some in He' as [_ <-]. simpl in Ho'.
      simplify_eq. destruct Hr. by apply (Hheld h e o He).
    + apply list_lookup_singleton_Some in He as [_ <-]. simpl in Ho.
      simplify_eq. destruct Hr. by apply (Hheld h' e' o He').
    + apply list_lookup_singleton_Some in He as [? _].
      apply list_lookup_singleton_Some in He' as [? _]. lia.
  - intros h e o He Ho. cbn [ref_arena] in He.
    apply lookup_app_Some in He as [He | [Hlen He]].
    + apply elem_of_app. left. by apply (Hheld h e o).
    + apply list_lookup_singleton_Some in He as [_ <-]. simpl in Ho.
      apply elem_of_app. right. apply list_elem_of_singleton. congruence.
Qed.

Lemma step_any_unshared x o P :
  unshared x -> held_in x P -> NoDup (P ++ pushed [o]) ->
  unshared (step_any x o) /\ held_in (step_any x o) (P ++ pushed [o]).
Proof.
  intros Hun Hheld Hnd.
  assert (Hother : (forall r, o <> RPush r) ->
            unshared (step_any x o) /\ held_in (step_any x o) (P ++ pushed [o])).
  { intros Hno.
    pose proof (step_any_holds_less x o Hno) as Hless.
    split; [by eapply holds_less_unshared|].
    assert (E : pushed [o] = []) by (destruct o as [r| | | | | |]; [by destruct (Hno r) | done..]).
    rewrite E, app_nil_r. by eapply holds_less_held_in. }
  destruct o as [r| | |h|h p|f|rnd n k]; try (by apply Hother).
  simpl in *. apply push_unshared; [done..|].
  apply NoDup_app in Hnd as (_ & Hdisj & _). intros Hin.
  apply (Hdisj r Hin). by left.
Qed.

Lemma pushed_cons o ops : pushed (o :: ops) = pushed [o] ++ pushed ops.
Proof. unfold pushed. simpl. by destruct o. Qed.

(** A property of queues of requests that every operation keeps holds of
    the view of the queue of Request objects after every run in which no
    object is pushed twice. *)
Lemma run_any_view (I : RequestsPriorityQueue -> Prop) ops :
  (forall q o, I q -> I (queue_more.step_any q o)) ->
  forall x P,
    unshared x -> held_in x P -> NoDup (P ++ pushed ops) -> I (view x) ->
    unshared (run_any ops x) /\ I (view (run_any ops x)).
Proof.
  intros HI. unfold run_any.
  induction ops as [|o ops IH]; intros x P Hun Hheld Hnd Hx; [done|].
  rewrite pushed_cons, app_assoc in Hnd. simpl.
  destruct (step_any_unshared x o P Hun Hheld) as [Hun' Hheld'].
  { by apply NoDup_app in Hnd as (? & _ & _). }
  apply (IH _ (P ++ pushed [o])); [done..|].
  rewrite step_any_view by done. by apply HI.
Qed.

(** A run in which no Request object is pushed twice is, in the view, a
    run of the queue of requests: every operation on Request objects is the
    operation on requests that [as_any_op] gives for the state in which it
    is made. *)
Lemma run_any_is_a_run_of_requests ops : forall x P,
  unshared x -> held_in x P -> NoDup (P ++ pushed ops) ->
  exists ops' : list queue_more.any_op,
    length ops' = length ops /\
    view (run_any ops x) = queue_more.run_any ops' (view x).
Proof.
  unfold run_any, queue_more.run_any.
  induction ops as [|o ops IH]; intros x P Hun Hheld Hnd; [by exists []|].
  rewrite pushed_cons, app_assoc in Hnd. simpl.
  destruct (step_any_unshared x o P Hun Hheld) as [Hun' Hheld'].
  { by apply NoDup_app in Hnd as (? & _ & _). }
  destruct (IH _ (P ++ pushed [o]) Hun' Hheld' Hnd) as (ops' & Hlen & Hview).
  exists (as_any_op x o :: ops'). split; [simpl; by rewrite Hlen|].
  simpl. by rewrite Hview, step_any_view.
Qed.

Lemma unshared_init objs fifo : unshared (__init__ objs fifo) /\ held_in (__init__ objs fifo) [].
Proof. split; [intros h h' e e' o He | intros h e o He]; done. Qed.

Lemma keys_consistent_view x :
  keys_consistent x <-> queue_props.keys_consistent (arena (view x)).
Proof.
  unfold keys_consistent, queue_props.keys_consistent.
  change (arena (view x)) with (view_entry (objects x) <$> ref_arena x).
  split.
  - intros H h e r He Hr. rewrite list_lookup_fmap in He.
    destruct (ref_arena x !! h) as [e0|] eqn:E; [|done]. simpl in He. simplify_eq.
    simpl in *. destruct (ref_item e0) as [o|] eqn:Eo; [|done]. simplify_eq.
    by apply (H h).
  - intros H h e o He Ho.
    apply (H h (view_entry (objects x) e) (objects x o)).
    + by rewrite list_lookup_fmap, He.
    + simpl. by rewrite Ho.
Qed.

(** *** What holds with shared objects too *)

Lemma structural_sub x x' :
  ref_entries x' ⊆+ ref_entries x -> length (ref_arena x') = length (ref_arena x) ->
  structural x -> structural x'.
Proof.
  intros Hsub Hlen [Hvalid Hnd]. split.
  - intros h Hh. rewrite Hlen. apply Hvalid. by eapply elem_of_submseteq.
  - apply submseteq_Permutation in Hsub as [k Hk]. rewrite Hk in Hnd.
    by apply NoDup_app in Hnd as (? & _ & _).
Qed.

Lemma pop_loop_entries fuel : forall x, ref_entries (pop_loop fuel x).2 ⊆+ ref_entries x.
Proof.
  induction fuel as [|fuel IH]; intros x; [done|]. cbn [pop_loop].
  destruct (heapq.heappop _ _) as [[h es]|] eqn:E; [|done].
  destruct (heapq_perm.heappop_perm _ _ _ _ E) as [Hperm _].
  assert (Hes : es ⊆+ ref_entries x) by (rewrite <- Hperm; by apply submseteq_cons).
  destruct (ref_item _); [done|].
  etrans; [apply (IH (with_entries x es)) | done].
Qed.

Lemma _pop_empty_loop_entries fuel : forall x,
  ref_entries (_pop_empty_loop fuel x) ⊆+ ref_entries x.
Proof.
  induction fuel as [|fuel IH]; intros x; [done|]. cbn [_pop_empty_loop].
  destruct (next_request x) as [[o|]|]; [done | | done].
  destruct (heapq.heappop _ _) as [[h es]|] eqn:E; [|done].
  destruct (heapq_perm.heappop_perm _ _ _ _ E) as [Hperm _].
  etrans; [apply (IH (with_entries x es))|].
  simpl. rewrite <- Hperm. by apply submseteq_cons.
Qed.

Lemma heapify_entries x : ref_entries (heapify x) ⊆+ ref_entries x.
Proof.
  unfold heapify, _pop_empty. etrans; [apply _pop_empty_loop_entries|].
  simpl. by rewrite heapq_perm.heapify_perm.
Qed.

Lemma remove_entry_ref_entries x h : ref_entries (remove_entry x h).2 = ref_entries x.
Proof. unfold remove_entry. by destruct (ref_arena x !! h). Qed.

Lemma change_priority_ref_entries x h p : ref_entries (change_priority x h p) = ref_entries x.
Proof. unfold change_priority. by destruct (ref_arena x !! h). Qed.

Lemma fold_change_priority_ref_entries changes : forall x,
  ref_entries
    (fold_left (fun x' '(entry, priority) => change_priority x' entry priority) changes x)
  = ref_entries x.
Proof.
  induction changes as [|[h p] changes IH]; intros x; [done|].
  simpl. by rewrite IH, change_priority_ref_entries.
Qed.

Lemma pop_random_loop_entries rnd n : forall x k,
  ref_entries (pop_random_loop rnd n x k).1.2 = ref_entries x.
Proof.
  induction n as [|n IH]; intros x k; [done|]. cbn [pop_random_loop].
  destruct (random_choice rnd k (ref_entries x)) as [h|]; [|done].
  destruct (handle_is_active (ref_arena x) h); [|apply IH].
  pose proof (remove_entry_ref_entries x h) as H.
  by destruct (remove_entry x h).
Qed.

Lemma step_any_structural x o : structural x -> structural (step_any x o).
Proof.
  intros Hx. pose proof Hx as [Hvalid Hnd].
  destruct o as [r| | |h|h p|f|rnd n k]; cbn [step_any].
  - unfold push. cbn [snd]. split; cbn [ref_entries ref_arena].
    + intros h Hh. rewrite heap_facts.heappush_perm in Hh.
      rewrite length_app. simpl.
      apply elem_of_cons in Hh as [->|Hh]; [lia|]. apply Hvalid in Hh. lia.
    + rewrite heap_facts.heappush_perm. apply NoDup_cons. split; [|done].
      intros Hin. apply Hvalid in Hin. lia.
  - unfold pop.
    eapply structural_sub; [apply pop_loop_entries | by rewrite pop_loop_arena | done].
  - eapply structural_sub; [apply heapify_entries | by rewrite heapify_arena | done].
  - eapply structural_sub; [by rewrite remove_entry_ref_entries | | done].
    apply remove_entry_holds_less.
  - eapply structural_sub; [by rewrite change_priority_ref_entries | | done].
    apply change_priority_holds_less.
  - eapply structural_sub; [| apply update_all_priorities_holds_less | done].
    unfold update_all_priorities. etrans; [apply heapify_entries|].
    by rewrite fold_change_priority_ref_entries.
  - eapply structural_sub; [| apply pop_random_holds_less | done].
    unfold pop_random.
    pose proof (_pop_empty_loop_entries (length (ref_entries x)) x) as H.
    fold (_pop_empty x) in H.
    destruct (ref_entries (_pop_empty x)) eqn:E; cbn [fst snd]; [by rewrite E|].
    by rewrite pop_random_loop_entries, E.
Qed.

Lemma run_any_structural ops : forall x, structural x -> structural (run_any ops x).
Proof.
  unfold run_any. induction ops as [|o ops IH]; intros x Hx; [done|].
  simpl. by apply IH, step_any_structural.
Qed.

(** *** Runs in which [heapify] follows every change *)

Lemma step_op_view x o :
  unshared x -> view (step_op x o) = queue_props.step_op (view x) (as_op x o).
Proof.
  intros Hun. destruct o as [r| | |h|h p|f]; simpl.
  - apply push_view.
  - apply pop_loop_view.
  - apply heapify_view.
  - destruct (heapify_view (remove_entry x h).2) as [-> _].
    by destruct (remove_entry_view x h) as [-> _].
  - destruct (heapify_view (change_priority x h p)) as [-> _].
    by rewrite change_priority_view.
  - by apply update_all_priorities_view.
Qed.

Lemma step_op_holds_less x o : (forall r, o <> KPush r) -> holds_less x (step_op x o).
Proof.
  intros Ho. destruct o as [r| | |h|h p|f]; simpl.
  - by destruct (Ho r).
  - apply holds_less_same_arena, pop_loop_arena.
  - apply holds_less_same_arena, heapify_arena.
  - eapply holds_less_trans; [apply remove_entry_holds_less|].
    apply holds_less_same_arena, heapify_arena.
  - eapply holds_less_trans; [apply change_priority_holds_less|].
    apply holds_less_same_arena, heapify_arena.
  - apply update_all_priorities_holds_less.
Qed.

Lemma step_op_unshared x o P :
  unshared x -> held_in x P -> NoDup (P ++ pushes [o]) ->
  unshared (step_op x o) /\ held_in (step_op x o) (P ++ pushes [o]).
Proof.
  intros Hun Hheld Hnd.
  assert (Hother : (forall r, o <> KPush r) ->
            unshared (step_op x o) /\ held_in (step_op x o) (P ++ pushes [o])).
  { intros Hno.
    pose proof (step_op_holds_less x o Hno) as Hless.
    split; [by eapply holds_less_unshared|].
    assert (E : pushes [o] = []) by (destruct o as [r| | | | |]; [by destruct (Hno r) | done..]).
    rewrite E, app_nil_r. by eapply holds_less_held_in. }
  destruct o as [r| | |h|h p|f]; try (by apply Hother).
  simpl in *. apply push_unshared; [done..|].
  apply NoDup_app in Hnd as (_ & Hdisj & _). intros Hin.
  apply (Hdisj r Hin). by left.
Qed.

Lemma pushes_cons o ops : pushes (o :: ops) = pushes [o] ++ pushes ops.
Proof. unfold pushes. simpl. by destruct o. Qed.

Lemma run_view (I : RequestsPriorityQueue -> Prop) ops :
  (forall q o, I q -> I (queue_props.step_op q o)) ->
  forall x P,
    unshared x -> held_in x P -> NoDup (P ++ pushes ops) -> I (view x) ->
    unshared (run ops x) /\ I (view (run ops x)).
Proof.
  intros HI. unfold run.
  induction ops as [|o ops IH]; intros x P Hun Hheld Hnd Hx; [done|].
  rewrite pushes_cons, app_assoc in Hnd. simpl.
  destruct (step_op_unshared x o P Hun Hheld) as [Hun' Hheld'].
  { by apply NoDup_app in Hnd as (? & _ & _). }
  apply (IH _ (P ++ pushes [o])); [done..|].
  rewrite step_op_view by done. by apply HI.
Qed.

(** After a run in which [heapify] follows every change and no object is
    pushed twice, the view is a well-formed queue whose entries form a
    heap. *)
Lemma run_kept_unshared objs fifo ops :
  NoDup (pushes ops) ->
  let x := run ops (__init__ objs fifo) in
  unshared x /\ well_formed (view x) /\ heap_ordered (view x).
Proof.
  intros Hnd.
  destruct (unshared_init objs fifo) as [Hun Hheld].
  apply (run_view (fun q => well_formed q /\ heap_ordered q) ops) with (P := []);
    try done.
  - intros q o [Hwf Hheap]. by apply queue_facts.step_op_well_formed.
  - apply (queue_facts.well_formed_init fifo).
Qed.

Lemma run_any_unshared objs fifo ops :
  NoDup (pushed ops) ->
  let x := run_any ops (__init__ objs fifo) in
  unshared x /\ sound (view x).
Proof.
  intros Hnd.
  destruct (unshared_init objs fifo) as [Hun Hheld].
  apply (run_any_view sound ops) with (P := []); try done.
  - intros q o Hq. by apply queue_more_facts.step_any_sound.
  - apply (queue_more_facts.sound_init fifo).
Qed.

(** *** The invariant of the queue *)

(** X4: whatever is done to a queue, [heapify] called or not and Request
    objects shared by entries or not, every entry of the heap is an entry
    that a push made and no entry lies in the heap twice.  When no Request
    object is pushed twice, no object is held by two entries, and every
    entry that holds an object has the negated priority of the object as
    key. *)
Theorem every_run_is_sound (objs : nat -> Request) (fifo : bool) (ops : list any_op) :
  let x := run_any ops (__init__ objs fifo) in
  (forall h, h ∈ ref_entries x -> (h < length (ref_arena x))%nat) /\
  NoDup (ref_entries x) /\
  (NoDup (pushed ops) -> unshared x /\ keys_consistent x).
Proof.
  intros x.
  assert (Hs : structural x).
  { apply run_any_structural. split; [intros h Hh; by apply elem_of_nil in Hh | constructor]. }
  destruct Hs as [Hvalid Hnd]. split_and!; [done..|].
  intros Hpushed. destruct (run_any_unshared objs fifo ops Hpushed) as [Hun (_ & _ & Hkeys)].
  split; [done | by apply keys_consistent_view].
Qed.

Lemma every_run_is_sound_witness :
  let ops := [RPush 0%nat; RPush 1%nat; RChangePriority 0%nat 10; RPop] in
  let x := run_any ops (__init__ (objects_of [("r", 1); ("s", 5)]) true) in
  NoDup (pushed ops) /\ unshared x /\ keys_consistent x.
Proof.
  intros ops x.
  assert (H : NoDup (pushed ops)) by (unfold ops; cbn; apply (bool_decide_unpack _); reflexivity).
  split; [exact H|].
  apply (every_run_is_sound (objects_of [("r", 1); ("s", 5)]) true ops), H.
Defined.

(** What a shared Request object does.  One object, of priority 1, is
    pushed twice, and [change_priority] sets the priority 10 through the
    first entry: the second entry keeps the key -1 while its request reads
    10.  With an object of priority 5 pushed as well, after [heapify] and a
    [pop], which returns the shared object, the root of the heap is the
    object of priority 5 and [pop] returns it, although the shared object
    is still in the queue and reads 10.  And [update_all_priorities] with
    the priorities 10 and 20 for the two entries of the shared object
    leaves the first entry with the key -10 while the object reads 20. *)
Lemma shared_object_example :
  let objs := objects_of [("r", 1); ("s", 5)] in
  let x := run_any [RPush 0%nat; RPush 0%nat; RChangePriority 0%nat 10]
             (__init__ objs true) in
  let y := run [KPush 0%nat; KPush 0%nat; KPush 1%nat; KChangePriorityHeapify 0%nat 10; KPop]
             (__init__ objs true) in
  let z := update_all_priorities (run_any [RPush 0%nat; RPush 0%nat] (__init__ objs true))
             (fun _ => [10; 20]) in
  (ref_arena x = [mkRefEntry (-10) 0 (Some 0%nat); mkRefEntry (-1) 1 (Some 0%nat)] /\
   priority (objects x 0%nat) = 10 /\
   ~ keys_consistent x) /\
  (iter_requests y = [1; 0]%nat /\
   priority <$> (objects y <$> iter_requests y) = [5; 10] /\
   (pop y).1 = Some 1%nat) /\
  (ref_arena z = [mkRefEntry (-10) 0 (Some 0%nat); mkRefEntry (-20) 1 (Some 0%nat)] /\
   priority (objects z 0%nat) = 20).
Proof.
  intros objs x y z. split_and!; try reflexivity.
  intros H. specialize (H 1%nat (mkRefEntry (-1) 1 (Some 0%nat)) 0%nat eq_refl eq_refl).
  by vm_compute in H.
Qed.

(** *** The request at the root *)

Lemma iter_requests_root x h es o :
  ref_entries x = h :: es -> ref_item (deref (ref_arena x) h) = Some o ->
  exists rest, iter_requests x = o :: rest.
Proof.
  intros Ees Ho. unfold iter_requests, iter_active_entries. rewrite Ees.
  rewrite filter_cons_True by (unfold handle_is_active, entry_is_active; by rewrite Ho).
  cbn [omap list_omap]. rewrite Ho. by eexists.
Qed.

(** X7: in a queue where [heapify] followed every change made through an
    entry and into which no Request object was pushed twice, a Request
    object at the root is the first that [iter_requests] gives and none in
    the queue has a greater priority; [max_priority] is its priority. *)
Theorem iter_requests_first_is_top (objs : nat -> Request) (fifo : bool)
    (ops : list op) (o : nat) :
  NoDup (pushes ops) ->
  let x := run ops (__init__ objs fifo) in
  next_request x = Some (Some o) ->
  exists rest, iter_requests x = o :: rest /\
    Forall (fun o' => priority (objects x o') <= priority (objects x o)) rest /\
    max_priority x = priority (objects x o).
Proof.
  intros Hnd x Hroot.
  destruct (run_kept_unshared objs fifo ops Hnd) as (_ & Hwf & Hheap). fold x in Hwf, Hheap.
  destruct (queue_more_facts.live_root_is_top (view x) (objects x o) Hwf Hheap)
    as (rest' & Hiter & Hall & Hmax).
  { by rewrite next_request_view, Hroot. }
  unfold next_request in Hroot. destruct (ref_entries x) as [|h es] eqn:Ees; [done|].
  injection Hroot as Hroot.
  destruct (iter_requests_root x h es o Ees Hroot) as [rest Hrest].
  exists rest. split_and!; [done | | by rewrite <- max_priority_view].
  rewrite iter_requests_view, Hrest, fmap_cons in Hiter. injection Hiter as <-.
  by rewrite Forall_fmap in Hall.
Qed.

Lemma iter_requests_first_is_top_witness :
  let ops := [KPush 0%nat; KPush 1%nat; KPush 2%nat; KChangePriorityHeapify 0%nat 2] in
  let x := run ops (__init__ (objects_of [("a", 1); ("b", 7); ("c", 3)]) true) in
  NoDup (pushes ops) /\
  next_request x = Some (Some 1%nat) /\
  exists rest, iter_requests x = 1%nat :: rest /\
    Forall (fun o' => priority (objects x o') <= priority (objects x 1%nat)) rest /\
    max_priority x = priority (objects x 1%nat).
Proof.
  intros ops x.
  assert (Hnd : NoDup (pushes ops)) by (unfold ops; cbn; apply (bool_decide_unpack _); reflexivity).
  assert (H : next_request x = Some (Some 1%nat)) by reflexivity.
  split; [exact Hnd|]. split; [exact H|].
  apply (iter_requests_first_is_top (objects_of [("a", 1); ("b", 7); ("c", 3)]) true
           ops _ Hnd H).
Defined.

(** *** What [pop] returns *)

Lemma pop_loop_held fuel : forall x o,
  (pop_loop fuel x).1 = Some o ->
  exists h, h ∈ ref_entries x /\ ref_item (deref (ref_arena x) h) = Some o.
Proof.
  induction fuel as [|fuel IH]; intros x o; [done|]. cbn [pop_loop].
  destruct (heapq.heappop _ _) as [[h es]|] eqn:E; [|done].
  destruct (heapq_perm.heappop_perm _ _ _ _ E) as [Hperm _].
  destruct (ref_item (deref (ref_arena x) h)) as [o'|] eqn:Eo.
  - intros [= ->]. exists h. split; [|done]. rewrite <- Hperm. by left.
  - intros Hpop. destruct (IH (with_entries x es) o Hpop) as (h' & Hin & Hh').
    exists h'. split; [|done]. rewrite <- Hperm. by right.
Qed.

Lemma iter_requests_held x h o :
  h ∈ ref_entries x -> ref_item (deref (ref_arena x) h) = Some o -> o ∈ iter_requests x.
Proof.
  intros Hin Ho. unfold iter_requests. apply list_elem_of_omap. exists h. split; [|done].
  apply list_elem_of_filter. split; [|done].
  unfold handle_is_active, entry_is_active. by rewrite Ho.
Qed.

(** X9: [pop], in a queue where [heapify] followed every change made through
    an entry and into which no Request object was pushed twice, returns a
    Request object of the queue that has the greatest priority among them,
    and leaves the heap in order. *)
Theorem pop_returns_a_top_request (objs : nat -> Request) (fifo : bool)
    (ops : list op) (o : nat) :
  NoDup (pushes ops) ->
  let x := run ops (__init__ objs fifo) in
  (pop x).1 = Some o ->
  o ∈ iter_requests x /\
  (forall o', o' ∈ iter_requests x -> priority (objects x o') <= priority (objects x o)) /\
  heap_ordered (view (pop x).2).
Proof.
  intros Hnd x Hpop.
  destruct (run_kept_unshared objs fifo ops Hnd) as (_ & Hwf & Hheap). fold x in Hwf, Hheap.
  destruct (pop_view x) as (Hv & _ & Hres).
  destruct (queue_more_facts.pop_top (view x) (objects x o) Hwf Hheap)
    as (_ & Htop & Hheap').
  { by rewrite <- Hres, Hpop. }
  split_and!.
  - destruct (pop_loop_held _ x o Hpop) as (h & Hin & Hh).
    by apply (iter_requests_held x h).
  - intros o' Ho'. apply Htop. rewrite iter_requests_view. by apply list_elem_of_fmap_2.
  - by rewrite Hv.
Qed.

Lemma pop_returns_a_top_request_witness :
  let ops := [KPush 0%nat; KPush 1%nat; KPush 2%nat; KChangePriorityHeapify 0%nat 2] in
  let x := run ops (__init__ (objects_of [("a", 1); ("b", 7); ("c", 3)]) true) in
  NoDup (pushes ops) /\
  (pop x).1 = Some 1%nat /\
  (forall o', o' ∈ iter_requests x -> priority (objects x o') <= priority (objects x 1%nat)).
Proof.
  intros ops x.
  assert (Hnd : NoDup (pushes ops)) by (unfold ops; cbn; apply (bool_decide_unpack _); reflexivity).
  assert (H : (pop x).1 = Some 1%nat) by reflexivity.
  split; [exact Hnd|]. split; [exact H|].
  apply (pop_returns_a_top_request (objects_of [("a", 1); ("b", 7); ("c", 3)]) true
           ops _ Hnd H).
Defined.

(** *** update_all_priorities *)

Lemma held_Some x h o :
  held x h = Some o <-> exists e, ref_arena x !! h = Some e /\ ref_item e = Some o.
Proof.
  unfold held, deref. destruct (ref_arena x !! h) as [e|]; simpl.
  - split; [by exists e | by intros (? & [= <-] & ?)].
  - split; [done | by intros (? & ? & _)].
Qed.

Lemma change_priority_held x h p h' : held (change_priority x h p) h' = held x h'.
Proof.
  unfold change_priority, held, deref.
  destruct (ref_arena x !! h) as [e|] eqn:E; [|done]. cbn [ref_arena].
  destruct (decide (h' = h)) as [->|Hne].
  - rewrite list_lookup_insert_eq by (by eapply lookup_lt_Some). by rewrite E.
  - by rewrite list_lookup_insert_ne.
Qed.

Lemma change_priority_objects x h p o :
  objects (change_priority x h p) o
  = if decide (held x h = Some o) then set_priority (objects x o) p else objects x o.
Proof.
  unfold change_priority, held, deref.
  destruct (ref_arena x !! h) as [e|] eqn:E; cbn [default objects ref_item];
    unfold id; [|by destruct (decide _)].
  destruct (ref_item e) as [o'|]; [|by destruct (decide _)].
  unfold written.
  destruct (decide (o = o')) as [->|Hne]; destruct (decide _); congruence.
Qed.

Lemma fold_change_priority_held changes : forall x h,
  held (fold_left (fun x' '(entry, priority) => change_priority x' entry priority)
          changes x) h
  = held x h.
Proof.
  induction changes as [|[h0 p0] changes IH]; intros x h; [done|].
  simpl. by rewrite IH, change_priority_held.
Qed.

(** A Request object that no changed entry holds is not written. *)
Lemma fold_change_priority_objects_other changes : forall x o,
  (forall h p, (h, p) ∈ changes -> held x h <> Some o) ->
  objects (fold_left (fun x' '(entry, priority) => change_priority x' entry priority)
             changes x) o
  = objects x o.
Proof.
  induction changes as [|[h0 p0] changes IH]; intros x o Hother; [done|].
  simpl. rewrite IH.
  - rewrite change_priority_objects, decide_False; [done|]. apply (Hother h0 p0). by left.
  - intros h p Hin. rewrite change_priority_held. apply (Hother h p). by right.
Qed.

(** The Request object of a changed entry reads the priority given to the
    entry, when no other entry holds the object. *)
Lemma fold_change_priority_objects_at changes : forall x i h p o,
  unshared x -> NoDup changes.*1 ->
  changes !! i = Some (h, p) -> held x h = Some o ->
  objects (fold_left (fun x' '(entry, priority) => change_priority x' entry priority)
             changes x) o
  = set_priority (objects x o) p.
Proof.
  induction changes as [|[h0 p0] changes IH]; intros x i h p o Hun Hnd Hi Hheld; [done|].
  rewrite fmap_cons in Hnd. apply NoDup_cons in Hnd as [Hnotin Hnd]. simpl in Hnotin.
  assert (Hother : forall h' o', h' <> h -> held x h = Some o' -> held x h' <> Some o').
  { intros h' o' Hne H1 H2. apply held_Some in H1 as (e1 & He1 & Ho1).
    apply held_Some in H2 as (e2 & He2 & Ho2).
    apply Hne. by apply (Hun h' h e2 e1 o'). }
  destruct i as [|i]; simpl in Hi |- *.
  - injection Hi as -> ->.
    rewrite fold_change_priority_objects_other.
    + by rewrite change_priority_objects, decide_True.
    + intros h' p' Hin. rewrite change_priority_held. apply Hother; [|done].
      intros ->. apply Hnotin. apply list_elem_of_fmap. by exists (h, p').
  - assert (Hne : h0 <> h).
    { intros ->. apply Hnotin. apply list_elem_of_fmap. exists (h, p). split; [done|].
      by eapply list_elem_of_lookup_2. }
    rewrite (IH _ i h p o); [| | done | done |].
    + rewrite change_priority_objects, decide_False; [done|]. by apply Hother.
    + by eapply holds_less_unshared; [apply change_priority_holds_less|].
    + by rewrite change_priority_held.
Qed.

Lemma omap_lookup_total {B C} (f : B -> option C) (l : list B) i c :
  (forall b, b ∈ l -> is_Some (f b)) ->
  omap f l !! i = Some c -> exists b, l !! i = Some b /\ f b = Some c.
Proof.
  revert i. induction l as [|b l IH]; intros i Hall Hi; [done|].
  destruct (Hall b) as [c' Hc']; [by left|].
  cbn [omap list_omap] in Hi. rewrite Hc' in Hi.
  destruct i as [|i]; simpl in Hi.
  - injection Hi as <-. by exists b.
  - apply IH in Hi as (b' & ? & ?); [by exists b' |].
    intros b'' Hb''. apply Hall. by right.
Qed.

Lemma iter_requests_lookup x i o :
  iter_requests x !! i = Some o ->
  exists h, iter_active_entries x !! i = Some h /\ held x h = Some o.
Proof.
  apply (omap_lookup_total (held x)). intros h Hh.
  apply list_elem_of_filter in Hh as [Hh _].
  unfold handle_is_active, entry_is_active in Hh. unfold held.
  by destruct (ref_item (deref (ref_arena x) h)).
Qed.

Lemma NoDup_zip_fst {B C} (l : list B) (k : list C) : NoDup l -> NoDup (zip l k).*1.
Proof.
  revert k. induction l as [|b l IH]; intros k Hnd; [constructor|].
  apply NoDup_cons in Hnd as [Hb Hnd]. destruct k as [|c k]; [constructor|].
  simpl. apply NoDup_cons. split; [|by apply IH].
  intros Hin. apply Hb. apply list_elem_of_fmap in Hin as ([b' c'] & -> & Hin).
  simpl. apply elem_of_zip_l in Hin. done.
Qed.

(** X10: [update_all_priorities], on a queue reached by any operations in
    which no Request object was pushed twice.  The function is given the
    Request objects in the order of [iter_requests]; afterwards every one of
    them reads the priority that the function returned at its place, the
    objects from the place on where the returned list ends and the objects
    outside the queue are as before, and the queue holds the objects it
    held; the heap is in order, every key is the negated priority of its
    object, and no object is held twice. *)
Theorem update_all_priorities_sets_priorities (objs : nat -> Request) (fifo : bool)
    (ops : list any_op) (compute : list Request -> list Z) :
  NoDup (pushed ops) ->
  let x := run_any ops (__init__ objs fifo) in
  let rs := objects x <$> iter_requests x in
  let x' := update_all_priorities x compute in
  (forall i o p, iter_requests x !! i = Some o -> compute rs !! i = Some p ->
     objects x' o = set_priority (objects x o) p) /\
  (forall o, o ∉ take (length (compute rs)) (iter_requests x) ->
     objects x' o = objects x o) /\
  objects x' <$> iter_requests x' ≡ₚ
    zip_with set_priority rs (compute rs) ++ drop (length (compute rs)) rs /\
  heap_ordered (view x') /\
  keys_consistent x' /\
  unshared x'.
Proof.
  intros Hnd x rs x'.
  destruct (run_any_unshared objs fifo ops Hnd) as [Hun Hsound]. fold x in Hun, Hsound.
  destruct (queue_more_facts.update_all_priorities_spec (view x) compute Hsound)
    as (Hperm & Hheap & Hkeys).
  rewrite <- update_all_priorities_view in Hperm, Hheap, Hkeys by done.
  fold x' in Hperm, Hheap, Hkeys.
  rewrite !iter_requests_view in Hperm. fold rs in Hperm.
  set (changes := zip (iter_active_entries x) (compute rs)).
  assert (Hobjs : objects x'
            = objects (fold_left (fun x' '(entry, priority) =>
                                    change_priority x' entry priority) changes x)).
  { apply heapify_view. }
  assert (Hndh : NoDup (iter_active_entries x)).
  { apply NoDup_filter. destruct Hsound as (_ & H & _). exact H. }
  split_and!; [| | done | done | by apply keys_consistent_view |].
  - intros i o p Ho Hp. rewrite Hobjs.
    destruct (iter_requests_lookup x i o Ho) as (h & Hh & Hheld).
    apply (fold_change_priority_objects_at changes x i h p o); [done | | | done].
    + by apply NoDup_zip_fst.
    + unfold changes. apply lookup_zip_with_Some. by exists h, p.
  - intros o Ho. rewrite Hobjs. apply fold_change_priority_objects_other.
    intros h p Hin Hheld. apply Ho.
    apply list_elem_of_lookup in Hin as [i Hi].
    apply lookup_zip_with_Some in Hi as (h' & p' & [= <- <-] & Hh & Hp).
    apply list_elem_of_lookup. exists i.
    rewrite lookup_take_lt by (by eapply lookup_lt_Some).
    unfold iter_requests.
    clear -Hh Hheld. revert i Hh.
    assert (Hall : forall b, b ∈ iter_active_entries x -> is_Some (held x b)).
    { intros b Hb. apply list_elem_of_filter in Hb as [Hb _].
      unfold handle_is_active, entry_is_active in Hb. unfold held.
      by destruct (ref_item (deref (ref_arena x) b)). }
    induction (iter_active_entries x) as [|b l IH]; intros i Hi; [done|].
    destruct (Hall b) as [c Hc]; [by left|]. fold (held x b).
    cbn [omap list_omap]. fold (held x b). rewrite Hc.
    destruct i as [|i]; simpl in Hi |- *; [by simplify_eq|].
    apply IH; [|done]. intros b' Hb'. apply Hall. by right.
  - eapply holds_less_unshared; [apply update_all_priorities_holds_less | done].
Qed.

Lemma update_all_priorities_sets_priorities_witness :
  let ops := [RPush 0%nat; RPush 1%nat; RPush 2%nat; RPop] in
  let x := run_any ops (__init__ (objects_of [("a", 1); ("b", 7); ("c", 3)]) true) in
  let x' := update_all_priorities x (fun rs => [9; 4]) in
  NoDup (pushed ops) /\ keys_consistent x' /\ heap_ordered (view x').
Proof.
  intros ops x x'.
  assert (Hnd : NoDup (pushed ops))
    by (unfold ops; cbn; apply (bool_decide_unpack _); reflexivity).
  split; [exact Hnd|].
  pose proof (update_all_priorities_sets_priorities
                (objects_of [("a", 1); ("b", 7); ("c", 3)]) true ops
                (fun rs => [9; 4]) Hnd) as (_ & _ & _ & Hheap & Hkeys & _).
  split; [exact Hkeys | exact Hheap].
Defined.

End shared_facts.
